(** * The rule engine of klaudiush: patterns, matchers, registry, evaluator

    A shallow embedding of package [rules]: the pattern compiler and cache
    (src/internal/rules/pattern.go), the matchers (the [package rules] part
    of src/internal/crashdump/types.go), the registry and the evaluator
    (src/internal/rules/evaluator.go).  Go pointers that may be nil are
    [option]s, a nil-pointer dereference is the result [None] of the
    function that performs it, maps are [gmap]s, slices are lists, and the
    package-level pattern cache is threaded through explicitly. *)

From Stdlib Require Import ZArith Ascii String.
From stdpp Require Import base option list gmap strings sorting.

Local Open Scope Z_scope.

(** ** Go primitives used by the package *)

(** A Go [error] value, identified with its message. *)
Definition error := string.

Module GoStrings.

(** [strings.HasPrefix(s, prefix)]. *)
Definition HasPrefix (s prefix : string) : bool := String.prefix prefix s.

(** [strings.Contains(s, substr)]. *)
Fixpoint Contains (s substr : string) : bool :=
  String.prefix substr s ||
  match s with
  | EmptyString => false
  | String _ s' => Contains s' substr
  end.

(** [strings.HasSuffix(s, suffix)]. *)
Definition HasSuffix (s suffix : string) : bool :=
  let n := String.length s in
  let m := String.length suffix in
  (m <=? n)%nat && String.eqb (String.substring (n - m) m s) suffix.

(** [strings.CutSuffix(s, suffix)]: [s] without the suffix and [true],
    or [s] itself and [false]. *)
Definition CutSuffix (s suffix : string) : string * bool :=
  if HasSuffix s suffix
  then (String.substring 0 (String.length s - String.length suffix) s, true)
  else (s, false).

Definition lower (c : ascii) : ascii :=
  let n := N_of_ascii c in
  if ((65 <=? n) && (n <=? 90))%N then ascii_of_N (n + 32) else c.

(** [strings.EqualFold(s, t)] on ASCII text (tool and event names are
    ASCII identifiers); bytes outside [A-Za-z] are compared as they are.
    Go folds Unicode as well (U+017F with [s], U+212A with [k]): on strings
    that are not both ASCII the two can differ, and no property below
    depends on the value there. *)
Fixpoint EqualFold (s t : string) : bool :=
  match s, t with
  | EmptyString, EmptyString => true
  | String a s', String b t' => Ascii.eqb (lower a) (lower b) && EqualFold s' t'
  | _, _ => false
  end.

(** [errors.Wrap(err, msg)] of github.com/pkg/errors. *)
Definition Wrap (err : error) (msg : string) : error :=
  String.append msg (String.append ": " err).

End GoStrings.

(** ** Pattern compilation and the pattern cache *)

Inductive PatternType := PatternTypeGlob | PatternTypeRegex.

Definition regexIndicators : list string :=
  [ "^"; "$"; "(?"; "\d"; "\w"; "\s"; "\b"; "["; "]"; "("; ")"; "|"; "+";
    ".*"; ".+"; "\." ].

(** [DetectPatternType]: regex as soon as one indicator occurs in the text. *)
Definition DetectPatternType (pattern : string) : PatternType :=
  if existsb (GoStrings.Contains pattern) regexIndicators
  then PatternTypeRegex else PatternTypeGlob.

(** A compiled pattern ([*GlobPattern] or [*RegexPattern] behind the
    [Pattern] interface).  [pat_addr] is the address of the allocated
    struct: two patterns are the same instance when their addresses agree.
    [pat_compiled] is the matching function of the compiled glob or regexp. *)
Record Pattern := {
  pat_addr : nat;
  pat_type : PatternType;
  pat_pattern : string;
  pat_compiled : string -> bool
}.

(** [GlobPattern.Match] / [RegexPattern.Match]. *)
Definition Pattern_Match (p : Pattern) (s : string) : bool := pat_compiled p s.

(** [GlobPattern.String] / [RegexPattern.String]. *)
Definition Pattern_String (p : Pattern) : string := pat_pattern p.

(** The part of the process state the compiler touches: the allocator, and
    a ghost trace of the texts handed to [CompilePattern] (newest first). *)
Record World := {
  next_addr : nat;
  compile_log : list string
}.

Definition alloc (w : World) : nat * World :=
  (next_addr w, {| next_addr := S (next_addr w); compile_log := compile_log w |}).

Definition log_compile (t : string) (w : World) : World :=
  {| next_addr := next_addr w; compile_log := t :: compile_log w |}.

(** [PatternCache]: the two maps guarded by the mutex. *)
Record PatternCache := {
  patterns : gmap string Pattern;
  errors : gmap string error
}.

Definition NewPatternCache : PatternCache :=
  {| patterns := ∅; errors := ∅ |}.

(** [PatternCache.Clear]. *)
Definition PatternCache_Clear (c : PatternCache) : PatternCache :=
  {| patterns := ∅; errors := ∅ |}.

(** [PatternCache.Size]. *)
Definition PatternCache_Size (c : PatternCache) : nat := size (patterns c).

Section Compilers.

(** The two external compilers, [glob.Compile(pattern, '/')] of
    gobwas/glob and [regexp.Compile(pattern)] of the standard library:
    the matching function of the compiled object, or the error. *)
Variable glob_Compile : string -> (string -> bool) + error.
Variable regexp_Compile : string -> (string -> bool) + error.

Definition NewGlobPattern (pattern : string) (w : World) : (Pattern + error) * World :=
  match glob_Compile pattern with
  | inr err => (inr err, w)
  | inl compiled =>
      let '(a, w') := alloc w in
      (inl {| pat_addr := a; pat_type := PatternTypeGlob;
              pat_pattern := pattern; pat_compiled := compiled |}, w')
  end.

Definition NewRegexPattern (pattern : string) (w : World) : (Pattern + error) * World :=
  match regexp_Compile pattern with
  | inr err => (inr err, w)
  | inl compiled =>
      let '(a, w') := alloc w in
      (inl {| pat_addr := a; pat_type := PatternTypeRegex;
              pat_pattern := pattern; pat_compiled := compiled |}, w')
  end.

Definition CompilePattern (pattern : string) (w : World) : (Pattern + error) * World :=
  let w := log_compile pattern w in
  match DetectPatternType pattern with
  | PatternTypeRegex => NewRegexPattern pattern w
  | PatternTypeGlob => NewGlobPattern pattern w
  end.

(** [PatternCache.Get].  The read-locked fast path and the re-check under
    the write lock perform the same two lookups; run without
    interleaving, the second pair sees what the first saw. *)
Definition PatternCache_Get (patternStr : string) (c : PatternCache) (w : World)
  : (Pattern + error) * PatternCache * World :=
  match patterns c !! patternStr with
  | Some p => (inl p, c, w)
  | None =>
      match errors c !! patternStr with
      | Some err => (inr err, c, w)
      | None =>
          match patterns c !! patternStr with
          | Some p => (inl p, c, w)
          | None =>
              match errors c !! patternStr with
              | Some err => (inr err, c, w)
              | None =>
                  match CompilePattern patternStr w with
                  | (inr err, w') =>
                      (inr err,
                       {| patterns := patterns c;
                          errors := <[patternStr := err]> (errors c) |}, w')
                  | (inl pattern, w') =>
                      (inl pattern,
                       {| patterns := <[patternStr := pattern]> (patterns c);
                          errors := errors c |}, w')
                  end
              end
          end
      end
  end.

(** A run of lookups on one cache, in order. *)
Fixpoint get_all (ts : list string) (c : PatternCache) (w : World)
  : PatternCache * World :=
  match ts with
  | [] => (c, w)
  | t :: ts' =>
      let '(_, c', w') := PatternCache_Get t c w in get_all ts' c' w'
  end.

End Compilers.

(** ** Contexts, rules, results *)

(** Modelled from the spec: [hook.Context] of package pkg/hook, which is
    not among the sources.  The rule engine reads the tool name and the
    event type through their [String()] ([hc_ToolName], [hc_EventType]) and
    the file path, command and content of the tool input through the three
    getters below. *)
Record HookContext := {
  hc_EventType : string;
  hc_ToolName : string;
  hc_FilePath : string;
  hc_Command : string;
  hc_Content : string
}.

(** Modelled from the spec: the getter of [hook.Context] for the file path
    of the tool input. *)
Definition GetFilePath (c : HookContext) : string := hc_FilePath c.

(** Modelled from the spec: the getter of [hook.Context] for the command
    of the tool input. *)
Definition GetCommand (c : HookContext) : string := hc_Command c.

(** Modelled from the spec: the getter of [hook.Context] for the content
    of the tool input. *)
Definition GetContent (c : HookContext) : string := hc_Content c.

(** Modelled from the spec: [GitContext] of types.go, which is not among
    the sources; the fields are the ones the matchers read. *)
Record GitContext := {
  gc_RepoRoot : string;
  gc_Remote : string;
  gc_Branch : string
}.

(** Modelled from the spec: [FileContext] of types.go. *)
Record FileContext := {
  fc_Path : string;
  fc_Content : string
}.

(** Modelled from the spec: [MatchContext] of types.go, with the fields
    the matchers read; the three context pointers may be nil. *)
Record MatchContext := {
  mc_ValidatorType : string;
  mc_HookContext : option HookContext;
  mc_GitContext : option GitContext;
  mc_FileContext : option FileContext;
  mc_Command : string
}.

(** Modelled from the spec: the [ValidatorType] constants of types.go, a
    string type; ["*"] is the universal wildcard and ["git.*"] the wildcard
    of the git category. *)
Definition ValidatorAll : string := "*".
Definition ValidatorGitAll : string := "git.*".
Definition ValidatorGitPush : string := "git.push".
Definition ValidatorGitCommit : string := "git.commit".
Definition ValidatorFileMarkdown : string := "file.markdown".

(** Modelled from the spec: [ActionType] of types.go, one of block, warn
    and allow. *)
Inductive ActionType := ActionBlock | ActionWarn | ActionAllow.

(** Modelled from the spec: [RuleMatch] of types.go, the condition fields
    that [BuildMatcher] reads. *)
Record RuleMatch := {
  rm_ValidatorType : string;
  rm_RepoPattern : string;
  rm_Remote : string;
  rm_BranchPattern : string;
  rm_FilePattern : string;
  rm_ContentPattern : string;
  rm_CommandPattern : string;
  rm_ToolType : string;
  rm_EventType : string
}.

(** Modelled from the spec: [RuleAction] of types.go. *)
Record RuleAction := {
  ra_Type : ActionType;
  ra_Message : string;
  ra_Reference : string
}.

(** Modelled from the spec: [Rule] of types.go; [Match] and [Action] are
    pointers that may be nil, [Priority] is an [int], which is only
    compared. *)
Record Rule := {
  r_Name : string;
  r_Description : string;
  r_Enabled : bool;
  r_Priority : Z;
  r_Match : option RuleMatch;
  r_Action : option RuleAction
}.

(** Modelled from the spec: [RuleResult] of types.go, with the fields
    [Evaluate] sets. *)
Record RuleResult := {
  res_Matched : bool;
  res_Rule : option Rule;
  res_Action : ActionType;
  res_Message : string;
  res_Reference : string
}.

(** ** The matcher algebra *)

(** [CompositeOp] is an [int]; the three named values are 0, 1 and 2. *)
Definition CompositeOp := nat.
Definition CompositeOpAND : CompositeOp := 0%nat.
Definition CompositeOpOR : CompositeOp := 1%nat.
Definition CompositeOpNOT : CompositeOp := 2%nat.

(** The implementations of the [Matcher] interface (the interface itself,
    [Match] and [Name], is declared in types.go). *)
#[warnings="-register-all"]
Inductive Matcher :=
| RepoPatternMatcher (pattern : Pattern)
| RemoteMatcher (remote : string)
| BranchPatternMatcher (pattern : Pattern)
| FilePatternMatcher (pattern : Pattern)
| ContentPatternMatcher (pattern : Pattern)
| CommandPatternMatcher (pattern : Pattern)
| ValidatorTypeMatcher (validatorType : string)
| ToolTypeMatcher (toolType : string)
| EventTypeMatcher (eventType : string)
| CompositeMatcher (matchers : list Matcher) (op : CompositeOp)
| AlwaysMatcher
| NeverMatcher.

Definition NewRemoteMatcher (remote : string) : Matcher := RemoteMatcher remote.
Definition NewValidatorTypeMatcher (validatorType : string) : Matcher :=
  ValidatorTypeMatcher validatorType.
Definition NewToolTypeMatcher (toolType : string) : Matcher := ToolTypeMatcher toolType.
Definition NewEventTypeMatcher (eventType : string) : Matcher := EventTypeMatcher eventType.
Definition NewAndMatcher (matchers : list Matcher) : Matcher :=
  CompositeMatcher matchers CompositeOpAND.
Definition NewOrMatcher (matchers : list Matcher) : Matcher :=
  CompositeMatcher matchers CompositeOpOR.
Definition NewNotMatcher (matcher : Matcher) : Matcher :=
  CompositeMatcher [matcher] CompositeOpNOT.

(** The leaf [Match] methods.  The argument is the [*MatchContext]; every
    field access on a nil context panics, which is the result [None]. *)

Definition RepoPatternMatcher_Match (pattern : Pattern) (ctx : option MatchContext)
  : option bool :=
  match ctx with
  | None => None
  | Some c =>
      match mc_GitContext c with
      | None => Some false
      | Some g =>
          if String.eqb (gc_RepoRoot g) EmptyString then Some false
          else Some (Pattern_Match pattern (gc_RepoRoot g))
      end
  end.

Definition RemoteMatcher_Match (remote : string) (ctx : option MatchContext)
  : option bool :=
  match ctx with
  | None => None
  | Some c =>
      match mc_GitContext c with
      | None => Some false
      | Some g => Some (String.eqb (gc_Remote g) remote)
      end
  end.

Definition BranchPatternMatcher_Match (pattern : Pattern) (ctx : option MatchContext)
  : option bool :=
  match ctx with
  | None => None
  | Some c =>
      match mc_GitContext c with
      | None => Some false
      | Some g =>
          if String.eqb (gc_Branch g) EmptyString then Some false
          else Some (Pattern_Match pattern (gc_Branch g))
      end
  end.

Definition FilePatternMatcher_Match (pattern : Pattern) (ctx : option MatchContext)
  : option bool :=
  match ctx with
  | None => None
  | Some c =>
      let fallback :=
        match mc_HookContext c with
        | Some h => Some (Pattern_Match pattern (GetFilePath h))
        | None => Some false
        end in
      match mc_FileContext c with
      | None => fallback
      | Some f =>
          if String.eqb (fc_Path f) EmptyString then fallback
          else Some (Pattern_Match pattern (fc_Path f))
      end
  end.

Definition ContentPatternMatcher_Match (pattern : Pattern) (ctx : option MatchContext)
  : option bool :=
  match ctx with
  | None => None
  | Some c =>
      let fallback :=
        match mc_HookContext c with
        | Some h => Some (Pattern_Match pattern (GetContent h))
        | None => Some false
        end in
      match mc_FileContext c with
      | None => fallback
      | Some f =>
          if String.eqb (fc_Content f) EmptyString then fallback
          else Some (Pattern_Match pattern (fc_Content f))
      end
  end.

Definition CommandPatternMatcher_Match (pattern : Pattern) (ctx : option MatchContext)
  : option bool :=
  match ctx with
  | None => None
  | Some c =>
      if negb (String.eqb (mc_Command c) EmptyString)
      then Some (Pattern_Match pattern (mc_Command c))
      else
        match mc_HookContext c with
        | Some h => Some (Pattern_Match pattern (GetCommand h))
        | None => Some false
        end
  end.

Definition ValidatorTypeMatcher_Match (validatorType : string) (ctx : option MatchContext)
  : option bool :=
  if String.eqb validatorType ValidatorAll then Some true
  else
    match ctx with
    | None => None
    | Some c =>
        if String.eqb (mc_ValidatorType c) EmptyString then Some false
        else if String.eqb (mc_ValidatorType c) validatorType then Some true
        else
          let pattern := validatorType in
          let target := mc_ValidatorType c in
          match GoStrings.CutSuffix pattern ".*" with
          | (before, true) =>
              let prefix := before in
              Some (GoStrings.HasPrefix target (String.append prefix "."))
          | (_, false) => Some false
          end
    end.

Definition ToolTypeMatcher_Match (toolType : string) (ctx : option MatchContext)
  : option bool :=
  match ctx with
  | None => None
  | Some c =>
      match mc_HookContext c with
      | None => Some false
      | Some h => Some (GoStrings.EqualFold (hc_ToolName h) toolType)
      end
  end.

Definition EventTypeMatcher_Match (eventType : string) (ctx : option MatchContext)
  : option bool :=
  match ctx with
  | None => None
  | Some c =>
      match mc_HookContext c with
      | None => Some false
      | Some h => Some (GoStrings.EqualFold (hc_EventType h) eventType)
      end
  end.

(** The loops of [CompositeMatcher.Match] over the children, [run] being
    [matcher.Match(ctx)]. *)
Section CompositeLoops.

Variable run : Matcher -> option bool.

Fixpoint and_loop (ms : list Matcher) : option bool :=
  match ms with
  | [] => Some true
  | matcher :: ms' =>
      match run matcher with
      | None => None
      | Some b => if negb b then Some false else and_loop ms'
      end
  end.

Fixpoint or_loop (ms : list Matcher) : option bool :=
  match ms with
  | [] => Some false
  | matcher :: ms' =>
      match run matcher with
      | None => None
      | Some b => if b then Some true else or_loop ms'
      end
  end.

(** [!m.matchers[0].Match(ctx)]; indexing an empty slice panics. *)
Definition not_first (ms : list Matcher) : option bool :=
  match ms with
  | matcher :: _ =>
      match run matcher with
      | None => None
      | Some b => Some (negb b)
      end
  | [] => None
  end.

End CompositeLoops.

(** [Matcher.Match], dispatching on the implementation. *)
Fixpoint Match (m : Matcher) (ctx : option MatchContext) {struct m} : option bool :=
  match m with
  | RepoPatternMatcher p => RepoPatternMatcher_Match p ctx
  | RemoteMatcher r => RemoteMatcher_Match r ctx
  | BranchPatternMatcher p => BranchPatternMatcher_Match p ctx
  | FilePatternMatcher p => FilePatternMatcher_Match p ctx
  | ContentPatternMatcher p => ContentPatternMatcher_Match p ctx
  | CommandPatternMatcher p => CommandPatternMatcher_Match p ctx
  | ValidatorTypeMatcher v => ValidatorTypeMatcher_Match v ctx
  | ToolTypeMatcher t => ToolTypeMatcher_Match t ctx
  | EventTypeMatcher e => EventTypeMatcher_Match e ctx
  | CompositeMatcher matchers op =>
      if (length matchers =? 0)%nat then Some true
      else
        match op with
        | 0%nat => and_loop (fun matcher => Match matcher ctx) matchers
        | 1%nat => or_loop (fun matcher => Match matcher ctx) matchers
        | 2%nat => not_first (fun matcher => Match matcher ctx) matchers
        | _ => Some false
        end
  | AlwaysMatcher => Some true
  | NeverMatcher => Some false
  end.

(** The leaf matchers: everything but the composites and the two constant
    matchers. *)
Definition is_leaf (m : Matcher) : bool :=
  match m with
  | CompositeMatcher _ _ | AlwaysMatcher | NeverMatcher => false
  | _ => true
  end.

(** The package-level state: [defaultCache] and the compiler's world. *)
Record Env := {
  defaultCache : PatternCache;
  world : World
}.

Record matcherBuilder := {
  b_matchers : list Matcher;
  b_err : option error
}.

(** [matcherBuilder.addSimple]. *)
Definition addSimple (b : matcherBuilder) (m : Matcher) : matcherBuilder :=
  match b_err b with
  | Some _ => b
  | None => {| b_matchers := b_matchers b ++ [m]; b_err := b_err b |}
  end.

(** [matcherBuilder.addPatternMatcher]. *)
Definition addPatternMatcher (b : matcherBuilder) (pattern : string)
    (factory : string -> Env -> (Matcher + error) * Env) (env : Env)
  : matcherBuilder * Env :=
  match b_err b with
  | Some _ => (b, env)
  | None =>
      if String.eqb pattern EmptyString then (b, env)
      else
        match factory pattern env with
        | (inr err, env') => ({| b_matchers := b_matchers b; b_err := Some err |}, env')
        | (inl m, env') => ({| b_matchers := b_matchers b ++ [m]; b_err := b_err b |}, env')
        end
  end.

(** [matcherBuilder.result]: the error, or the matcher, which is nil
    ([None]) when no condition was given. *)
Definition result (b : matcherBuilder) : option Matcher + error :=
  match b_err b with
  | Some err => inr err
  | None =>
      match b_matchers b with
      | [] => inl None
      | [m] => inl (Some m)
      | ms => inl (Some (NewAndMatcher ms))
      end
  end.

(** [CompiledRule]: the rule and its matcher. *)
Record CompiledRule := {
  cr_Rule : Rule;
  cr_Matcher : Matcher
}.

(** [Registry]: the slice behind the mutex. *)
Record Registry := {
  rules : list CompiledRule
}.

Definition NewRegistry : Registry := {| rules := [] |}.

(** The comparison function handed to [slices.SortFunc]:
    [cmp.Compare(b.Priority, a.Priority)], then
    [cmp.Compare(a.Name, b.Name)]. *)
Definition compareRules (a b : CompiledRule) : comparison :=
  match Z.compare (r_Priority (cr_Rule b)) (r_Priority (cr_Rule a)) with
  | Eq => String.compare (r_Name (cr_Rule a)) (r_Name (cr_Rule b))
  | c => c
  end.

(** [a] may stand before [b] in a sorted registry. *)
Definition rule_le (a b : CompiledRule) : Prop := compareRules a b <> Gt.

#[global] Instance rule_le_dec : RelDecision rule_le.
Proof.
  intros a b. unfold rule_le.
  destruct (compareRules a b); [left | left | right]; congruence.
Defined.

(** [Registry.sortRulesLocked].  [slices.SortFunc] is modelled by a merge
    sort on [compareRules]; on rules with pairwise distinct names every
    sorting algorithm returns this list ([sorted_permutation_unique]). *)
Definition sortRulesLocked (r : Registry) : Registry :=
  {| rules := merge_sort rule_le (rules r) |}.

(** [Registry.Remove]: the first entry with that name is deleted. *)
Definition Remove (name : string) (r : Registry) : bool * Registry :=
  match list_find (fun rule => r_Name (cr_Rule rule) = name) (rules r) with
  | Some (i, _) => (true, {| rules := delete i (rules r) |})
  | None => (false, r)
  end.

(** [Registry.Get]. *)
Definition Get (name : string) (r : Registry) : option CompiledRule :=
  snd <$> list_find (fun rule => r_Name (cr_Rule rule) = name) (rules r).

(** [Registry.GetAll]. *)
Definition GetAll (r : Registry) : list CompiledRule := rules r.

(** [Registry.GetEnabled]. *)
Definition GetEnabled (r : Registry) : list CompiledRule :=
  filter (fun rule => Is_true (r_Enabled (cr_Rule rule))) (rules r).

(** [Registry.Size]. *)
Definition Size (r : Registry) : nat := length (rules r).

(** [Registry.Clear]. *)
Definition Clear (r : Registry) : Registry := {| rules := [] |}.

(** The first loop of [Registry.Merge]: [existing[rule.Rule.Name] = i]. *)
Fixpoint index_names (l : list CompiledRule) (i : nat) (existing : gmap string nat)
  : gmap string nat :=
  match l with
  | [] => existing
  | rule :: l' => index_names l' (S i) (<[r_Name (cr_Rule rule) := i]> existing)
  end.

(** The second loop of [Registry.Merge]. *)
Fixpoint merge_loop (sourceRules : list CompiledRule)
    (rs : list CompiledRule) (existing : gmap string nat) : list CompiledRule :=
  match sourceRules with
  | [] => rs
  | srcRule :: rest =>
      match existing !! r_Name (cr_Rule srcRule) with
      | Some idx => merge_loop rest (<[idx := srcRule]> rs) existing
      | None =>
          let rs' := rs ++ [srcRule] in
          merge_loop rest rs'
            (<[r_Name (cr_Rule srcRule) := (length rs' - 1)%nat]> existing)
      end
  end.

(** [Registry.Merge]; [source] is the state of the source registry when
    its rules are copied, [None] for a nil pointer. *)
Definition Merge (source : option Registry) (r : Registry) : Registry :=
  match source with
  | None => r
  | Some src =>
      let sourceRules := rules src in
      let existing := index_names (rules r) 0 ∅ in
      sortRulesLocked {| rules := merge_loop sourceRules (rules r) existing |}
  end.

Section Registration.

Variable glob_Compile : string -> (string -> bool) + error.
Variable regexp_Compile : string -> (string -> bool) + error.

(** [GetCachedPattern]: [defaultCache.Get]. *)
Definition GetCachedPattern (pattern : string) (env : Env) : (Pattern + error) * Env :=
  let '(r, c, w) :=
    PatternCache_Get glob_Compile regexp_Compile pattern (defaultCache env) (world env) in
  (r, {| defaultCache := c; world := w |}).

(** [ClearPatternCache]. *)
Definition ClearPatternCache (env : Env) : Env :=
  {| defaultCache := PatternCache_Clear (defaultCache env); world := world env |}.

Definition cached_matcher (mk : Pattern -> Matcher) (patternStr : string) (env : Env)
  : (Matcher + error) * Env :=
  match GetCachedPattern patternStr env with
  | (inr err, env') => (inr err, env')
  | (inl pattern, env') => (inl (mk pattern), env')
  end.

Definition NewRepoPatternMatcher := cached_matcher RepoPatternMatcher.
Definition NewBranchPatternMatcher := cached_matcher BranchPatternMatcher.
Definition NewFilePatternMatcher := cached_matcher FilePatternMatcher.
Definition NewCommandPatternMatcher := cached_matcher CommandPatternMatcher.

(** [NewContentPatternMatcher]: always a regexp, never cached. *)
Definition NewContentPatternMatcher (patternStr : string) (env : Env)
  : (Matcher + error) * Env :=
  match NewRegexPattern regexp_Compile patternStr (world env) with
  | (inr err, w') => (inr err, {| defaultCache := defaultCache env; world := w' |})
  | (inl pattern, w') =>
      (inl (ContentPatternMatcher pattern),
       {| defaultCache := defaultCache env; world := w' |})
  end.

(** [BuildMatcher]. *)
Definition BuildMatcher (match_ : option RuleMatch) (env : Env)
  : (option Matcher + error) * Env :=
  match match_ with
  | None => (inl None, env)
  | Some m =>
      let b := {| b_matchers := []; b_err := None |} in
      let b := if negb (String.eqb (rm_ValidatorType m) EmptyString)
               then addSimple b (NewValidatorTypeMatcher (rm_ValidatorType m)) else b in
      let b := if negb (String.eqb (rm_Remote m) EmptyString)
               then addSimple b (NewRemoteMatcher (rm_Remote m)) else b in
      let b := if negb (String.eqb (rm_ToolType m) EmptyString)
               then addSimple b (NewToolTypeMatcher (rm_ToolType m)) else b in
      let b := if negb (String.eqb (rm_EventType m) EmptyString)
               then addSimple b (NewEventTypeMatcher (rm_EventType m)) else b in
      let '(b, env) := addPatternMatcher b (rm_RepoPattern m) NewRepoPatternMatcher env in
      let '(b, env) := addPatternMatcher b (rm_BranchPattern m) NewBranchPatternMatcher env in
      let '(b, env) := addPatternMatcher b (rm_FilePattern m) NewFilePatternMatcher env in
      let '(b, env) := addPatternMatcher b (rm_ContentPattern m) NewContentPatternMatcher env in
      let '(b, env) := addPatternMatcher b (rm_CommandPattern m) NewCommandPatternMatcher env in
      (result b, env)
  end.

(** [Registry.Add]: the returned error is [None] for nil. *)
Definition Add (rule : option Rule) (r : Registry) (env : Env)
  : option error * Registry * Env :=
  match rule with
  | None => (Some "rule cannot be nil", r, env)
  | Some rule =>
      if String.eqb (r_Name rule) EmptyString then (Some "rule name cannot be empty", r, env)
      else
        match r_Action rule with
        | None => (Some "rule action cannot be nil", r, env)
        | Some _ =>
            match BuildMatcher (r_Match rule) env with
            | (inr err, env') =>
                (Some (GoStrings.Wrap err "failed to compile rule matcher"), r, env')
            | (inl matcher, env') =>
                let matcher := match matcher with
                               | None => AlwaysMatcher
                               | Some m => m
                               end in
                let compiled := {| cr_Rule := rule; cr_Matcher := matcher |} in
                match list_find (fun existing => r_Name (cr_Rule existing) = r_Name rule)
                                (rules r) with
                | Some (i, _) =>
                    (None, sortRulesLocked {| rules := <[i := compiled]> (rules r) |}, env')
                | None =>
                    (None, sortRulesLocked {| rules := rules r ++ [compiled] |}, env')
                end
            end
        end
  end.

(** [Registry.AddAll]: stops at the first error. *)
Fixpoint AddAll (rs : list (option Rule)) (r : Registry) (env : Env)
  : option error * Registry * Env :=
  match rs with
  | [] => (None, r, env)
  | rule :: rs' =>
      match Add rule r env with
      | (Some err, r', env') => (Some err, r', env')
      | (None, r', env') => AddAll rs' r' env'
      end
  end.

(** One operation on a registry. *)
Inductive Op :=
| OpAdd (rule : option Rule)
| OpRemove (name : string)
| OpMerge (source : option Registry)
| OpClear.

Definition apply_op (op : Op) (s : Registry * Env) : Registry * Env :=
  match op with
  | OpAdd rule => let '(_, r, env) := Add rule (fst s) (snd s) in (r, env)
  | OpRemove name => (snd (Remove name (fst s)), snd s)
  | OpMerge source => (Merge source (fst s), snd s)
  | OpClear => (Clear (fst s), snd s)
  end.

(** A sequence of operations, oldest first. *)
Definition run_ops (ops : list Op) (s : Registry * Env) : Registry * Env :=
  fold_left (fun s op => apply_op op s) ops s.

End Registration.

(** ** The evaluator *)

(** [Evaluator].  [e_registry] is what the [*Registry] field points to when
    a method runs, [None] for a nil pointer. *)
Record Evaluator := {
  e_registry : option Registry;
  e_stopOnFirstMatch : bool;
  e_defaultAction : ActionType
}.

Definition EvaluatorOption := Evaluator -> Evaluator.

Definition WithStopOnFirstMatch (stop : bool) : EvaluatorOption :=
  fun e => {| e_registry := e_registry e;
              e_stopOnFirstMatch := stop;
              e_defaultAction := e_defaultAction e |}.

Definition WithDefaultAction (action : ActionType) : EvaluatorOption :=
  fun e => {| e_registry := e_registry e;
              e_stopOnFirstMatch := e_stopOnFirstMatch e;
              e_defaultAction := action |}.

Definition NewEvaluator (registry : option Registry) (opts : list EvaluatorOption)
  : Evaluator :=
  fold_left (fun e opt => opt e) opts
    {| e_registry := registry; e_stopOnFirstMatch := true;
       e_defaultAction := ActionAllow |}.

(** [&RuleResult{Matched: false, Action: e.defaultAction}]: the other
    fields are zero. *)
Definition unmatched (e : Evaluator) : RuleResult :=
  {| res_Matched := false; res_Rule := None; res_Action := e_defaultAction e;
     res_Message := EmptyString; res_Reference := EmptyString |}.

(** The result literal built for a matching rule; reading the fields of a
    nil [Action] panics. *)
Definition matched_result (compiled : CompiledRule) : option RuleResult :=
  match r_Action (cr_Rule compiled) with
  | None => None
  | Some a =>
      Some {| res_Matched := true; res_Rule := Some (cr_Rule compiled);
              res_Action := ra_Type a; res_Message := ra_Message a;
              res_Reference := ra_Reference a |}
  end.

(** The [for _, compiled := range rules] loop of [Evaluate]. *)
Fixpoint Evaluate_loop (e : Evaluator) (ctx : option MatchContext)
    (rs : list CompiledRule) : option RuleResult :=
  match rs with
  | [] => Some (unmatched e)
  | compiled :: rs' =>
      match Match (cr_Matcher compiled) ctx with
      | None => None
      | Some true => matched_result compiled
      | Some false => Evaluate_loop e ctx rs'
      end
  end.

(** [Evaluator.Evaluate]; [None] is a panic. *)
Definition Evaluate (e : Evaluator) (ctx : option MatchContext) : option RuleResult :=
  match e_registry e with
  | None => Some (unmatched e)
  | Some registry =>
      let rules := GetEnabled registry in
      if (length rules =? 0)%nat then Some (unmatched e)
      else Evaluate_loop e ctx rules
  end.

Fixpoint EvaluateAll_loop (ctx : option MatchContext) (rs : list CompiledRule)
    (results : list RuleResult) : option (list RuleResult) :=
  match rs with
  | [] => Some results
  | compiled :: rs' =>
      match Match (cr_Matcher compiled) ctx with
      | None => None
      | Some true =>
          match matched_result compiled with
          | None => None
          | Some res => EvaluateAll_loop ctx rs' (results ++ [res])
          end
      | Some false => EvaluateAll_loop ctx rs' results
      end
  end.

(** [Evaluator.EvaluateAll]; the nil slice is the empty list. *)
Definition EvaluateAll (e : Evaluator) (ctx : option MatchContext)
  : option (list RuleResult) :=
  match e_registry e with
  | None => Some []
  | Some registry =>
      let rules := GetEnabled registry in
      if (length rules =? 0)%nat then Some []
      else EvaluateAll_loop ctx rules []
  end.

Fixpoint FindMatchingRules_loop (ctx : option MatchContext) (rs : list CompiledRule)
    (matching : list Rule) : option (list Rule) :=
  match rs with
  | [] => Some matching
  | compiled :: rs' =>
      match Match (cr_Matcher compiled) ctx with
      | None => None
      | Some true => FindMatchingRules_loop ctx rs' (matching ++ [cr_Rule compiled])
      | Some false => FindMatchingRules_loop ctx rs' matching
      end
  end.

(** [Evaluator.FindMatchingRules]. *)
Definition FindMatchingRules (e : Evaluator) (ctx : option MatchContext)
  : option (list Rule) :=
  match e_registry e with
  | None => Some []
  | Some registry =>
      let rules := GetEnabled registry in
      if (length rules =? 0)%nat then Some []
      else FindMatchingRules_loop ctx rules []
  end.

Fixpoint FilterByValidator_loop (ctx : option MatchContext) (rs : list CompiledRule)
    (filtered : list CompiledRule) : option (list CompiledRule) :=
  match rs with
  | [] => Some filtered
  | compiled :: rs' =>
      match r_Match (cr_Rule compiled) with
      | None => FilterByValidator_loop ctx rs' (filtered ++ [compiled])
      | Some m =>
          if String.eqb (rm_ValidatorType m) EmptyString
          then FilterByValidator_loop ctx rs' (filtered ++ [compiled])
          else
            let matcher := NewValidatorTypeMatcher (rm_ValidatorType m) in
            match Match matcher ctx with
            | None => None
            | Some true => FilterByValidator_loop ctx rs' (filtered ++ [compiled])
            | Some false => FilterByValidator_loop ctx rs' filtered
            end
      end
  end.

(** The minimal context [&MatchContext{ValidatorType: validatorType}]. *)
Definition validator_context (validatorType : string) : MatchContext :=
  {| mc_ValidatorType := validatorType; mc_HookContext := None;
     mc_GitContext := None; mc_FileContext := None; mc_Command := EmptyString |}.

(** [Evaluator.FilterByValidator]. *)
Definition FilterByValidator (e : Evaluator) (validatorType : string)
  : option (list CompiledRule) :=
  match e_registry e with
  | None => Some []
  | Some registry =>
      let rules := GetEnabled registry in
      if (length rules =? 0)%nat then Some []
      else
        let ctx := Some (validator_context validatorType) in
        FilterByValidator_loop ctx rules []
  end.

(** ** Concrete inputs *)

(** [&MatchContext{}]. *)
Definition empty_context : MatchContext :=
  {| mc_ValidatorType := EmptyString; mc_HookContext := None;
     mc_GitContext := None; mc_FileContext := None; mc_Command := EmptyString |}.

(** [&hook.Context{}]. *)
Definition empty_hook : HookContext :=
  {| hc_EventType := EmptyString; hc_ToolName := EmptyString;
     hc_FilePath := EmptyString; hc_Command := EmptyString;
     hc_Content := EmptyString |}.

(** [&MatchContext{HookContext: &hook.Context{}}]: a hook context is there,
    and it carries no file path, no command and no content. *)
Definition hook_only_context : MatchContext :=
  {| mc_ValidatorType := EmptyString; mc_HookContext := Some empty_hook;
     mc_GitContext := None; mc_FileContext := None; mc_Command := EmptyString |}.

(** The compiled regular expression [.*]: it matches every string, the
    empty string too. *)
Definition dot_star : Pattern :=
  {| pat_addr := 0; pat_type := PatternTypeRegex; pat_pattern := ".*";
     pat_compiled := fun _ => true |}.

(** The text is in one of the two maps of the cache. *)
Definition is_cached (c : PatternCache) (t : string) : Prop :=
  is_Some (patterns c !! t) \/ is_Some (errors c !! t).

(** The cache answers [r] for the text without compiling: a pattern in the
    first map, or no pattern and an error in the second. *)
Definition cached_as (c : PatternCache) (t : string) (r : Pattern + error) : Prop :=
  match r with
  | inl p => patterns c !! t = Some p
  | inr err => patterns c !! t = None /\ errors c !! t = Some err
  end.

(** Stand-ins for the two external compilers, to run the cache on concrete
    texts: a text is refused when it opens a bracket it does not close, and
    a compiled text matches the strings that contain it.  The runs that use
    it for both compilers depend on which texts it refuses, not on what a
    compiled glob matches. *)
Definition toy_Compile (pattern : string) : (string -> bool) + error :=
  if GoStrings.Contains pattern "[" && negb (GoStrings.Contains pattern "]")
  then inr "missing closing bracket"
  else inl (fun s => GoStrings.Contains s pattern).

(** [glob.Compile] on a text without glob metacharacters: the compiled glob
    matches the text itself and no other string. *)
Definition literal_glob_Compile (pattern : string) : (string -> bool) + error :=
  inl (fun s => String.eqb s pattern).

(** [regexp.Compile] on a text without regexp metacharacters:
    [MatchString] finds the text anywhere in the string. *)
Definition literal_regexp_Compile (pattern : string) : (string -> bool) + error :=
  inl (fun s => GoStrings.Contains s pattern).

Definition fresh_world : World := {| next_addr := 0; compile_log := [] |}.

(** The names of the stored rules, in order. *)
Definition rule_names (l : list CompiledRule) : list string :=
  (fun rule => r_Name (cr_Rule rule)) <$> l.

(** The registry invariant: names are unique, and the rules stand in the
    order of [compareRules]. *)
Definition registry_sorted (r : Registry) : Prop :=
  NoDup (rule_names (rules r)) /\ StronglySorted rule_le (rules r).

(** What [Add] checks before it stores a rule: the action is not nil. *)
Definition has_action (rule : CompiledRule) : Prop :=
  is_Some (r_Action (cr_Rule rule)).

(** A registry as [Add] builds it. *)
Definition registry_wf (r : Registry) : Prop :=
  registry_sorted r /\ Forall has_action (rules r).

(** A rule without conditions. *)
Definition plain_rule (name : string) (priority : Z) (enabled : bool)
    (action : ActionType) (message : string) : Rule :=
  {| r_Name := name; r_Description := EmptyString; r_Enabled := enabled;
     r_Priority := priority; r_Match := None;
     r_Action := Some {| ra_Type := action; ra_Message := message;
                         ra_Reference := EmptyString |} |}.

(** A rule whose only condition is a validator type. *)
Definition validator_rule (name : string) (priority : Z) (validatorType : string) : Rule :=
  {| r_Name := name; r_Description := EmptyString; r_Enabled := true;
     r_Priority := priority;
     r_Match := Some {| rm_ValidatorType := validatorType;
                        rm_RepoPattern := EmptyString; rm_Remote := EmptyString;
                        rm_BranchPattern := EmptyString; rm_FilePattern := EmptyString;
                        rm_ContentPattern := EmptyString;
                        rm_CommandPattern := EmptyString;
                        rm_ToolType := EmptyString; rm_EventType := EmptyString |};
     r_Action := Some {| ra_Type := ActionBlock; ra_Message := EmptyString;
                         ra_Reference := EmptyString |} |}.

Definition fresh_env : Env :=
  {| defaultCache := NewPatternCache; world := fresh_world |}.

(** The map [existing] of [Merge] holds exactly the positions of the names
    in the slice. *)
Definition index_ok (rs : list CompiledRule) (existing : gmap string nat) : Prop :=
  forall n i, existing !! n = Some i <-> rule_names rs !! i = Some n.

(** The rule's matcher returns true on the context. *)
Definition rule_matches (c : MatchContext) (compiled : CompiledRule) : bool :=
  match Match (cr_Matcher compiled) (Some c) with
  | Some true => true
  | _ => false
  end.

(** The rule applies to the validator type: it has no validator type
    condition, or the validator-type matcher of its condition matches the
    type. *)
Definition validator_applies (validatorType : string) (compiled : CompiledRule) : bool :=
  match r_Match (cr_Rule compiled) with
  | None => true
  | Some m =>
      String.eqb (rm_ValidatorType m) EmptyString ||
      match Match (NewValidatorTypeMatcher (rm_ValidatorType m))
                  (Some (validator_context validatorType)) with
      | Some true => true
      | _ => false
      end
  end.

(** The source of a [Merge] was itself built by [Add]. *)
Definition op_wf (op : Op) : Prop :=
  match op with
  | OpMerge (Some source) => Forall has_action (rules source)
  | _ => True
  end.

(** The registry [NewRegistry] followed by [AddAll] builds from rules that
    carry no pattern (the compilers are not called). *)
Definition registry_of (rs : list Rule) : Registry :=
  snd (fst (AddAll toy_Compile toy_Compile (Some <$> rs) NewRegistry fresh_env)).

(** An evaluator over a registry, with the defaults of [NewEvaluator]. *)
Definition evaluator_of (rs : list Rule) : Evaluator :=
  NewEvaluator (Some (registry_of rs)) [].

(** A rule whose only condition is the remote. *)
Definition remote_rule (name : string) (priority : Z) (remote : string)
    (action : ActionType) (message : string) : Rule :=
  {| r_Name := name; r_Description := EmptyString; r_Enabled := true;
     r_Priority := priority;
     r_Match := Some {| rm_ValidatorType := EmptyString;
                        rm_RepoPattern := EmptyString; rm_Remote := remote;
                        rm_BranchPattern := EmptyString; rm_FilePattern := EmptyString;
                        rm_ContentPattern := EmptyString;
                        rm_CommandPattern := EmptyString;
                        rm_ToolType := EmptyString; rm_EventType := EmptyString |};
     r_Action := Some {| ra_Type := action; ra_Message := message;
                         ra_Reference := EmptyString |} |}.

(** The two rules of the end-to-end example: [R1] blocks pushes to origin,
    [R2] allows everything. *)
Definition R1 : Rule := remote_rule "R1" 100 "origin" ActionBlock "no origin push".
Definition R2 : Rule := plain_rule "R2" 1 true ActionAllow EmptyString.

(** [&MatchContext{GitContext: &GitContext{Remote: remote}}]. *)
Definition remote_context (remote : string) : MatchContext :=
  {| mc_ValidatorType := EmptyString; mc_HookContext := None;
     mc_GitContext := Some {| gc_RepoRoot := EmptyString; gc_Remote := remote;
                              gc_Branch := EmptyString |};
     mc_FileContext := None; mc_Command := EmptyString |}.

(** An enabled and a disabled rule without conditions, and the three rules
    of the filter example. *)
Definition disabled_rule : Rule := plain_rule "off" 0 false ActionBlock EmptyString.
Definition rule_any : Rule := plain_rule "any" 3 true ActionBlock EmptyString.
Definition rule_git : Rule := validator_rule "git" 2 "git.*".
Definition rule_markdown : Rule := validator_rule "markdown" 1 "file.markdown".

(** A rule whose only condition is a repository pattern. *)
Definition repo_rule (name : string) (priority : Z) (repoPattern : string) : Rule :=
  {| r_Name := name; r_Description := EmptyString; r_Enabled := true;
     r_Priority := priority;
     r_Match := Some {| rm_ValidatorType := EmptyString;
                        rm_RepoPattern := repoPattern; rm_Remote := EmptyString;
                        rm_BranchPattern := EmptyString; rm_FilePattern := EmptyString;
                        rm_ContentPattern := EmptyString;
                        rm_CommandPattern := EmptyString;
                        rm_ToolType := EmptyString; rm_EventType := EmptyString |};
     r_Action := Some {| ra_Type := ActionBlock; ra_Message := EmptyString;
                         ra_Reference := EmptyString |} |}.

(** The rules of the sort example. *)
Definition rule_b : Rule := plain_rule "b" 10 true ActionBlock EmptyString.
Definition rule_a : Rule := plain_rule "a" 10 true ActionBlock EmptyString.
Definition rule_c : Rule := plain_rule "c" 20 true ActionBlock EmptyString.

(** ** Proof steps shared by the matcher lemmas *)

(** Case analysis on the test [x == ""] of the goal. *)
Ltac case_empty :=
  match goal with
  | |- context [String.eqb ?x EmptyString] =>
      destruct (String.eqb_spec x EmptyString) as [He|He]
  end.

(** Rewrite with the hypothesis that says the pattern matches. *)
Ltac use_match :=
  match goal with
  | H : Pattern_Match _ _ = true |- _ => now rewrite H
  end.

(** The field is empty, and a hypothesis says it is not. *)
Ltac empty_field :=
  match goal with
  | H : ?x <> EmptyString, E : ?x = EmptyString |- _ => elim (H E)
  | H : ?x <> EmptyString, A : forall f, _ -> _ = EmptyString |- _ =>
      elim H; now apply A
  end.

(** A matcher on a field of the git context: nil context, empty field,
    field given. *)
Ltac git_field_spec c :=
  destruct (mc_GitContext c);
  [ case_empty;
    [ split; [discriminate|]; intros (? & [= <-] & ? & _); empty_field
    | split;
      [ intros [= ?]; eexists; eauto
      | intros (? & [= <-] & _ & ?); use_match ] ]
  | split; [discriminate|]; intros (? & [=] & _) ].

(** A matcher on a field of the file context that falls back to the hook
    context. *)
Ltac file_field_spec c :=
  destruct (mc_FileContext c);
  [ case_empty;
    [ destruct (mc_HookContext c);
      [ split;
        [ intros [= ?]; right; split; [now intros ? [= <-]|]; eexists; eauto
        | intros [(? & [= <-] & ? & _)|(_ & ? & [= <-] & ?)];
          [empty_field | use_match] ]
      | split; [discriminate|];
        intros [(? & [= <-] & ? & _)|(_ & ? & [=] & _)]; empty_field ]
    | split;
      [ intros [= ?]; left; eexists; eauto
      | intros [(? & [= <-] & _ & ?)|(? & _)]; [use_match | empty_field] ] ]
  | destruct (mc_HookContext c);
    [ split;
      [ intros [= ?]; right; split; [discriminate|]; eexists; eauto
      | intros [(? & [=] & _)|(_ & ? & [= <-] & ?)]; use_match ]
    | split; [discriminate|]; intros [(? & [=] & _)|(_ & ? & [=] & _)] ] ].

(** The rules of a list of results, those without a rule left out. *)
Definition result_rules (results : list RuleResult) : list Rule :=
  omap (M := list) res_Rule results.

(** ** Runs of cache operations *)

(** One operation on a pattern cache. *)
Inductive CacheOp :=
| CacheGet (patternStr : string)
| CacheClear.

Section CacheRuns.

Variable glob_Compile : string -> (string -> bool) + error.
Variable regexp_Compile : string -> (string -> bool) + error.

Definition apply_cache_op (op : CacheOp) (s : PatternCache * World)
  : PatternCache * World :=
  match op with
  | CacheGet t =>
      let '(_, c, w) := PatternCache_Get glob_Compile regexp_Compile t (fst s) (snd s) in
      (c, w)
  | CacheClear => (PatternCache_Clear (fst s), snd s)
  end.

(** A sequence of cache operations, oldest first. *)
Definition run_cache_ops (ops : list CacheOp) (s : PatternCache * World)
  : PatternCache * World :=
  fold_left (fun s op => apply_cache_op op s) ops s.

(** What the external compiler that [CompilePattern] picks for the text
    answers. *)
Definition compiler_answer (t : string) : (string -> bool) + error :=
  match DetectPatternType t with
  | PatternTypeRegex => regexp_Compile t
  | PatternTypeGlob => glob_Compile t
  end.

(** The cache holds what the compilers answer: a stored pattern carries its
    key as text, the detected type and the compiled matching function, at
    an address already handed out; a stored error is the compiler's; no
    text is in both maps; and no two texts share an instance. *)
Definition cache_coherent (c : PatternCache) (w : World) : Prop :=
  (forall t p, patterns c !! t = Some p ->
     pat_pattern p = t /\ pat_type p = DetectPatternType t /\
     compiler_answer t = inl (pat_compiled p) /\
     (pat_addr p < next_addr w)%nat /\ errors c !! t = None) /\
  (forall t err, errors c !! t = Some err -> compiler_answer t = inr err) /\
  (forall t1 t2 p1 p2,
     patterns c !! t1 = Some p1 -> patterns c !! t2 = Some p2 ->
     pat_addr p1 = pat_addr p2 -> t1 = t2).

End CacheRuns.

(** ** The steps of [BuildMatcher] *)

(** The matcher [Add] stores for what [BuildMatcher] returned: the matcher
    itself, or [AlwaysMatcher] for nil. *)
Definition or_always (matcher : option Matcher) : Matcher :=
  match matcher with
  | None => AlwaysMatcher
  | Some m => m
  end.

(** The first four steps of [BuildMatcher]: the matchers that need no
    compilation, in the order they are added. *)
Definition simple_matchers (m : RuleMatch) : list Matcher :=
  (if String.eqb (rm_ValidatorType m) EmptyString then []
   else [NewValidatorTypeMatcher (rm_ValidatorType m)]) ++
  (if String.eqb (rm_Remote m) EmptyString then []
   else [NewRemoteMatcher (rm_Remote m)]) ++
  (if String.eqb (rm_ToolType m) EmptyString then []
   else [NewToolTypeMatcher (rm_ToolType m)]) ++
  (if String.eqb (rm_EventType m) EmptyString then []
   else [NewEventTypeMatcher (rm_EventType m)]).

Section BuildSteps.

Variable glob_Compile : string -> (string -> bool) + error.
Variable regexp_Compile : string -> (string -> bool) + error.

(** The five calls of [addPatternMatcher] in [BuildMatcher], in order: the
    pattern text and the factory. *)
Definition pattern_fields (m : RuleMatch)
  : list (string * (string -> Env -> (Matcher + error) * Env)) :=
  [ (rm_RepoPattern m, NewRepoPatternMatcher glob_Compile regexp_Compile);
    (rm_BranchPattern m, NewBranchPatternMatcher glob_Compile regexp_Compile);
    (rm_FilePattern m, NewFilePatternMatcher glob_Compile regexp_Compile);
    (rm_ContentPattern m, NewContentPatternMatcher regexp_Compile);
    (rm_CommandPattern m, NewCommandPatternMatcher glob_Compile regexp_Compile) ].

(** A run of [addPatternMatcher] calls on one builder. *)
Fixpoint add_patterns
    (fields : list (string * (string -> Env -> (Matcher + error) * Env)))
    (b : matcherBuilder) (env : Env) : matcherBuilder * Env :=
  match fields with
  | [] => (b, env)
  | (pattern, factory) :: rest =>
      let '(b', env') := addPatternMatcher b pattern factory env in
      add_patterns rest b' env'
  end.

End BuildSteps.

(** Every pattern the first state has cached, the second has cached too. *)
Definition cache_le (env1 env2 : Env) : Prop :=
  forall t p, patterns (defaultCache env1) !! t = Some p ->
              patterns (defaultCache env2) !! t = Some p.

(** A match block with a repository pattern and a content pattern. *)
Definition repo_content_match (repoPattern contentPattern : string) : RuleMatch :=
  {| rm_ValidatorType := EmptyString;
     rm_RepoPattern := repoPattern; rm_Remote := EmptyString;
     rm_BranchPattern := EmptyString; rm_FilePattern := EmptyString;
     rm_ContentPattern := contentPattern;
     rm_CommandPattern := EmptyString;
     rm_ToolType := EmptyString; rm_EventType := EmptyString |}.

(** A factory of [addPatternMatcher] that leaves the cached patterns in
    place. *)
Definition keeps_cache (factory : string -> Env -> (Matcher + error) * Env) : Prop :=
  forall t env r env', factory t env = (r, env') -> cache_le env env'.

(** What a step of [addPatternMatcher] that did not fail has done, seen from
    the final state [env']: nothing for the empty text, and otherwise the
    matcher [o] comes from the factory, and what the factory left in the
    cache is still there. *)
Definition step_done (env' : Env)
    (step : string * (string -> Env -> (Matcher + error) * Env))
    (o : option Matcher) : Prop :=
  (step.1 = EmptyString /\ o = None) \/
  (step.1 <> EmptyString /\
   exists x ea eb, o = Some x /\ step.2 step.1 ea = (inl x, eb) /\ cache_le eb env').

(** [&MatchContext{GitContext: &GitContext{RepoRoot: repoRoot},
    FileContext: &FileContext{Content: content}}]. *)
Definition repo_content_context (repoRoot content : string) : MatchContext :=
  {| mc_ValidatorType := EmptyString; mc_HookContext := None;
     mc_GitContext := Some {| gc_RepoRoot := repoRoot; gc_Remote := EmptyString;
                              gc_Branch := EmptyString |};
     mc_FileContext := Some {| fc_Path := EmptyString; fc_Content := content |};
     mc_Command := EmptyString |}.

(** ** [MergeRules] *)

(** The comparison function [MergeRules] hands to [slices.SortFunc]:
    [cmp.Compare(b.Priority, a.Priority)], then
    [cmp.Compare(a.Name, b.Name)], on rules. *)
Definition MergeRules_cmp (a b : Rule) : comparison :=
  match Z.compare (r_Priority b) (r_Priority a) with
  | Eq => String.compare (r_Name a) (r_Name b)
  | c => c
  end.

Definition MergeRules_le (a b : Rule) : Prop := MergeRules_cmp a b <> Gt.

#[global] Instance MergeRules_le_dec : RelDecision MergeRules_le.
Proof.
  intros a b. unfold MergeRules_le.
  destruct (MergeRules_cmp a b); [left | left | right]; congruence.
Defined.

(** The loops that fill the map, [merged[rule.Name] = rule] for every rule
    of the slice.  A slice entry is a [*Rule]; reading the name of a nil
    entry panics, which is the result [None]. *)
Fixpoint store_rules (rs : list (option Rule)) (merged : gmap string Rule)
  : option (gmap string Rule) :=
  match rs with
  | [] => Some merged
  | None :: _ => None
  | Some rule :: rs' => store_rules rs' (<[r_Name rule := rule]> merged)
  end.

(** [MergeRules].  [range] is the order in which the loop
    [for _, rule := range merged] visits the values of the map, which Go
    leaves open; [slices.SortFunc] is modelled by a merge sort, as in
    [sortRulesLocked]. *)
Definition MergeRules (range : gmap string Rule -> list Rule)
    (base override : list (option Rule)) : option (list Rule) :=
  match store_rules base ∅ with
  | None => None
  | Some merged =>
      match store_rules override merged with
      | None => None
      | Some merged => Some (merge_sort MergeRules_le (range merged))
      end
  end.

(** The values of the map, in the order of [map_to_list]. *)
Definition map_values (m : gmap string Rule) : list Rule := (map_to_list m).*2.

(** An order of iteration: every value of the map once. *)
Definition range_ok (range : gmap string Rule -> list Rule) : Prop :=
  forall m, range m ≡ₚ map_values m.

(** No rule of the name [n] among the entries. *)
Definition no_rule_named (n : string) (rs : list (option Rule)) : Prop :=
  Forall (fun o => forall r', o = Some r' -> r_Name r' <> n) rs.

(** The rule is the last one of its name in the slice. *)
Definition last_of_name (rule : Rule) (rs : list (option Rule)) : Prop :=
  exists pre post, rs = pre ++ Some rule :: post /\ no_rule_named (r_Name rule) post.

(** ** Registries and their matchers *)

Section Built.

Variable glob_Compile : string -> (string -> bool) + error.
Variable regexp_Compile : string -> (string -> bool) + error.

(** The compiled rule is as [Add] makes it: its matcher is what
    [BuildMatcher] returned for the match block of its rule, or
    [AlwaysMatcher] for nil. *)
Definition built_by (compiled : CompiledRule) : Prop :=
  exists matcher env env',
    BuildMatcher glob_Compile regexp_Compile (r_Match (cr_Rule compiled)) env
    = (inl matcher, env') /\
    cr_Matcher compiled = or_always matcher.

End Built.

(** The evaluator [e] when its registry pointer points to a registry in
    the state [registry]. *)
Definition with_registry (registry : Registry) (e : Evaluator) : Evaluator :=
  {| e_registry := Some registry;
     e_stopOnFirstMatch := e_stopOnFirstMatch e;
     e_defaultAction := e_defaultAction e |}.

(** * Properties *)

(** ** Sanity checks of the Go primitives *)

Example HasPrefix_git : GoStrings.HasPrefix "git.push" "git." = true.
Proof. reflexivity. Qed.

Example CutSuffix_git : GoStrings.CutSuffix "git.*" ".*" = ("git"%string, true).
Proof. reflexivity. Qed.

Example CutSuffix_none : GoStrings.CutSuffix "git.push" ".*" = ("git.push"%string, false).
Proof. reflexivity. Qed.

Example EqualFold_bash : GoStrings.EqualFold "Bash" "bASH" = true.
Proof. reflexivity. Qed.

Example detect_glob : DetectPatternType "**/test/**" = PatternTypeGlob.
Proof. reflexivity. Qed.

Example detect_braces : DetectPatternType "{main,master}" = PatternTypeGlob.
Proof. reflexivity. Qed.

Example detect_regex : DetectPatternType "prefix.*suffix" = PatternTypeRegex.
Proof. reflexivity. Qed.

Example detect_class : DetectPatternType "file\d+" = PatternTypeRegex.
Proof. reflexivity. Qed.

(** ** The matcher algebra *)

(** Induction over matchers, with the children of a composite covered. *)
Lemma Matcher_nested_ind (P : Matcher -> Prop) :
  (forall m, match m with CompositeMatcher _ _ => True | _ => P m end) ->
  (forall ms op, Forall P ms -> P (CompositeMatcher ms op)) ->
  forall m, P m.
Proof.
  intros Hleaf Hcomp.
  fix IH 1. intros m.
  destruct m as [p|r|p|p|p|p|v|t|e|ms op| |];
    try (match goal with |- P ?x => exact (Hleaf x) end).
  apply Hcomp.
  induction ms as [|x ms IHms]; constructor; [apply IH | exact IHms].
Qed.

Lemma and_loop_total run ms :
  Forall (fun m => exists b, run m = Some b) ms -> exists b, and_loop run ms = Some b.
Proof.
  induction 1 as [|m ms [b Hb] _ IH]; simpl; [eauto|].
  rewrite Hb. destruct b; simpl; eauto.
Qed.

Lemma or_loop_total run ms :
  Forall (fun m => exists b, run m = Some b) ms -> exists b, or_loop run ms = Some b.
Proof.
  induction 1 as [|m ms [b Hb] _ IH]; simpl; [eauto|].
  rewrite Hb. destruct b; simpl; eauto.
Qed.

(** On a non-nil context no matcher panics. *)
Lemma Match_total m c : exists b, Match m (Some c) = Some b.
Proof.
  pattern m. apply Matcher_nested_ind; clear m; [intros m|intros ms op IH].
  - destruct m as [p|r|p|p|p|p|v|t|e|ms op| |]; try (exact I);
      cbn [Match]; try (eexists; reflexivity).
    + unfold RepoPatternMatcher_Match.
      destruct (mc_GitContext c); [case String.eqb|]; eauto.
    + unfold RemoteMatcher_Match. destruct (mc_GitContext c); eauto.
    + unfold BranchPatternMatcher_Match.
      destruct (mc_GitContext c); [case String.eqb|]; eauto.
    + unfold FilePatternMatcher_Match.
      destruct (mc_FileContext c); [case String.eqb|]; destruct (mc_HookContext c); eauto.
    + unfold ContentPatternMatcher_Match.
      destruct (mc_FileContext c); [case String.eqb|]; destruct (mc_HookContext c); eauto.
    + unfold CommandPatternMatcher_Match.
      case String.eqb; cbn [negb]; destruct (mc_HookContext c); eauto.
    + unfold ValidatorTypeMatcher_Match.
      case String.eqb; [eauto|]. case String.eqb; [eauto|]. case String.eqb; [eauto|].
      destruct (GoStrings.CutSuffix v ".*") as [before [|]]; eauto.
    + unfold ToolTypeMatcher_Match. destruct (mc_HookContext c); eauto.
    + unfold EventTypeMatcher_Match. destruct (mc_HookContext c); eauto.
  - cbn [Match]. destruct ms as [|m ms]; [cbn; eauto|].
    change (length (m :: ms) =? 0)%nat with false. cbv iota.
    destruct op as [|[|[|op]]]; eauto.
    + now apply and_loop_total.
    + now apply or_loop_total.
    + cbn [not_first]. inversion IH as [|? ? [b Hb] _]; subst. rewrite Hb. eauto.
Qed.

Lemma and_loop_false run pre m post :
  Forall (fun x => run x = Some true) pre -> run m = Some false ->
  and_loop run (pre ++ m :: post) = Some false.
Proof.
  intros Hpre Hm. induction Hpre as [|x pre Hx _ IH]; simpl.
  - now rewrite Hm.
  - now rewrite Hx.
Qed.

Lemma and_loop_true run ms :
  Forall (fun x => run x = Some true) ms -> and_loop run ms = Some true.
Proof. induction 1 as [|x ms Hx _ IH]; simpl; [|rewrite Hx]; auto. Qed.

Lemma or_loop_true run pre m post :
  Forall (fun x => run x = Some false) pre -> run m = Some true ->
  or_loop run (pre ++ m :: post) = Some true.
Proof.
  intros Hpre Hm. induction Hpre as [|x pre Hx _ IH]; simpl.
  - now rewrite Hm.
  - now rewrite Hx.
Qed.

Lemma or_loop_false run ms :
  Forall (fun x => run x = Some false) ms -> or_loop run ms = Some false.
Proof. induction 1 as [|x ms Hx _ IH]; simpl; [|rewrite Hx]; auto. Qed.

(** A composite with at least one child runs the loop of its operation. *)
Lemma Match_composite_cons m ms op ctx :
  Match (CompositeMatcher (m :: ms) op) ctx =
  match op with
  | 0%nat => and_loop (fun x => Match x ctx) (m :: ms)
  | 1%nat => or_loop (fun x => Match x ctx) (m :: ms)
  | 2%nat => not_first (fun x => Match x ctx) (m :: ms)
  | _ => Some false
  end.
Proof. reflexivity. Qed.

Lemma Match_composite_app pre m post op ctx :
  Match (CompositeMatcher (pre ++ m :: post) op) ctx =
  match op with
  | 0%nat => and_loop (fun x => Match x ctx) (pre ++ m :: post)
  | 1%nat => or_loop (fun x => Match x ctx) (pre ++ m :: post)
  | 2%nat => not_first (fun x => Match x ctx) (pre ++ m :: post)
  | _ => Some false
  end.
Proof. destruct pre; reflexivity. Qed.

(** X17.  Composite matchers with children.  For every context: AND is
    false at the first child that is false, whatever stands behind it, and
    true when all its children are true; OR is true at the first child that
    is true, whatever stands behind it, and false when it has children and
    all of them are false; NOT over one child is true exactly when the
    child is false, and false exactly when the child is true. *)
Theorem X17_composite_with_children (ctx : option MatchContext) :
  (forall pre m post,
      Forall (fun x => Match x ctx = Some true) pre ->
      Match m ctx = Some false ->
      Match (NewAndMatcher (pre ++ m :: post)) ctx = Some false) /\
  (forall ms,
      Forall (fun x => Match x ctx = Some true) ms ->
      Match (NewAndMatcher ms) ctx = Some true) /\
  (forall pre m post,
      Forall (fun x => Match x ctx = Some false) pre ->
      Match m ctx = Some true ->
      Match (NewOrMatcher (pre ++ m :: post)) ctx = Some true) /\
  (forall m ms,
      Forall (fun x => Match x ctx = Some false) (m :: ms) ->
      Match (NewOrMatcher (m :: ms)) ctx = Some false) /\
  (forall m, Match (NewNotMatcher m) ctx = Some true <-> Match m ctx = Some false) /\
  (forall m, Match (NewNotMatcher m) ctx = Some false <-> Match m ctx = Some true).
Proof.
  split; [|split; [|split; [|split; [|split]]]].
  - intros pre m post Hpre Hm. unfold NewAndMatcher.
    rewrite Match_composite_app. now apply and_loop_false.
  - intros ms Hms. destruct ms as [|m ms]; [reflexivity|].
    unfold NewAndMatcher. rewrite Match_composite_cons. now apply and_loop_true.
  - intros pre m post Hpre Hm. unfold NewOrMatcher.
    rewrite Match_composite_app. now apply or_loop_true.
  - intros m ms Hms. unfold NewOrMatcher.
    rewrite Match_composite_cons. now apply or_loop_false.
  - intros m. unfold NewNotMatcher. rewrite Match_composite_cons. cbn [not_first].
    destruct (Match m ctx) as [[|]|]; cbn; split; congruence.
  - intros m. unfold NewNotMatcher. rewrite Match_composite_cons. cbn [not_first].
    destruct (Match m ctx) as [[|]|]; cbn; split; congruence.
Qed.

(** C2 at the input where the code leaves the claim: the OR matcher
    without children, [NewOrMatcher()], matches the empty context.  The
    guard on the number of children stands before the switch on the
    operation, so the [return false] that ends the OR branch is never
    reached for it. *)
Lemma C2_or_without_children_matches :
  Match (NewOrMatcher []) (Some empty_context) = Some true.
Proof. reflexivity. Qed.

(** X17 at concrete matchers on the empty context, every clause with a
    child before the one that decides: [AND(always, never, always)] is
    false and [AND(always, always)] is true; [OR(never, always, never)] is
    true and [OR(never, never)] is false; [NOT(never)] is true and
    [NOT(always)] is false. *)
Lemma X17_composite_with_children_witness :
  Match (NewAndMatcher ([AlwaysMatcher] ++ NeverMatcher :: [AlwaysMatcher]))
        (Some empty_context) = Some false /\
  Match (NewAndMatcher [AlwaysMatcher; AlwaysMatcher]) (Some empty_context)
    = Some true /\
  Match (NewOrMatcher ([NeverMatcher] ++ AlwaysMatcher :: [NeverMatcher]))
        (Some empty_context) = Some true /\
  Match (NewOrMatcher [NeverMatcher; NeverMatcher]) (Some empty_context)
    = Some false /\
  Match (NewNotMatcher NeverMatcher) (Some empty_context) = Some true /\
  Match (NewNotMatcher AlwaysMatcher) (Some empty_context) = Some false.
Proof.
  destruct (X17_composite_with_children (Some empty_context))
    as (Hand & Hall & Hor & Hnone & Hnot & Hnot').
  split; [|split; [|split; [|split; [|split]]]].
  - apply Hand; [repeat constructor | reflexivity].
  - apply Hall. repeat constructor.
  - apply Hor; [repeat constructor | reflexivity].
  - apply Hnone. repeat constructor.
  - apply Hnot. reflexivity.
  - apply Hnot'. reflexivity.
Defined.

Lemma ValidatorAll_neq v : v <> ValidatorAll -> String.eqb v ValidatorAll = false.
Proof. intros H. now apply String.eqb_neq. Qed.

(** What the matcher configured with ["git.*"] computes. *)
Lemma git_all_is_prefix c :
  Match (NewValidatorTypeMatcher ValidatorGitAll) (Some c)
  = Some (GoStrings.HasPrefix (mc_ValidatorType c) "git.").
Proof.
  cbn [NewValidatorTypeMatcher Match]. unfold ValidatorTypeMatcher_Match.
  change (String.eqb ValidatorGitAll ValidatorAll) with false. cbv iota.
  destruct (String.eqb_spec (mc_ValidatorType c) EmptyString) as [->|_]; [reflexivity|].
  destruct (String.eqb_spec (mc_ValidatorType c) ValidatorGitAll) as [->|_]; [reflexivity|].
  reflexivity.
Qed.

(** C6.  The matcher configured with ["*"] matches every context (an empty
    validator type, and even a nil context); a matcher configured with
    anything else is false on an empty validator type; the matcher
    configured with ["git.*"] matches exactly the validator types that
    start with ["git."], so it matches ["git.push"] and ["git.commit"] and
    not ["file.markdown"]. *)
Theorem C6_validator_type_matcher :
  (forall ctx, Match (NewValidatorTypeMatcher ValidatorAll) ctx = Some true) /\
  (forall v c,
      v <> ValidatorAll -> mc_ValidatorType c = EmptyString ->
      Match (NewValidatorTypeMatcher v) (Some c) = Some false) /\
  (forall c,
      Match (NewValidatorTypeMatcher "git.*") (Some c)
      = Some (GoStrings.HasPrefix (mc_ValidatorType c) "git.")) /\
  (forall c,
      mc_ValidatorType c = "git.push" ->
      Match (NewValidatorTypeMatcher "git.*") (Some c) = Some true) /\
  (forall c,
      mc_ValidatorType c = "git.commit" ->
      Match (NewValidatorTypeMatcher "git.*") (Some c) = Some true) /\
  (forall c,
      mc_ValidatorType c = "file.markdown" ->
      Match (NewValidatorTypeMatcher "git.*") (Some c) = Some false).
Proof.
  split; [|split; [|split; [|repeat split]]].
  - reflexivity.
  - intros v c Hv Hc. cbn [NewValidatorTypeMatcher Match].
    unfold ValidatorTypeMatcher_Match.
    rewrite (ValidatorAll_neq v Hv), Hc. reflexivity.
  - exact git_all_is_prefix.
  - intros c Hc. change "git.*" with ValidatorGitAll.
    rewrite git_all_is_prefix, Hc. reflexivity.
  - intros c Hc. change "git.*" with ValidatorGitAll.
    rewrite git_all_is_prefix, Hc. reflexivity.
  - intros c Hc. change "git.*" with ValidatorGitAll.
    rewrite git_all_is_prefix, Hc. reflexivity.
Qed.

(** C6 at the empty context and at contexts that carry only a validator
    type. *)
Lemma C6_validator_type_matcher_witness :
  Match (NewValidatorTypeMatcher ValidatorAll) (Some empty_context) = Some true /\
  Match (NewValidatorTypeMatcher ValidatorGitPush) (Some empty_context) = Some false /\
  Match (NewValidatorTypeMatcher "git.*") (Some (validator_context "git.push")) = Some true /\
  Match (NewValidatorTypeMatcher "git.*") (Some (validator_context "file.markdown"))
    = Some false.
Proof.
  destruct C6_validator_type_matcher as (Hall & Hempty & _ & Hpush & _ & Hmd).
  split; [|split; [|split]].
  - apply Hall.
  - apply Hempty; [discriminate | reflexivity].
  - apply Hpush. reflexivity.
  - apply Hmd. reflexivity.
Defined.

(** C10, as the code has it.  The two constant matchers answer on a nil
    context; a leaf matcher panics on a nil context, except the
    validator-type matcher configured with ["*"], which returns true before
    it reads the context; on a non-nil context no leaf matcher panics. *)
Theorem C10_nil_context :
  Match AlwaysMatcher None = Some true /\
  Match NeverMatcher None = Some false /\
  (forall m,
      is_leaf m = true -> m <> ValidatorTypeMatcher ValidatorAll ->
      Match m None = None) /\
  Match (ValidatorTypeMatcher ValidatorAll) None = Some true /\
  (forall m c, is_leaf m = true -> exists b, Match m (Some c) = Some b).
Proof.
  split; [reflexivity|]. split; [reflexivity|]. split; [|split; [reflexivity|]].
  - intros m Hleaf Hne.
    destruct m as [p|r|p|p|p|p|v|t|e|ms op| |]; try discriminate; try reflexivity.
    cbn [Match]. unfold ValidatorTypeMatcher_Match.
    destruct (String.eqb_spec v ValidatorAll) as [->|_]; [congruence|reflexivity].
  - intros m c _. apply Match_total.
Qed.

(** C10, the part of the claim the code does not have: a leaf matcher whose
    [Match] is defined on the nil context. *)
Lemma C10_wildcard_matcher_on_nil :
  is_leaf (NewValidatorTypeMatcher ValidatorAll) = true /\
  Match (NewValidatorTypeMatcher ValidatorAll) None = Some true.
Proof. split; reflexivity. Qed.

(** C10 at concrete matchers: the remote matcher panics on nil and answers
    on the empty context. *)
Lemma C10_nil_context_witness :
  Match (NewRemoteMatcher "origin") None = None /\
  exists b, Match (NewRemoteMatcher "origin") (Some empty_context) = Some b.
Proof.
  destruct C10_nil_context as (_ & _ & Hnil & _ & Htotal).
  split.
  - apply Hnil; [reflexivity | discriminate].
  - apply Htotal. reflexivity.
Defined.

Lemma eqb_empty_false s : s <> EmptyString -> String.eqb s EmptyString = false.
Proof. intros H. now apply String.eqb_neq. Qed.

Lemma RepoPatternMatcher_spec p c :
  Match (RepoPatternMatcher p) (Some c) = Some true <->
  exists g, mc_GitContext c = Some g /\ gc_RepoRoot g <> EmptyString /\
            Pattern_Match p (gc_RepoRoot g) = true.
Proof. cbn [Match]. unfold RepoPatternMatcher_Match. git_field_spec c. Qed.

Lemma BranchPatternMatcher_spec p c :
  Match (BranchPatternMatcher p) (Some c) = Some true <->
  exists g, mc_GitContext c = Some g /\ gc_Branch g <> EmptyString /\
            Pattern_Match p (gc_Branch g) = true.
Proof. cbn [Match]. unfold BranchPatternMatcher_Match. git_field_spec c. Qed.

Lemma FilePatternMatcher_spec p c :
  Match (FilePatternMatcher p) (Some c) = Some true <->
  (exists f, mc_FileContext c = Some f /\ fc_Path f <> EmptyString /\
             Pattern_Match p (fc_Path f) = true) \/
  ((forall f, mc_FileContext c = Some f -> fc_Path f = EmptyString) /\
   exists h, mc_HookContext c = Some h /\ Pattern_Match p (GetFilePath h) = true).
Proof. cbn [Match]. unfold FilePatternMatcher_Match. file_field_spec c. Qed.

Lemma ContentPatternMatcher_spec p c :
  Match (ContentPatternMatcher p) (Some c) = Some true <->
  (exists f, mc_FileContext c = Some f /\ fc_Content f <> EmptyString /\
             Pattern_Match p (fc_Content f) = true) \/
  ((forall f, mc_FileContext c = Some f -> fc_Content f = EmptyString) /\
   exists h, mc_HookContext c = Some h /\ Pattern_Match p (GetContent h) = true).
Proof. cbn [Match]. unfold ContentPatternMatcher_Match. file_field_spec c. Qed.

Lemma CommandPatternMatcher_spec p c :
  Match (CommandPatternMatcher p) (Some c) = Some true <->
  (mc_Command c <> EmptyString /\ Pattern_Match p (mc_Command c) = true) \/
  (mc_Command c = EmptyString /\
   exists h, mc_HookContext c = Some h /\ Pattern_Match p (GetCommand h) = true).
Proof.
  cbn [Match]. unfold CommandPatternMatcher_Match.
  destruct (String.eqb_spec (mc_Command c) EmptyString) as [He|He]; cbn [negb].
  - destruct (mc_HookContext c) as [h|].
    + split.
      * intros [= H]. right. split; [assumption|]. exists h. auto.
      * intros [(Hne & _)|(_ & h' & [= <-] & H)]; [contradiction|]. now rewrite H.
    + split; [discriminate|]. intros [(Hne & _)|(_ & h' & [=] & _)]. contradiction.
  - split.
    + intros [= H]. left. auto.
    + intros [(_ & H)|(Habs & _)]; [now rewrite H|contradiction].
Qed.

(** C7, as the code has it.  On every context the repository and branch
    matchers are true exactly when the git context's field is non-empty and
    the pattern matches it.  The file, content and command matchers are
    true exactly when their own field is non-empty and the pattern matches
    it, or their own field is absent or empty, a hook context is there, and
    the pattern matches the hook context's value, which is not required to
    be non-empty.  When neither the field nor a hook context is there, all
    five are false. *)
Theorem C7_pattern_matchers (p : Pattern) (c : MatchContext) :
  (Match (RepoPatternMatcher p) (Some c) = Some true <->
   exists g, mc_GitContext c = Some g /\ gc_RepoRoot g <> EmptyString /\
             Pattern_Match p (gc_RepoRoot g) = true) /\
  (Match (BranchPatternMatcher p) (Some c) = Some true <->
   exists g, mc_GitContext c = Some g /\ gc_Branch g <> EmptyString /\
             Pattern_Match p (gc_Branch g) = true) /\
  (Match (FilePatternMatcher p) (Some c) = Some true <->
   (exists f, mc_FileContext c = Some f /\ fc_Path f <> EmptyString /\
              Pattern_Match p (fc_Path f) = true) \/
   ((forall f, mc_FileContext c = Some f -> fc_Path f = EmptyString) /\
    exists h, mc_HookContext c = Some h /\ Pattern_Match p (GetFilePath h) = true)) /\
  (Match (ContentPatternMatcher p) (Some c) = Some true <->
   (exists f, mc_FileContext c = Some f /\ fc_Content f <> EmptyString /\
              Pattern_Match p (fc_Content f) = true) \/
   ((forall f, mc_FileContext c = Some f -> fc_Content f = EmptyString) /\
    exists h, mc_HookContext c = Some h /\ Pattern_Match p (GetContent h) = true)) /\
  (Match (CommandPatternMatcher p) (Some c) = Some true <->
   (mc_Command c <> EmptyString /\ Pattern_Match p (mc_Command c) = true) \/
   (mc_Command c = EmptyString /\
    exists h, mc_HookContext c = Some h /\ Pattern_Match p (GetCommand h) = true)) /\
  (mc_GitContext c = None ->
   Match (RepoPatternMatcher p) (Some c) = Some false /\
   Match (BranchPatternMatcher p) (Some c) = Some false) /\
  (mc_FileContext c = None -> mc_HookContext c = None ->
   Match (FilePatternMatcher p) (Some c) = Some false /\
   Match (ContentPatternMatcher p) (Some c) = Some false) /\
  (mc_Command c = EmptyString -> mc_HookContext c = None ->
   Match (CommandPatternMatcher p) (Some c) = Some false).
Proof.
  split; [apply RepoPatternMatcher_spec|].
  split; [apply BranchPatternMatcher_spec|].
  split; [apply FilePatternMatcher_spec|].
  split; [apply ContentPatternMatcher_spec|].
  split; [apply CommandPatternMatcher_spec|].
  split; [|split].
  - intros Hg. cbn [Match].
    unfold RepoPatternMatcher_Match, BranchPatternMatcher_Match. now rewrite Hg.
  - intros Hf Hh. cbn [Match].
    unfold FilePatternMatcher_Match, ContentPatternMatcher_Match. now rewrite Hf, Hh.
  - intros Hc Hh. cbn [Match]. unfold CommandPatternMatcher_Match.
    now rewrite Hc, Hh.
Qed.

(** C7, the part of the claim the code does not have.  The context has no
    file context and no command, its hook context carries an empty file
    path, content and command, and yet the file, content and command
    matchers built on the pattern [.*] return true. *)
Lemma C7_empty_fallback_matches :
  mc_FileContext hook_only_context = None /\
  mc_Command hook_only_context = EmptyString /\
  mc_HookContext hook_only_context = Some empty_hook /\
  GetFilePath empty_hook = EmptyString /\
  GetContent empty_hook = EmptyString /\
  GetCommand empty_hook = EmptyString /\
  Match (FilePatternMatcher dot_star) (Some hook_only_context) = Some true /\
  Match (ContentPatternMatcher dot_star) (Some hook_only_context) = Some true /\
  Match (CommandPatternMatcher dot_star) (Some hook_only_context) = Some true.
Proof. repeat split. Qed.

(** C7 at the empty context: nothing is there, no matcher matches. *)
Lemma C7_pattern_matchers_witness :
  Match (RepoPatternMatcher dot_star) (Some empty_context) = Some false /\
  Match (FilePatternMatcher dot_star) (Some empty_context) = Some false /\
  Match (CommandPatternMatcher dot_star) (Some empty_context) = Some false.
Proof.
  destruct (C7_pattern_matchers dot_star empty_context)
    as (_ & _ & _ & _ & _ & Hgit & Hfile & Hcmd).
  split; [|split].
  - apply Hgit. reflexivity.
  - apply Hfile; reflexivity.
  - apply Hcmd; reflexivity.
Defined.

(** ** The pattern cache *)

Section CacheProperties.

Variable glob_Compile : string -> (string -> bool) + error.
Variable regexp_Compile : string -> (string -> bool) + error.

Local Abbreviation Get_ := (PatternCache_Get glob_Compile regexp_Compile).
Local Abbreviation get_all_ := (get_all glob_Compile regexp_Compile).
Local Abbreviation Compile_ := (CompilePattern glob_Compile regexp_Compile).

Lemma CompilePattern_log t w r w' :
  Compile_ t w = (r, w') -> compile_log w' = t :: compile_log w.
Proof.
  unfold CompilePattern, NewRegexPattern, NewGlobPattern.
  destruct (DetectPatternType t);
    [destruct (glob_Compile t) | destruct (regexp_Compile t)];
    cbn; intros [= <- <-]; reflexivity.
Qed.

(** A lookup of a cached text returns the cached answer and changes
    nothing. *)
Lemma Get_cached t c w r : cached_as c t r -> Get_ t c w = (r, c, w).
Proof.
  unfold PatternCache_Get. destruct r as [p|err]; cbn.
  - intros ->. reflexivity.
  - intros [-> ->]. reflexivity.
Qed.

(** What a lookup returns is cached afterwards. *)
Lemma Get_caches t c w r c1 w1 : Get_ t c w = (r, c1, w1) -> cached_as c1 t r.
Proof.
  unfold PatternCache_Get.
  destruct (patterns c !! t) as [p|] eqn:Hp.
  { intros [= <- <- <-]. exact Hp. }
  destruct (errors c !! t) as [err|] eqn:He.
  { intros [= <- <- <-]. split; assumption. }
  destruct (Compile_ t w) as [[p|err] w'] eqn:Hc; intros [= <- <- <-]; cbn.
  - apply lookup_insert_eq.
  - split; [assumption | apply lookup_insert_eq].
Qed.

(** A lookup either finds the text cached and changes nothing, or the text
    was not cached and the compiler ran once, on that text. *)
Lemma Get_cases t c w r c1 w1 :
  Get_ t c w = (r, c1, w1) ->
  (is_cached c t /\ c1 = c /\ w1 = w) \/
  (~ is_cached c t /\ compile_log w1 = t :: compile_log w).
Proof.
  unfold PatternCache_Get, is_cached.
  destruct (patterns c !! t) as [p|] eqn:Hp.
  { intros [= <- <- <-]. left. eauto. }
  destruct (errors c !! t) as [err|] eqn:He.
  { intros [= <- <- <-]. left. eauto. }
  destruct (Compile_ t w) as [[p|err] w'] eqn:Hc; intros [= <- <- <-]; right;
    (split; [intros [[? [=]]|[? [=]]] | eapply CompilePattern_log; eassumption]).
Qed.

(** Lookups of other texts keep a cached answer. *)
Lemma Get_keeps t r t' c w r' c1 w1 :
  cached_as c t r -> Get_ t' c w = (r', c1, w1) -> cached_as c1 t r.
Proof.
  intros Hc. unfold PatternCache_Get.
  destruct (patterns c !! t') as [p'|] eqn:Hp.
  { now intros [= <- <- <-]. }
  destruct (errors c !! t') as [err'|] eqn:He.
  { now intros [= <- <- <-]. }
  assert (t' <> t) as Hne.
  { intros ->. destruct r; cbn in Hc; [congruence|]. destruct Hc. congruence. }
  destruct (Compile_ t' w) as [[p'|err'] w'] eqn:Hcomp; intros [= <- <- <-];
    destruct r as [p|err]; cbn in *; rewrite ?lookup_insert_ne by assumption;
    assumption.
Qed.

Lemma Get_keeps_cached t t' c w r' c1 w1 :
  is_cached c t -> Get_ t' c w = (r', c1, w1) -> is_cached c1 t.
Proof.
  unfold is_cached, PatternCache_Get.
  intros Hc.
  destruct (patterns c !! t') as [p'|] eqn:Hp.
  { now intros [= <- <- <-]. }
  destruct (errors c !! t') as [err'|] eqn:He.
  { now intros [= <- <- <-]. }
  destruct (Compile_ t' w) as [[p'|err'] w'] eqn:Hcomp; intros [= <- <- <-]; cbn;
    (destruct (decide (t' = t)) as [->|Hne];
     [rewrite lookup_insert_eq; eauto | rewrite lookup_insert_ne by assumption; exact Hc]).
Qed.

Lemma get_all_keeps t r ts c w c2 w2 :
  cached_as c t r -> get_all_ ts c w = (c2, w2) -> cached_as c2 t r.
Proof.
  revert c w. induction ts as [|t' ts IH]; intros c w Hc; cbn.
  - now intros [= <- <-].
  - destruct (Get_ t' c w) as [[r' c1] w1] eqn:Hg.
    apply IH. eapply Get_keeps; eassumption.
Qed.

(** Over a run of lookups the compiler runs on pairwise distinct texts,
    none of which was cached at the start. *)
Lemma get_all_log ts c w c2 w2 :
  get_all_ ts c w = (c2, w2) ->
  exists new, compile_log w2 = new ++ compile_log w /\ NoDup new /\
              forall t, t ∈ new -> ~ is_cached c t.
Proof.
  revert c w. induction ts as [|t ts IH]; intros c w; cbn.
  - intros [= <- <-]. exists []. repeat split; [constructor | intros t Ht; inversion Ht].
  - destruct (Get_ t c w) as [[r c1] w1] eqn:Hg. intros Hrun.
    destruct (IH _ _ Hrun) as (new & Hlog & Hnd & Hnew).
    destruct (Get_cases _ _ _ _ _ _ Hg) as [(_ & -> & ->)|(Hnc & Hl)].
    + exists new. auto.
    + exists (new ++ [t]). split; [|split].
      * rewrite Hlog, Hl, <- app_assoc. reflexivity.
      * apply NoDup_app. split; [assumption|]. split; [|apply NoDup_singleton].
        intros x Hx Hx'. apply list_elem_of_singleton in Hx'. subst x.
        apply (Hnew t Hx). apply Get_caches in Hg.
        unfold is_cached. destruct r; cbn in Hg; [left | right; destruct Hg]; eauto.
      * intros x Hx. apply elem_of_app in Hx as [Hx|Hx].
        -- intros Hc. apply (Hnew x Hx). eapply Get_keeps_cached; eassumption.
        -- apply list_elem_of_singleton in Hx. now subst x.
Qed.

(** C3.  Once [Get t] has returned [r] (a pattern, with its address, or an
    error), the next [Get t] returns the same [r] and leaves the cache and
    the world as they are, so the compiler does not run; the same holds
    after any run of further lookups; and over any run of lookups the
    compiler is called at most once per text. *)
Theorem C3_cache_get_stable (t : string) (c : PatternCache) (w : World)
    (r : Pattern + error) (c1 : PatternCache) (w1 : World) :
  PatternCache_Get glob_Compile regexp_Compile t c w = (r, c1, w1) ->
  PatternCache_Get glob_Compile regexp_Compile t c1 w1 = (r, c1, w1) /\
  (forall ts c2 w2,
      get_all glob_Compile regexp_Compile ts c1 w1 = (c2, w2) ->
      PatternCache_Get glob_Compile regexp_Compile t c2 w2 = (r, c2, w2)) /\
  (forall ts c2 w2,
      get_all glob_Compile regexp_Compile (t :: ts) c w = (c2, w2) ->
      exists new, compile_log w2 = new ++ compile_log w /\ NoDup new).
Proof.
  intros Hg. pose proof (Get_caches _ _ _ _ _ _ Hg) as Hc.
  split; [now apply Get_cached|]. split.
  - intros ts c2 w2 Hrun. apply Get_cached. eapply get_all_keeps; eassumption.
  - intros ts c2 w2 Hrun.
    destruct (get_all_log _ _ _ _ _ Hrun) as (new & Hlog & Hnd & _). eauto.
Qed.

End CacheProperties.

(** C3 on a new cache: the second lookup of ["*/test/*"] returns the
    instance the first one allocated, and the second lookup of ["[invalid"]
    the error the first one cached. *)
Lemma C3_cache_get_stable_witness :
  (let '(r, c1, w1) :=
     PatternCache_Get toy_Compile toy_Compile "*/test/*" NewPatternCache fresh_world in
   PatternCache_Get toy_Compile toy_Compile "*/test/*" c1 w1 = (r, c1, w1)) /\
  (let '(r, c1, w1) :=
     PatternCache_Get toy_Compile toy_Compile "[invalid" NewPatternCache fresh_world in
   PatternCache_Get toy_Compile toy_Compile "[invalid" c1 w1 = (r, c1, w1)).
Proof.
  split.
  - destruct (PatternCache_Get toy_Compile toy_Compile "*/test/*" NewPatternCache
                fresh_world) as [[r c1] w1] eqn:Hg.
    exact (proj1 (C3_cache_get_stable toy_Compile toy_Compile _ _ _ _ _ _ Hg)).
  - destruct (PatternCache_Get toy_Compile toy_Compile "[invalid" NewPatternCache
                fresh_world) as [[r c1] w1] eqn:Hg.
    exact (proj1 (C3_cache_get_stable toy_Compile toy_Compile _ _ _ _ _ _ Hg)).
Defined.

(** ** The order of the registry *)

Lemma ascii_compare_refl a : Ascii.compare a a = Eq.
Proof. unfold Ascii.compare. apply N.compare_refl. Qed.

Lemma ascii_compare_lt_trans a b c :
  Ascii.compare a b = Lt -> Ascii.compare b c = Lt -> Ascii.compare a c = Lt.
Proof. unfold Ascii.compare. rewrite !N.compare_lt_iff. lia. Qed.

Lemma string_compare_refl s : String.compare s s = Eq.
Proof. induction s as [|a s IH]; cbn; [|rewrite ascii_compare_refl]; auto. Qed.

(** [cmp.Compare] on strings is a total preorder: transitivity. *)
Lemma string_compare_trans s1 s2 s3 :
  String.compare s1 s2 <> Gt -> String.compare s2 s3 <> Gt ->
  String.compare s1 s3 <> Gt.
Proof.
  revert s2 s3. induction s1 as [|a s1 IH]; intros [|b s2] [|c s3]; cbn;
    try congruence.
  destruct (Ascii.compare a b) eqn:Hab; try congruence;
    destruct (Ascii.compare b c) eqn:Hbc; try congruence; intros H1 H2.
  - apply Ascii.compare_eq_iff in Hab, Hbc. subst.
    rewrite ascii_compare_refl. eauto.
  - apply Ascii.compare_eq_iff in Hab. subst. now rewrite Hbc.
  - apply Ascii.compare_eq_iff in Hbc. subst. now rewrite Hab.
  - now rewrite (ascii_compare_lt_trans _ _ _ Hab Hbc).
Qed.

Lemma compareRules_antisym a b : compareRules a b = CompOpp (compareRules b a).
Proof.
  unfold compareRules.
  rewrite (Z.compare_antisym (r_Priority (cr_Rule b)) (r_Priority (cr_Rule a))).
  destruct (r_Priority (cr_Rule b) ?= r_Priority (cr_Rule a)); cbn; try reflexivity.
  apply String.compare_antisym.
Qed.

(** [rule_le] spelled out: a higher priority, or the same priority and a
    name that is not greater. *)
Lemma rule_le_iff a b :
  rule_le a b <->
  r_Priority (cr_Rule b) < r_Priority (cr_Rule a) \/
  (r_Priority (cr_Rule a) = r_Priority (cr_Rule b) /\
   String.compare (r_Name (cr_Rule a)) (r_Name (cr_Rule b)) <> Gt).
Proof.
  unfold rule_le, compareRules.
  destruct (Z.compare_spec (r_Priority (cr_Rule b)) (r_Priority (cr_Rule a)))
    as [He|Hl|Hg].
  - split; [auto|]. intros [H|[_ H]]; [lia|exact H].
  - split; [auto|]. congruence.
  - split; [congruence|]. intros [H|[H _]]; lia.
Qed.

#[global] Instance rule_le_trans : Transitive rule_le.
Proof.
  intros a b c. rewrite !rule_le_iff.
  intros [H1|[H1 N1]] [H2|[H2 N2]]; [left; lia | left; lia | left; lia |].
  right. split; [congruence|]. eapply string_compare_trans; eassumption.
Qed.

#[global] Instance rule_le_total : Total rule_le.
Proof.
  intros a b. unfold rule_le. rewrite (compareRules_antisym b a).
  destruct (compareRules a b); cbn; [left | left | right]; congruence.
Qed.

(** Two rules that may stand in either order have the same name. *)
Lemma rule_le_antisym_name a b :
  rule_le a b -> rule_le b a -> r_Name (cr_Rule a) = r_Name (cr_Rule b).
Proof.
  rewrite !rule_le_iff. intros [H1|[H1 N1]] [H2|[H2 N2]]; try lia.
  apply String.compare_eq_iff.
  rewrite String.compare_antisym in N2.
  destruct (String.compare (r_Name (cr_Rule a)) (r_Name (cr_Rule b)));
    cbn in *; congruence.
Qed.

Lemma sortRulesLocked_sorted r : StronglySorted rule_le (rules (sortRulesLocked r)).
Proof. apply StronglySorted_merge_sort; apply _. Qed.

Lemma sortRulesLocked_perm r : rules (sortRulesLocked r) ≡ₚ rules r.
Proof. apply merge_sort_Permutation. Qed.

Lemma rule_names_perm l1 l2 : l1 ≡ₚ l2 -> rule_names l1 ≡ₚ rule_names l2.
Proof. intros H. unfold rule_names. now rewrite H. Qed.

(** On rules with pairwise distinct names the sorted order is unique:
    whatever algorithm [slices.SortFunc] runs, it returns the list of
    [sortRulesLocked]. *)
Lemma sorted_permutation_unique r l :
  NoDup (rule_names (rules r)) ->
  l ≡ₚ rules r -> StronglySorted rule_le l ->
  l = rules (sortRulesLocked r).
Proof.
  intros Hnd Hperm Hsorted.
  apply (StronglySorted_unique_strong rule_le);
    [|assumption|apply sortRulesLocked_sorted|now rewrite sortRulesLocked_perm].
  intros x1 x2 Hx1 Hx2 H12 H21.
  pose proof (rule_le_antisym_name _ _ H12 H21) as Hname.
  rewrite Hperm in Hx1. rewrite sortRulesLocked_perm in Hx2.
  apply list_elem_of_lookup in Hx1 as [i Hi]. apply list_elem_of_lookup in Hx2 as [j Hj].
  assert (i = j) as ->.
  { eapply NoDup_lookup; [exact Hnd| |]; unfold rule_names;
      rewrite list_lookup_fmap; [rewrite Hi | rewrite Hj]; cbn; [reflexivity|].
    now rewrite Hname. }
  congruence.
Qed.

Lemma sortRulesLocked_inv r :
  NoDup (rule_names (rules r)) -> registry_sorted (sortRulesLocked r).
Proof.
  intros Hnd. split; [|apply sortRulesLocked_sorted].
  now rewrite (rule_names_perm _ _ (sortRulesLocked_perm r)).
Qed.

(** ** The registry operations keep the invariant *)

Lemma rule_names_app l1 l2 : rule_names (l1 ++ l2) = rule_names l1 ++ rule_names l2.
Proof. apply fmap_app. Qed.

Lemma rule_names_length l : length (rule_names l) = length l.
Proof. apply length_fmap. Qed.

(** Overwriting an entry by one of the same name keeps the names. *)
Lemma rule_names_overwrite l i x :
  rule_names l !! i = Some (r_Name (cr_Rule x)) ->
  rule_names (<[i := x]> l) = rule_names l.
Proof.
  intros H. unfold rule_names in *. rewrite list_fmap_insert.
  now apply list_insert_id.
Qed.

Lemma list_find_name_Some name l i x :
  list_find (fun rule => r_Name (cr_Rule rule) = name) l = Some (i, x) ->
  l !! i = Some x /\ rule_names l !! i = Some name.
Proof.
  intros H. apply list_find_Some in H as (Hi & Hn & _). split; [assumption|].
  unfold rule_names. rewrite list_lookup_fmap, Hi. cbn. now rewrite Hn.
Qed.

Lemma list_find_name_None name l :
  list_find (fun rule => r_Name (cr_Rule rule) = name) l = None ->
  name ∉ rule_names l.
Proof.
  intros H Hin. apply list_find_None in H.
  unfold rule_names in Hin. apply list_elem_of_fmap in Hin as (x & -> & Hx).
  rewrite Forall_forall in H. now apply (H x Hx).
Qed.

Lemma NoDup_rule_names_snoc l x :
  NoDup (rule_names l) -> r_Name (cr_Rule x) ∉ rule_names l ->
  NoDup (rule_names (l ++ [x])).
Proof.
  intros Hnd Hx. rewrite rule_names_app. apply NoDup_app.
  split; [assumption|]. split; [|apply NoDup_singleton].
  intros n Hn Hn'. cbn in Hn'. apply list_elem_of_singleton in Hn'. now subst n.
Qed.

Lemma Forall_sort (P : CompiledRule -> Prop) r :
  Forall P (rules r) -> Forall P (rules (sortRulesLocked r)).
Proof. intros H. now rewrite sortRulesLocked_perm. Qed.

Lemma Remove_sublist name r : rules (snd (Remove name r)) `sublist_of` rules r.
Proof.
  unfold Remove.
  destruct (list_find _ (rules r)) as [[i x]|]; cbn; [apply sublist_delete | reflexivity].
Qed.

Lemma StronglySorted_sublist {A} (R : relation A) (l1 l2 : list A) :
  l1 `sublist_of` l2 -> StronglySorted R l2 -> StronglySorted R l1.
Proof.
  induction 1 as [|x l1 l2 Hsub IH|x l1 l2 Hsub IH]; intros Hs.
  - constructor.
  - apply StronglySorted_inv in Hs as [Hs Hall]. constructor; [auto|].
    rewrite Forall_forall in *. intros y Hy. apply Hall.
    eapply elem_of_sublist; eassumption.
  - apply StronglySorted_inv in Hs as [Hs _]. auto.
Qed.

Lemma Remove_sorted name r : registry_sorted r -> registry_sorted (snd (Remove name r)).
Proof.
  intros [Hnd Hs]. pose proof (Remove_sublist name r) as Hsub. split.
  - apply (sublist_NoDup _ (rule_names (rules r))); [exact Hnd|].
    unfold rule_names. now apply fmap_sublist.
  - eapply StronglySorted_sublist; eassumption.
Qed.

Lemma index_ok_snoc rs existing x :
  index_ok rs existing -> r_Name (cr_Rule x) ∉ rule_names rs ->
  index_ok (rs ++ [x]) (<[r_Name (cr_Rule x) := length rs]> existing).
Proof.
  intros Hok Hx n i. rewrite rule_names_app. cbn.
  rewrite lookup_snoc_Some, rule_names_length.
  destruct (decide (n = r_Name (cr_Rule x))) as [->|Hne].
  - rewrite lookup_insert_eq. split.
    + intros [= <-]. right. auto.
    + intros [[_ Hi]|[-> _]]; [|reflexivity].
      elim Hx. eapply list_elem_of_lookup_2. eassumption.
  - rewrite lookup_insert_ne by congruence. rewrite (Hok n i). split.
    + intros Hi. left. split; [|assumption].
      apply lookup_lt_Some in Hi. now rewrite rule_names_length in Hi.
    + intros [[_ Hi]|[_ Hn]]; [assumption|congruence].
Qed.

Lemma index_names_ok l pre existing :
  NoDup (rule_names (pre ++ l)) -> index_ok pre existing ->
  index_ok (pre ++ l) (index_names l (length pre) existing).
Proof.
  revert pre existing. induction l as [|x l IH]; intros pre existing Hnd Hok; cbn.
  - now rewrite app_nil_r.
  - replace (pre ++ x :: l) with ((pre ++ [x]) ++ l) in * by now rewrite <- app_assoc.
    replace (S (length pre)) with (length (pre ++ [x]))
      by (rewrite length_app; cbn; lia).
    apply IH; [assumption|]. apply index_ok_snoc; [assumption|].
    rewrite rule_names_app, rule_names_app in Hnd.
    apply NoDup_app in Hnd as [Hnd _]. apply NoDup_app in Hnd as (_ & Hdis & _).
    intros Hin. apply (Hdis _ Hin). cbn. apply list_elem_of_singleton. reflexivity.
Qed.

Lemma index_ok_nil : index_ok [] ∅.
Proof. intros n i. rewrite lookup_empty. cbn. split; discriminate. Qed.

Lemma merge_loop_names src rs existing :
  NoDup (rule_names rs) -> index_ok rs existing ->
  NoDup (rule_names (merge_loop src rs existing)).
Proof.
  revert rs existing. induction src as [|x src IH]; intros rs existing Hnd Hok; cbn.
  - assumption.
  - destruct (existing !! r_Name (cr_Rule x)) as [idx|] eqn:He.
    + pose proof (proj1 (Hok _ _) He) as Hidx.
      apply IH.
      * now rewrite rule_names_overwrite.
      * intros n i. now rewrite rule_names_overwrite.
    + assert (r_Name (cr_Rule x) ∉ rule_names rs) as Hx.
      { intros Hin. apply list_elem_of_lookup in Hin as [i Hi].
        apply Hok in Hi. congruence. }
      replace (length (rs ++ [x]) - 1)%nat with (length rs)
        by (rewrite length_app; cbn; lia).
      apply IH; [now apply NoDup_rule_names_snoc | now apply index_ok_snoc].
Qed.

Lemma merge_loop_Forall (P : CompiledRule -> Prop) src rs existing :
  Forall P src -> Forall P rs -> Forall P (merge_loop src rs existing).
Proof.
  revert rs existing. induction src as [|x src IH]; intros rs existing Hsrc Hrs; cbn.
  - assumption.
  - apply Forall_cons in Hsrc as [Hx Hsrc].
    destruct (existing !! r_Name (cr_Rule x)) as [idx|].
    + apply IH; [assumption|]. now apply Forall_insert.
    + apply IH; [assumption|]. apply Forall_app. split; [assumption|]. now constructor.
Qed.

Lemma Merge_sorted source r : registry_sorted r -> registry_sorted (Merge source r).
Proof.
  intros Hr. destruct source as [src|]; [|exact Hr]. cbn.
  apply sortRulesLocked_inv. cbn. destruct Hr as [Hnd _].
  apply merge_loop_names; [assumption|].
  apply (index_names_ok (rules r) [] ∅); [assumption | apply index_ok_nil].
Qed.

Lemma Clear_sorted r : registry_sorted (Clear r).
Proof. split; cbn; constructor. Qed.

(** In a registry with unique names [Get] finds the stored rule of that
    name. *)
Lemma Get_elem_of r x :
  NoDup (rule_names (rules r)) -> x ∈ rules r -> Get (r_Name (cr_Rule x)) r = Some x.
Proof.
  intros Hnd Hx. unfold Get.
  destruct (list_find _ (rules r)) as [[i y]|] eqn:Hf; cbn.
  - apply list_find_name_Some in Hf as [Hi Hn].
    apply list_elem_of_lookup in Hx as [j Hj].
    assert (i = j) as ->; [|congruence].
    eapply NoDup_lookup; [exact Hnd | exact Hn |].
    unfold rule_names. now rewrite list_lookup_fmap, Hj.
  - apply list_find_name_None in Hf. elim Hf.
    unfold rule_names. apply list_elem_of_fmap. eauto.
Qed.

Lemma StronglySorted_lookup {A} (R : relation A) (l : list A) i j a b :
  StronglySorted R l -> (i < j)%nat -> l !! i = Some a -> l !! j = Some b -> R a b.
Proof.
  intros Hs. revert i j. induction Hs as [|x l Hs IH Hall]; intros i j Hij Hi Hj.
  - discriminate.
  - destruct j as [|j]; [lia|]. cbn in Hj. destruct i as [|i]; cbn in Hi.
    + injection Hi as ->. rewrite Forall_forall in Hall. apply Hall.
      eapply list_elem_of_lookup_2. eassumption.
    + apply (IH i j); [lia | assumption..].
Qed.

(** The order of a registry, position by position: an earlier rule has the
    higher priority, or the same priority and the smaller name. *)
Lemma registry_sorted_order r i j a b :
  registry_sorted r -> (i < j)%nat ->
  rules r !! i = Some a -> rules r !! j = Some b ->
  r_Priority (cr_Rule b) < r_Priority (cr_Rule a) \/
  (r_Priority (cr_Rule a) = r_Priority (cr_Rule b) /\
   String.compare (r_Name (cr_Rule a)) (r_Name (cr_Rule b)) = Lt).
Proof.
  intros [Hnd Hs] Hij Hi Hj.
  pose proof (StronglySorted_lookup _ _ _ _ _ _ Hs Hij Hi Hj) as Hle.
  apply rule_le_iff in Hle as [Hlt|[Heq Hcmp]]; [now left|]. right.
  split; [assumption|].
  destruct (String.compare (r_Name (cr_Rule a)) (r_Name (cr_Rule b))) eqn:Hc;
    [|reflexivity|congruence].
  apply String.compare_eq_iff in Hc.
  assert (i = j); [|lia].
  eapply NoDup_lookup; [exact Hnd| |]; unfold rule_names;
    rewrite list_lookup_fmap; [rewrite Hi | rewrite Hj]; cbn; [reflexivity|].
  now rewrite Hc.
Qed.

Section RegistryProperties.

Variable glob_Compile : string -> (string -> bool) + error.
Variable regexp_Compile : string -> (string -> bool) + error.

Local Abbreviation Add_ := (Add glob_Compile regexp_Compile).
Local Abbreviation BuildMatcher_ := (BuildMatcher glob_Compile regexp_Compile).
Local Abbreviation run_ops_ := (run_ops glob_Compile regexp_Compile).
Local Abbreviation apply_op_ := (apply_op glob_Compile regexp_Compile).

(** The shape of a successful [Add]: the compiled rule overwrites the
    entry of its name or is appended, and the slice is sorted again. *)
Lemma Add_success rule r env r' env' :
  Add_ rule r env = (None, r', env') ->
  exists ru m,
    rule = Some ru /\ r_Name ru <> EmptyString /\ is_Some (r_Action ru) /\
    let compiled := {| cr_Rule := ru; cr_Matcher := m |} in
    ((exists i x, list_find (fun e => r_Name (cr_Rule e) = r_Name ru) (rules r)
                  = Some (i, x) /\
                  r' = sortRulesLocked {| rules := <[i := compiled]> (rules r) |}) \/
     (list_find (fun e => r_Name (cr_Rule e) = r_Name ru) (rules r) = None /\
      r' = sortRulesLocked {| rules := rules r ++ [compiled] |})).
Proof.
  unfold Add. destruct rule as [ru|]; [|discriminate].
  destruct (String.eqb_spec (r_Name ru) EmptyString) as [|Hname]; [discriminate|].
  destruct (r_Action ru) as [a|] eqn:Ha; [|discriminate].
  destruct (BuildMatcher_ (r_Match ru) env) as [[m|err] env1]; [|discriminate].
  set (matcher := match m with Some m0 => m0 | None => AlwaysMatcher end).
  destruct (list_find _ (rules r)) as [[i x]|] eqn:Hf; intros [= <- <-];
    exists ru, matcher; repeat split; eauto.
Qed.

(** A failing [Add] leaves the registry as it was. *)
Lemma Add_failure rule r env err r' env' :
  Add_ rule r env = (Some err, r', env') -> r' = r.
Proof.
  unfold Add. destruct rule as [ru|]; [|now intros [= _ <- _]].
  destruct (String.eqb (r_Name ru) EmptyString); [now intros [= _ <- _]|].
  destruct (r_Action ru); [|now intros [= _ <- _]].
  destruct (BuildMatcher_ (r_Match ru) env) as [[m|e] env1]; [|now intros [= _ <- _]].
  destruct (list_find _ (rules r)) as [[i x]|]; discriminate.
Qed.

Lemma Add_sorted rule r env :
  registry_sorted r -> registry_sorted (snd (fst (Add_ rule r env))).
Proof.
  intros Hr. destruct (Add_ rule r env) as [[[err|] r'] env'] eqn:Ha; cbn.
  - now rewrite (Add_failure _ _ _ _ _ _ Ha).
  - apply Add_success in Ha as (ru & m & _ & _ & _ & [(i & x & Hf & ->)|(Hf & ->)]);
      apply sortRulesLocked_inv; cbn; destruct Hr as [Hnd _].
    + apply list_find_name_Some in Hf as [_ Hn]. now rewrite rule_names_overwrite.
    + apply list_find_name_None in Hf. now apply NoDup_rule_names_snoc.
Qed.

Lemma Add_has_action rule r env :
  Forall has_action (rules r) ->
  Forall has_action (rules (snd (fst (Add_ rule r env)))).
Proof.
  intros Hr. destruct (Add_ rule r env) as [[[err|] r'] env'] eqn:Ha; cbn.
  - now rewrite (Add_failure _ _ _ _ _ _ Ha).
  - apply Add_success in Ha as (ru & m & _ & _ & Hact & [(i & x & Hf & ->)|(Hf & ->)]);
      apply Forall_sort; cbn.
    + now apply Forall_insert.
    + apply Forall_app. split; [assumption|]. now constructor.
Qed.

Lemma apply_op_sorted op s :
  registry_sorted (fst s) -> registry_sorted (fst (apply_op_ op s)).
Proof.
  intros Hs. destruct op as [rule|name|source|]; cbn.
  - pose proof (Add_sorted rule (fst s) (snd s) Hs) as H.
    now destruct (Add_ rule (fst s) (snd s)) as [[e r'] env'].
  - now apply Remove_sorted.
  - now apply Merge_sorted.
  - apply Clear_sorted.
Qed.

Lemma run_ops_sorted ops s :
  registry_sorted (fst s) -> registry_sorted (fst (run_ops_ ops s)).
Proof.
  revert s. induction ops as [|op ops IH]; intros s Hs; cbn; [assumption|].
  apply IH. now apply apply_op_sorted.
Qed.

(** An [Add] under a name that is already stored: the registry keeps its
    size and its names, and the entry of that name is the new rule. *)
Lemma Add_overwrites ru r env r' env' x :
  registry_sorted r -> Get (r_Name ru) r = Some x ->
  Add_ (Some ru) r env = (None, r', env') ->
  Size r' = Size r /\
  rule_names (rules r') ≡ₚ rule_names (rules r) /\
  exists m, Get (r_Name ru) r' = Some {| cr_Rule := ru; cr_Matcher := m |}.
Proof.
  intros [Hnd Hs] Hget Ha.
  pose proof (Add_sorted (Some ru) r env (conj Hnd Hs)) as [Hnd' _].
  rewrite Ha in Hnd'. cbn in Hnd'.
  apply Add_success in Ha as (ru' & m & [= <-] & _ & _ & Hcase).
  unfold Get in Hget.
  destruct Hcase as [(i & y & Hf & ->)|(Hf & ->)]; [|rewrite Hf in Hget; discriminate].
  pose proof (list_find_name_Some _ _ _ _ Hf) as [Hi Hn].
  split; [|split].
  - unfold Size. rewrite (Permutation_length (sortRulesLocked_perm _)). cbn.
    apply length_insert.
  - rewrite (rule_names_perm _ _ (sortRulesLocked_perm _)). cbn.
    now rewrite rule_names_overwrite.
  - exists m.
    apply (Get_elem_of _ {| cr_Rule := ru; cr_Matcher := m |}); [assumption|].
    rewrite sortRulesLocked_perm. cbn.
    eapply list_elem_of_lookup_2. apply list_lookup_insert_eq.
    eapply lookup_lt_Some. eassumption.
Qed.

(** C4.  After every sequence of [Add], [Remove], [Merge] and [Clear] on a
    new registry the names are unique and the rules are sorted by
    descending priority, then ascending name: of two stored rules the
    earlier one has another name, and the higher priority or the same
    priority and the smaller name.  An [Add] under a stored name
    overwrites: size and names stay, the entry is the new rule.  Adding
    ["r1"] with priority 10 and then ["r1"] with priority 5 leaves the one
    entry ["r1"] with priority 5. *)
Theorem C4_registry_invariant :
  (forall ops env,
      registry_sorted (fst (run_ops glob_Compile regexp_Compile ops (NewRegistry, env)))) /\
  (forall ops env i j a b,
      let reg := fst (run_ops glob_Compile regexp_Compile ops (NewRegistry, env)) in
      (i < j)%nat -> rules reg !! i = Some a -> rules reg !! j = Some b ->
      r_Name (cr_Rule a) <> r_Name (cr_Rule b) /\
      (r_Priority (cr_Rule b) < r_Priority (cr_Rule a) \/
       (r_Priority (cr_Rule a) = r_Priority (cr_Rule b) /\
        String.compare (r_Name (cr_Rule a)) (r_Name (cr_Rule b)) = Lt))) /\
  (forall ru r env r' env' x,
      registry_sorted r -> Get (r_Name ru) r = Some x ->
      Add glob_Compile regexp_Compile (Some ru) r env = (None, r', env') ->
      Size r' = Size r /\
      rule_names (rules r') ≡ₚ rule_names (rules r) /\
      exists m, Get (r_Name ru) r' = Some {| cr_Rule := ru; cr_Matcher := m |}) /\
  (forall env a1 m1 a2 m2,
      rules (fst (run_ops glob_Compile regexp_Compile
                    [OpAdd (Some (plain_rule "r1" 10 true a1 m1));
                     OpAdd (Some (plain_rule "r1" 5 true a2 m2))]
                    (NewRegistry, env)))
      = [ {| cr_Rule := plain_rule "r1" 5 true a2 m2; cr_Matcher := AlwaysMatcher |} ]).
Proof.
  assert (forall ops env,
      registry_sorted (fst (run_ops glob_Compile regexp_Compile ops (NewRegistry, env))))
    as Hinv.
  { intros ops env. apply run_ops_sorted. split; cbn; constructor. }
  split; [exact Hinv|]. split; [|split].
  - intros ops env i j a b reg Hij Hi Hj.
    pose proof (registry_sorted_order reg i j a b (Hinv ops env) Hij Hi Hj) as Hord.
    split; [|exact Hord].
    intros Hname. destruct Hord as [Hlt|[_ Hc]].
    + destruct (Hinv ops env) as [Hnd _]. fold reg in Hnd.
      assert (i = j); [|lia].
      eapply NoDup_lookup; [exact Hnd| |]; unfold rule_names;
        rewrite list_lookup_fmap; [rewrite Hi | rewrite Hj]; cbn; [reflexivity|].
      now rewrite Hname.
    + rewrite Hname, string_compare_refl in Hc. discriminate.
  - intros ru r env r' env' x. apply Add_overwrites.
  - intros env a1 m1 a2 m2. reflexivity.
Qed.

(** The four ways [Add] fails. *)
Lemma Add_rejects r env :
  (exists err env', Add_ None r env = (Some err, r, env')) /\
  (forall ru, r_Name ru = EmptyString ->
              exists err env', Add_ (Some ru) r env = (Some err, r, env')) /\
  (forall ru, r_Action ru = None ->
              exists err env', Add_ (Some ru) r env = (Some err, r, env')) /\
  (forall ru e env1, BuildMatcher_ (r_Match ru) env = (inr e, env1) ->
                     exists err env', Add_ (Some ru) r env = (Some err, r, env')).
Proof.
  split; [cbn; eauto|]. split; [|split].
  - intros ru Hn. unfold Add. rewrite Hn. cbn. eauto.
  - intros ru Ha. unfold Add. rewrite Ha. destruct (String.eqb _ _); eauto.
  - intros ru e env1 Hb. unfold Add. rewrite Hb.
    destruct (String.eqb _ _); [eauto|]. destruct (r_Action ru); eauto.
Qed.

(** C5.  When [Add] returns an error the registry is what it was before
    the call.  [Add] returns an error, and so leaves the registry as it
    was, for a nil rule, for a rule with an empty name, for a rule with a
    nil action, and for a rule whose matcher does not compile. *)
Theorem C5_add_failure_unchanged (r : Registry) (env : Env) :
  (forall rule err r' env',
      Add glob_Compile regexp_Compile rule r env = (Some err, r', env') -> r' = r) /\
  (exists err env', Add glob_Compile regexp_Compile None r env = (Some err, r, env')) /\
  (forall ru, r_Name ru = EmptyString ->
      exists err env',
        Add glob_Compile regexp_Compile (Some ru) r env = (Some err, r, env')) /\
  (forall ru, r_Action ru = None ->
      exists err env',
        Add glob_Compile regexp_Compile (Some ru) r env = (Some err, r, env')) /\
  (forall ru e env1,
      BuildMatcher glob_Compile regexp_Compile (r_Match ru) env = (inr e, env1) ->
      exists err env',
        Add glob_Compile regexp_Compile (Some ru) r env = (Some err, r, env')).
Proof.
  split; [|apply Add_rejects].
  intros rule err r' env'. apply Add_failure.
Qed.

End RegistryProperties.

(** ** The evaluator *)

Lemma GetEnabled_sorted r :
  registry_sorted r -> StronglySorted rule_le (GetEnabled r).
Proof.
  intros [_ Hs]. unfold GetEnabled. eapply StronglySorted_sublist; [|exact Hs].
  apply sublist_filter.
Qed.

Lemma GetEnabled_has_action r :
  Forall has_action (rules r) -> Forall has_action (GetEnabled r).
Proof.
  intros H. unfold GetEnabled. rewrite Forall_forall in *.
  intros x Hx. apply H. now apply list_elem_of_filter in Hx as [_ Hx].
Qed.

Lemma GetEnabled_elem_of r x :
  x ∈ GetEnabled r <-> x ∈ rules r /\ r_Enabled (cr_Rule x) = true.
Proof.
  unfold GetEnabled. rewrite list_elem_of_filter, Is_true_true. tauto.
Qed.

Lemma rule_matches_true c x :
  rule_matches c x = true <-> Match (cr_Matcher x) (Some c) = Some true.
Proof.
  unfold rule_matches. destruct (Match _ _) as [[|]|]; split; congruence.
Qed.

Lemma rule_matches_false c x :
  rule_matches c x = false <-> Match (cr_Matcher x) (Some c) = Some false.
Proof.
  unfold rule_matches. destruct (Match_total (cr_Matcher x) c) as [b ->].
  destruct b; split; congruence.
Qed.

(** The loop stops at the first rule that matches. *)
Lemma Evaluate_loop_first e c pre first post a :
  Forall (fun x => rule_matches c x = false) pre ->
  rule_matches c first = true ->
  r_Action (cr_Rule first) = Some a ->
  Evaluate_loop e (Some c) (pre ++ first :: post)
  = Some {| res_Matched := true; res_Rule := Some (cr_Rule first);
            res_Action := ra_Type a; res_Message := ra_Message a;
            res_Reference := ra_Reference a |}.
Proof.
  intros Hpre Hfirst Ha. induction Hpre as [|x pre Hx _ IH]; cbn.
  - apply rule_matches_true in Hfirst. rewrite Hfirst.
    unfold matched_result. now rewrite Ha.
  - apply rule_matches_false in Hx. now rewrite Hx.
Qed.

Lemma Evaluate_loop_none e c rs :
  Forall (fun x => rule_matches c x = false) rs ->
  Evaluate_loop e (Some c) rs = Some (unmatched e).
Proof.
  induction 1 as [|x rs Hx _ IH]; cbn; [reflexivity|].
  apply rule_matches_false in Hx. now rewrite Hx.
Qed.

Lemma Evaluate_loop_total e c rs :
  Forall has_action rs -> exists res, Evaluate_loop e (Some c) rs = Some res.
Proof.
  induction 1 as [|x rs [a Ha] _ IH]; cbn; [eauto|].
  destruct (Match_total (cr_Matcher x) c) as [[|] ->]; [|assumption].
  unfold matched_result. rewrite Ha. eauto.
Qed.

(** The walk either meets a first rule that matches, or none matches. *)
Lemma first_match_split c rs :
  (exists pre first post,
      rs = pre ++ first :: post /\
      Forall (fun x => Match (cr_Matcher x) (Some c) = Some false) pre /\
      Match (cr_Matcher first) (Some c) = Some true) \/
  Forall (fun x => Match (cr_Matcher x) (Some c) = Some false) rs.
Proof.
  induction rs as [|x rs IH]; [right; constructor|].
  destruct (Match_total (cr_Matcher x) c) as [[|] Hx].
  - left. exists [], x, rs. repeat split; [constructor | assumption].
  - destruct IH as [(pre & first & post & -> & Hpre & Hfirst)|Hnone].
    + left. exists (x :: pre), first, post. repeat split; [now constructor | assumption].
    + right. now constructor.
Qed.

(** [Evaluate] with the two early returns folded into the loop. *)
Lemma Evaluate_unfold e ctx reg :
  e_registry e = Some reg -> Evaluate e ctx = Evaluate_loop e ctx (GetEnabled reg).
Proof.
  intros Hreg. unfold Evaluate. rewrite Hreg. cbv zeta.
  destruct (GetEnabled reg); reflexivity.
Qed.

(** C1.  Let the registry of the evaluator be one its operations build
    (sorted, names unique, every rule with an action), or nil.  On every
    context [Evaluate] returns a result and does not panic.  It walks the
    enabled rules, which stand in the order of descending priority, then
    ascending name; at the first one whose matcher matches it returns
    matched=true with that rule, its action, message and reference; when no
    enabled rule matches, when there is no rule, and when the registry is
    nil, it returns matched=false with the default action. *)
Theorem C1_evaluate_first_match (e : Evaluator) (c : MatchContext) :
  (forall reg, e_registry e = Some reg -> registry_wf reg) ->
  (exists res, Evaluate e (Some c) = Some res) /\
  (forall reg, e_registry e = Some reg ->
     (forall x, x ∈ GetEnabled reg <-> x ∈ rules reg /\ r_Enabled (cr_Rule x) = true) /\
     StronglySorted rule_le (GetEnabled reg) /\
     ((exists pre first post,
          GetEnabled reg = pre ++ first :: post /\
          Forall (fun x => Match (cr_Matcher x) (Some c) = Some false) pre /\
          Match (cr_Matcher first) (Some c) = Some true) \/
      Forall (fun x => Match (cr_Matcher x) (Some c) = Some false) (GetEnabled reg))) /\
  (forall reg pre first post,
     e_registry e = Some reg ->
     GetEnabled reg = pre ++ first :: post ->
     Forall (fun x => Match (cr_Matcher x) (Some c) = Some false) pre ->
     Match (cr_Matcher first) (Some c) = Some true ->
     exists a, r_Action (cr_Rule first) = Some a /\
       Evaluate e (Some c)
       = Some {| res_Matched := true; res_Rule := Some (cr_Rule first);
                 res_Action := ra_Type a; res_Message := ra_Message a;
                 res_Reference := ra_Reference a |}) /\
  (forall reg,
     e_registry e = Some reg ->
     Forall (fun x => Match (cr_Matcher x) (Some c) = Some false) (GetEnabled reg) ->
     Evaluate e (Some c)
     = Some {| res_Matched := false; res_Rule := None;
               res_Action := e_defaultAction e;
               res_Message := EmptyString; res_Reference := EmptyString |}) /\
  (forall ctx,
     e_registry e = None \/ e_registry e = Some NewRegistry ->
     Evaluate e ctx
     = Some {| res_Matched := false; res_Rule := None;
               res_Action := e_defaultAction e;
               res_Message := EmptyString; res_Reference := EmptyString |}).
Proof.
  intros Hwf. split; [|split; [|split; [|split]]].
  - destruct (e_registry e) as [reg|] eqn:Hreg.
    + rewrite (Evaluate_unfold _ _ _ Hreg). apply Evaluate_loop_total.
      apply GetEnabled_has_action. now apply Hwf.
    + unfold Evaluate. rewrite Hreg. eauto.
  - intros reg Hreg. split; [apply GetEnabled_elem_of|].
    split; [|apply first_match_split].
    apply GetEnabled_sorted. now apply Hwf.
  - intros reg pre first post Hreg Hen Hpre Hfirst.
    assert (has_action first) as [a Ha].
    { destruct (Hwf reg Hreg) as [_ Hact]. apply GetEnabled_has_action in Hact.
      rewrite Hen in Hact. apply Forall_app in Hact as [_ Hact].
      now apply Forall_cons in Hact as [Hact _]. }
    exists a. split; [assumption|].
    rewrite (Evaluate_unfold _ _ _ Hreg), Hen.
    apply Evaluate_loop_first; [|now apply rule_matches_true|assumption].
    eapply Forall_impl; [exact Hpre|]. intros x Hx. now apply rule_matches_false.
  - intros reg Hreg Hnone. rewrite (Evaluate_unfold _ _ _ Hreg).
    apply Evaluate_loop_none.
    eapply Forall_impl; [exact Hnone|]. intros x Hx. now apply rule_matches_false.
  - intros ctx [Hreg|Hreg]; unfold Evaluate; rewrite Hreg; reflexivity.
Qed.

(** ** Registries built by the operations are well formed *)

Section Reachable.

Variable glob_Compile : string -> (string -> bool) + error.
Variable regexp_Compile : string -> (string -> bool) + error.

Lemma apply_op_wf op s :
  op_wf op -> registry_wf (fst s) ->
  registry_wf (fst (apply_op glob_Compile regexp_Compile op s)).
Proof.
  intros Hop [Hs Ha]. split; [now apply apply_op_sorted|].
  destruct op as [rule|name|[src|]|]; cbn.
  - pose proof (Add_has_action glob_Compile regexp_Compile rule (fst s) (snd s) Ha) as H.
    now destruct (Add glob_Compile regexp_Compile rule (fst s) (snd s)) as [[e r'] env'].
  - rewrite Forall_forall in *. intros x Hx. apply Ha.
    eapply elem_of_sublist; [exact Hx | apply Remove_sublist].
  - apply (Forall_sort has_action
             {| rules := merge_loop (rules src) (rules (fst s))
                           (index_names (rules (fst s)) 0 ∅) |}).
    cbn. now apply merge_loop_Forall.
  - assumption.
  - constructor.
Qed.

(** Every registry the operations build from a new one is well formed. *)
Lemma run_ops_wf ops s :
  Forall op_wf ops -> registry_wf (fst s) ->
  registry_wf (fst (run_ops glob_Compile regexp_Compile ops s)).
Proof.
  intros Hops. revert s. induction Hops as [|op ops Hop _ IH]; intros s Hs; cbn.
  - assumption.
  - apply IH. now apply apply_op_wf.
Qed.

Lemma NewRegistry_wf : registry_wf NewRegistry.
Proof. repeat split; cbn; constructor. Qed.

End Reachable.

Lemma AddAll_as_ops (gc rc : string -> (string -> bool) + error) rs r env :
  (forall err r' env', AddAll gc rc rs r env <> (Some err, r', env')) ->
  snd (fst (AddAll gc rc rs r env)) = fst (run_ops gc rc (OpAdd <$> rs) (r, env)).
Proof.
  revert r env. induction rs as [|rule rs IH]; intros r env Hok; cbn; [reflexivity|].
  cbn in Hok. destruct (Add gc rc rule r env) as [[[err|] r1] env1] eqn:Ha.
  - now elim (Hok err r1 env1).
  - cbn. now apply IH.
Qed.

(** A registry of pattern-free rules that [AddAll] accepts is well formed. *)
Lemma registry_of_wf rs :
  (forall err r' env',
      AddAll toy_Compile toy_Compile (Some <$> rs) NewRegistry fresh_env
      <> (Some err, r', env')) ->
  registry_wf (registry_of rs).
Proof.
  intros Hok. unfold registry_of. rewrite AddAll_as_ops by assumption.
  apply run_ops_wf; [|apply NewRegistry_wf].
  apply Forall_fmap, Forall_forall. intros x _. exact I.
Qed.

Lemma registry_of_R2_R1 :
  rules (registry_of [R2; R1])
  = [ {| cr_Rule := R1; cr_Matcher := RemoteMatcher "origin" |};
      {| cr_Rule := R2; cr_Matcher := AlwaysMatcher |} ].
Proof. vm_compute. reflexivity. Qed.

Lemma evaluator_of_wf rs :
  (forall err r' env',
      AddAll toy_Compile toy_Compile (Some <$> rs) NewRegistry fresh_env
      <> (Some err, r', env')) ->
  forall reg, e_registry (evaluator_of rs) = Some reg -> registry_wf reg.
Proof. intros Hok reg [= <-]. now apply registry_of_wf. Qed.

(** C1 on the end-to-end example: with [R1] (priority 100, remote origin,
    block) and [R2] (priority 1, no condition, allow) registered, a context
    with remote origin is answered by [R1]. *)
Lemma C1_evaluate_first_match_witness :
  Evaluate (evaluator_of [R2; R1]) (Some (remote_context "origin"))
  = Some {| res_Matched := true; res_Rule := Some R1; res_Action := ActionBlock;
            res_Message := "no origin push"; res_Reference := EmptyString |}.
Proof.
  assert (forall reg, e_registry (evaluator_of [R2; R1]) = Some reg -> registry_wf reg)
    as Hwf.
  { apply evaluator_of_wf. intros err r' env'. vm_compute. discriminate. }
  destruct (C1_evaluate_first_match (evaluator_of [R2; R1]) (remote_context "origin") Hwf)
    as (_ & _ & Hfirst & _).
  destruct (Hfirst (registry_of [R2; R1]) []
              {| cr_Rule := R1; cr_Matcher := RemoteMatcher "origin" |}
              [ {| cr_Rule := R2; cr_Matcher := AlwaysMatcher |} ])
    as (a & Ha & Heval).
  - reflexivity.
  - vm_compute. reflexivity.
  - constructor.
  - reflexivity.
  - cbn in Ha. injection Ha as <-. exact Heval.
Defined.

Example evaluate_upstream :
  Evaluate (evaluator_of [R2; R1]) (Some (remote_context "upstream"))
  = Some {| res_Matched := true; res_Rule := Some R2; res_Action := ActionAllow;
            res_Message := EmptyString; res_Reference := EmptyString |}.
Proof. vm_compute. reflexivity. Qed.

Example evaluate_empty_registry_warn ctx :
  Evaluate (NewEvaluator (Some NewRegistry) [WithDefaultAction ActionWarn]) ctx
  = Some {| res_Matched := false; res_Rule := None; res_Action := ActionWarn;
            res_Message := EmptyString; res_Reference := EmptyString |}.
Proof. reflexivity. Qed.

(** [EvaluateAll] collects behind what it was given, and its first new
    result is the one [Evaluate] returns. *)
Lemma EvaluateAll_loop_first e ctx rs acc out :
  EvaluateAll_loop ctx rs acc = Some out ->
  exists tail, out = acc ++ tail /\
    match tail with
    | [] => True
    | res :: _ => Evaluate_loop e ctx rs = Some res
    end.
Proof.
  revert acc. induction rs as [|x rs IH]; intros acc; cbn.
  - intros [= <-]. exists []. now rewrite app_nil_r.
  - destruct (Match (cr_Matcher x) ctx) as [[|]|]; [| |discriminate].
    + destruct (matched_result x) as [res|]; [|discriminate]. intros Hloop.
      destruct (IH _ Hloop) as (tail & -> & _).
      exists (res :: tail). now rewrite <- app_assoc.
    + apply IH.
Qed.

(** C9.  [Evaluate] does not read the stop-on-first-match flag: evaluators
    that agree on the registry and the default action return the same
    result, in particular one built with the flag false and one built with
    it true; and when [EvaluateAll] returns a non-empty list, [Evaluate]
    returns its first element. *)
Theorem C9_evaluate_ignores_stop_flag :
  (forall e1 e2 ctx,
      e_registry e1 = e_registry e2 -> e_defaultAction e1 = e_defaultAction e2 ->
      Evaluate e1 ctx = Evaluate e2 ctx) /\
  (forall registry opts ctx,
      Evaluate (NewEvaluator registry (opts ++ [WithStopOnFirstMatch false])) ctx
      = Evaluate (NewEvaluator registry (opts ++ [WithStopOnFirstMatch true])) ctx) /\
  (forall e ctx res rest,
      EvaluateAll e ctx = Some (res :: rest) -> Evaluate e ctx = Some res).
Proof.
  assert (forall e1 e2 ctx,
      e_registry e1 = e_registry e2 -> e_defaultAction e1 = e_defaultAction e2 ->
      Evaluate e1 ctx = Evaluate e2 ctx) as Hsame.
  { intros e1 e2 ctx Hr Hd. unfold Evaluate. rewrite Hr.
    destruct (e_registry e2) as [reg|]; [|unfold unmatched; now rewrite Hd].
    cbv zeta. destruct (length (GetEnabled reg) =? 0)%nat;
      [unfold unmatched; now rewrite Hd|].
    induction (GetEnabled reg) as [|x rs IH]; cbn; [unfold unmatched; now rewrite Hd|].
    destruct (Match (cr_Matcher x) ctx) as [[|]|]; auto. }
  split; [exact Hsame|]. split.
  - intros registry opts ctx. unfold NewEvaluator. rewrite !fold_left_app. cbn.
    apply Hsame; reflexivity.
  - intros e ctx res rest. unfold EvaluateAll, Evaluate.
    destruct (e_registry e) as [reg|]; [|discriminate]. cbv zeta.
    destruct (GetEnabled reg) as [|x rs] eqn:Hen; [discriminate|].
    change (length (x :: rs) =? 0)%nat with false. cbv iota. intros Hall.
    destruct (EvaluateAll_loop_first e _ _ _ _ Hall) as (tail & Ht & Hfirst).
    cbn in Ht. subst tail. exact Hfirst.
Qed.

(** C9 on the end-to-end example: both rules match a push to origin, and
    [Evaluate] returns the first of them under either flag. *)
Lemma C9_evaluate_ignores_stop_flag_witness :
  Evaluate (WithStopOnFirstMatch false (evaluator_of [R2; R1]))
           (Some (remote_context "origin"))
  = Some {| res_Matched := true; res_Rule := Some R1; res_Action := ActionBlock;
            res_Message := "no origin push"; res_Reference := EmptyString |}.
Proof.
  destruct C9_evaluate_ignores_stop_flag as (_ & _ & Hall).
  apply (Hall _ _ _ [ {| res_Matched := true; res_Rule := Some R2;
                         res_Action := ActionAllow; res_Message := EmptyString;
                         res_Reference := EmptyString |} ]).
  vm_compute. reflexivity.
Defined.

(** ** Suffixes and prefixes of strings *)

Lemma substring_whole s : String.substring 0 (String.length s) s = s.
Proof. induction s as [|a s IH]; cbn; [|rewrite IH]; reflexivity. Qed.

Lemma append_cons a s t :
  String.append (String a s) t = String a (String.append s t).
Proof. reflexivity. Qed.

Lemma append_nil t : String.append EmptyString t = t.
Proof. reflexivity. Qed.

Lemma substring_split k s :
  (k <= String.length s)%nat ->
  String.append (String.substring 0 k s)
                (String.substring k (String.length s - k) s) = s.
Proof.
  revert s. induction k as [|k IH]; intros s Hk.
  - rewrite Nat.sub_0_r, substring_whole. destruct s; reflexivity.
  - destruct s as [|a s]; cbn in Hk; [lia|]. cbn. rewrite append_cons.
    f_equal. apply IH. lia.
Qed.

Lemma length_append s t :
  String.length (String.append s t) = (String.length s + String.length t)%nat.
Proof.
  induction s as [|a s IH]; [reflexivity|].
  rewrite append_cons. cbn. now rewrite IH.
Qed.

Lemma substring_append_l s t :
  String.substring 0 (String.length s) (String.append s t) = s.
Proof.
  induction s as [|a s IH].
  - rewrite append_nil. destruct t; reflexivity.
  - rewrite append_cons. cbn. now rewrite IH.
Qed.

Lemma substring_append_r s t :
  String.substring (String.length s) (String.length t) (String.append s t) = t.
Proof.
  induction s as [|a s IH].
  - rewrite append_nil. apply substring_whole.
  - rewrite append_cons. cbn. exact IH.
Qed.

(** Cancelling a common suffix. *)
Lemma append_inj_l s1 s2 t :
  String.append s1 t = String.append s2 t -> s1 = s2.
Proof.
  revert s2. induction s1 as [|a s1 IH]; intros [|b s2] H.
  - reflexivity.
  - apply (f_equal String.length) in H.
    rewrite append_nil, append_cons in H. cbn in H. rewrite length_append in H. lia.
  - apply (f_equal String.length) in H.
    rewrite append_nil, append_cons in H. cbn in H. rewrite length_append in H. lia.
  - rewrite !append_cons in H. injection H as -> H. f_equal. now apply IH.
Qed.

(** [CutSuffix] cuts exactly when the string ends with the suffix. *)
Lemma CutSuffix_true s suffix before :
  GoStrings.CutSuffix s suffix = (before, true) <-> s = String.append before suffix.
Proof.
  unfold GoStrings.CutSuffix, GoStrings.HasSuffix. split.
  - destruct (Nat.leb_spec (String.length suffix) (String.length s)) as [Hle|Hlt];
      [|discriminate]. cbn [andb].
    destruct (String.eqb_spec
                (String.substring (String.length s - String.length suffix)
                   (String.length suffix) s) suffix) as [He|]; [|discriminate].
    intros [= <-].
    rewrite <- (substring_split (String.length s - String.length suffix) s) at 1 by lia.
    f_equal. rewrite <- He at 3. f_equal. lia.
  - intros ->. rewrite length_append.
    replace (_ <=? _)%nat with true by (symmetry; apply Nat.leb_le; lia).
    replace (String.length before + String.length suffix - String.length suffix)%nat
      with (String.length before) by lia.
    rewrite substring_append_r, String.eqb_refl, substring_append_l. reflexivity.
Qed.

Lemma CutSuffix_false s suffix before :
  GoStrings.CutSuffix s suffix = (before, false) -> before = s.
Proof.
  unfold GoStrings.CutSuffix. destruct (GoStrings.HasSuffix s suffix); now intros [= <-].
Qed.

(** [HasPrefix] holds exactly when the string starts with the prefix. *)
Lemma HasPrefix_true s prefix :
  GoStrings.HasPrefix s prefix = true <-> exists rest, s = String.append prefix rest.
Proof.
  unfold GoStrings.HasPrefix. revert s.
  induction prefix as [|a p IH]; intros s; cbn.
  - split; [exists s; reflexivity | intros _; destruct s; reflexivity].
  - destruct s as [|b s].
    { split; [discriminate|]. intros [rest Hr]. rewrite append_cons in Hr. discriminate. }
    cbn. destruct (Ascii.ascii_dec a b) as [->|Hne].
    + rewrite IH. split; intros [rest Hr]; exists rest.
      * rewrite append_cons. congruence.
      * rewrite append_cons in Hr. congruence.
    + split; [discriminate|]. intros [rest Hr]. rewrite append_cons in Hr. congruence.
Qed.

(** The semantics of the validator-type matcher: the wildcard ["*"], or, on
    a non-empty validator type, the same type, or a condition
    ["category.*"] and a type that starts with ["category."]. *)
Lemma ValidatorTypeMatcher_semantics v c :
  Match (NewValidatorTypeMatcher v) (Some c) = Some true <->
  v = "*" \/
  (mc_ValidatorType c <> EmptyString /\
   (mc_ValidatorType c = v \/
    exists category rest,
      v = String.append category ".*" /\
      mc_ValidatorType c = String.append (String.append category ".") rest)).
Proof.
  cbn [NewValidatorTypeMatcher Match]. unfold ValidatorTypeMatcher_Match.
  destruct (String.eqb_spec v ValidatorAll) as [->|Hall]; [split; auto|].
  destruct (String.eqb_spec (mc_ValidatorType c) EmptyString) as [He|He].
  { split; [discriminate|]. intros [?|[? _]]; contradiction. }
  destruct (String.eqb_spec (mc_ValidatorType c) v) as [Hv|Hv]; [split; auto|].
  destruct (GoStrings.CutSuffix v ".*") as [before [|]] eqn:Hcut.
  - apply CutSuffix_true in Hcut. split.
    + intros [= Hp]. apply HasPrefix_true in Hp as [rest Hr]. right.
      split; [assumption|]. right. eauto.
    + intros [?|[_ [?|(category & rest & Hcat & Hrest)]]]; try contradiction.
      f_equal. apply HasPrefix_true.
      assert (category = before) as <-
        by (eapply append_inj_l; rewrite <- Hcat; exact Hcut).
      eauto.
  - split; [discriminate|].
    intros [?|[_ [?|(category & rest & Hcat & _)]]]; try contradiction.
    assert (GoStrings.CutSuffix v ".*" = (category, true)) as Hc
      by now apply CutSuffix_true.
    congruence.
Qed.

(** ** Filtering by validator type *)

Lemma filter_bool_cons {A} (f : A -> bool) x l :
  filter (fun y => Is_true (f y)) (x :: l)
  = if f x then x :: filter (fun y => Is_true (f y)) l
    else filter (fun y => Is_true (f y)) l.
Proof.
  rewrite filter_cons. destruct (f x); [now rewrite decide_True by exact I|].
  now rewrite decide_False by (intros []).
Qed.

Lemma FilterByValidator_loop_spec v rs acc :
  FilterByValidator_loop (Some (validator_context v)) rs acc
  = Some (acc ++ filter (fun x => Is_true (validator_applies v x)) rs).
Proof.
  revert acc. induction rs as [|x rs IH]; intros acc; cbn [FilterByValidator_loop].
  - now rewrite filter_nil, app_nil_r.
  - rewrite filter_bool_cons. unfold validator_applies at 1.
    destruct (r_Match (cr_Rule x)) as [m|].
    + destruct (String.eqb (rm_ValidatorType m) EmptyString); cbn [orb].
      * rewrite IH. now rewrite <- app_assoc.
      * destruct (Match_total (NewValidatorTypeMatcher (rm_ValidatorType m))
                    (validator_context v)) as [[|] ->].
        -- rewrite IH. now rewrite <- app_assoc.
        -- now rewrite IH.
    + rewrite IH. now rewrite <- app_assoc.
Qed.

(** When a rule applies to a validator type, in the words of the claim. *)
Lemma validator_applies_iff v x :
  validator_applies v x = true <->
  r_Match (cr_Rule x) = None \/
  exists m, r_Match (cr_Rule x) = Some m /\
    (rm_ValidatorType m = EmptyString \/
     rm_ValidatorType m = "*" \/
     (v <> EmptyString /\
      (v = rm_ValidatorType m \/
       exists category rest,
         rm_ValidatorType m = String.append category ".*" /\
         v = String.append (String.append category ".") rest))).
Proof.
  unfold validator_applies. destruct (r_Match (cr_Rule x)) as [m|].
  - pose proof (ValidatorTypeMatcher_semantics (rm_ValidatorType m) (validator_context v))
      as Hsem. cbn [mc_ValidatorType validator_context] in Hsem.
    destruct (String.eqb_spec (rm_ValidatorType m) EmptyString) as [He|He]; cbn [orb].
    + split; [|reflexivity]. intros _. right. exists m. auto.
    + destruct (Match (NewValidatorTypeMatcher (rm_ValidatorType m))
                  (Some (validator_context v))) as [[|]|].
      * split; [|reflexivity]. intros _. right. exists m. split; [reflexivity|].
        right. now apply Hsem.
      * split; [discriminate|]. intros [[=]|(m' & [= <-] & [?|H])]; [contradiction|].
        apply Hsem in H. discriminate.
      * split; [discriminate|]. intros [[=]|(m' & [= <-] & [?|H])]; [contradiction|].
        apply Hsem in H. discriminate.
  - split; auto.
Qed.

(** C8, as the code has it.  [FilterByValidator] returns, in registry
    order, exactly the enabled rules that apply to the validator type: the
    rules without a validator-type condition (nil match block or empty
    field) and the rules whose condition matches the type (["*"], the same
    type, or ["category.*"] for a type starting with ["category."]).
    Disabled rules are never returned, and a nil registry gives no rule.
    For ["git.push"], a rule without condition and a rule with ["git.*"]
    are returned, a rule with ["file.markdown"] is not. *)
Theorem C8_filter_by_validator :
  (forall e v,
      FilterByValidator e v
      = Some match e_registry e with
             | None => []
             | Some reg =>
                 filter (fun x => Is_true (validator_applies v x)) (GetEnabled reg)
             end) /\
  (forall e v reg x,
      e_registry e = Some reg ->
      (exists out, FilterByValidator e v = Some out /\
         (x ∈ out <->
          x ∈ rules reg /\ r_Enabled (cr_Rule x) = true /\
          (r_Match (cr_Rule x) = None \/
           exists m, r_Match (cr_Rule x) = Some m /\
             (rm_ValidatorType m = EmptyString \/
              rm_ValidatorType m = "*" \/
              (v <> EmptyString /\
               (v = rm_ValidatorType m \/
                exists category rest,
                  rm_ValidatorType m = String.append category ".*" /\
                  v = String.append (String.append category ".") rest))))))) /\
  (rule_names <$> FilterByValidator (evaluator_of [rule_any; rule_git; rule_markdown])
                                    "git.push")
  = Some ["any"; "git"].
Proof.
  assert (forall e v,
      FilterByValidator e v
      = Some match e_registry e with
             | None => []
             | Some reg =>
                 filter (fun x => Is_true (validator_applies v x)) (GetEnabled reg)
             end) as Hspec.
  { intros e v. unfold FilterByValidator. destruct (e_registry e) as [reg|]; [|reflexivity].
    cbv zeta. destruct (GetEnabled reg) as [|x rs]; [reflexivity|].
    change (length (x :: rs) =? 0)%nat with false. cbv iota.
    now rewrite FilterByValidator_loop_spec. }
  split; [exact Hspec|]. split.
  - intros e v reg x Hreg. rewrite Hspec, Hreg. eexists. split; [reflexivity|].
    rewrite list_elem_of_filter, Is_true_true, validator_applies_iff, GetEnabled_elem_of.
    tauto.
  - vm_compute. reflexivity.
Qed.

(** C8, the part of the claim the code does not have: a registered rule
    without any validator-type condition that the filter does not return,
    because it is disabled. *)
Lemma C8_disabled_rule_left_out :
  rules (registry_of [disabled_rule])
    = [ {| cr_Rule := disabled_rule; cr_Matcher := AlwaysMatcher |} ] /\
  r_Match disabled_rule = None /\
  FilterByValidator (evaluator_of [disabled_rule]) "git.push" = Some [].
Proof. repeat split. Qed.

(** C8 on a registry with an enabled and a disabled rule without
    condition: only the enabled one is returned. *)
Lemma C8_filter_by_validator_witness :
  exists out,
    FilterByValidator (evaluator_of [rule_any; disabled_rule]) "git.push" = Some out /\
    rule_names out = ["any"].
Proof.
  destruct C8_filter_by_validator as (Hspec & _ & _).
  eexists. split; [apply Hspec|]. vm_compute. reflexivity.
Defined.

(** ** The registry on concrete rules *)

Example sort_order_example :
  rule_names (rules (registry_of [rule_b; rule_a; rule_c])) = ["c"; "a"; "b"].
Proof. vm_compute. reflexivity. Qed.

(** C4 on a concrete run: three rules, one of them added again under its
    name with another priority, a removal and a merge. *)
Lemma C4_registry_invariant_witness :
  registry_sorted
    (fst (run_ops toy_Compile toy_Compile
            [ OpAdd (Some rule_b); OpAdd (Some rule_a); OpAdd (Some rule_c);
              OpAdd (Some (plain_rule "b" 30 true ActionWarn EmptyString));
              OpRemove "a"; OpMerge (Some (registry_of [R2; R1])) ]
            (NewRegistry, fresh_env))).
Proof. apply (proj1 (C4_registry_invariant toy_Compile toy_Compile)). Defined.

Example run_order_example :
  rule_names
    (rules (fst (run_ops toy_Compile toy_Compile
                   [ OpAdd (Some rule_b); OpAdd (Some rule_a); OpAdd (Some rule_c);
                     OpAdd (Some (plain_rule "b" 30 true ActionWarn EmptyString));
                     OpRemove "a"; OpMerge (Some (registry_of [R2; R1])) ]
                   (NewRegistry, fresh_env))))
  = ["R1"; "b"; "c"; "R2"].
Proof. vm_compute. reflexivity. Qed.

(** C5 on a rule whose repository pattern does not compile: [Add] fails,
    and the registry is the one it was given. *)
Lemma C5_add_failure_unchanged_witness :
  snd (fst (Add toy_Compile toy_Compile (Some (repo_rule "bad" 50 "[invalid"))
              (registry_of [R2; R1]) fresh_env))
  = registry_of [R2; R1].
Proof.
  destruct (Add toy_Compile toy_Compile (Some (repo_rule "bad" 50 "[invalid"))
              (registry_of [R2; R1]) fresh_env) as [[[err|] r'] env'] eqn:Ha; cbn.
  - exact (proj1 (C5_add_failure_unchanged toy_Compile toy_Compile _ _) _ _ _ _ Ha).
  - vm_compute in Ha. discriminate Ha.
Defined.

(** The failing [Add] leaves its trace in the pattern cache, not in the
    registry. *)
Example add_failure_caches_error :
  let '(err, _, env') :=
    Add toy_Compile toy_Compile (Some (repo_rule "bad" 50 "[invalid"))
      (registry_of [R2; R1]) fresh_env in
  err = Some "failed to compile rule matcher: missing closing bracket" /\
  errors (defaultCache env') !! "[invalid" = Some "missing closing bracket".
Proof. vm_compute. split; reflexivity. Qed.

(** After [Clear] the same text is compiled again, into a new instance. *)
Example clear_then_get_recompiles :
  let '(r1, c1, w1) :=
    PatternCache_Get toy_Compile toy_Compile "*/test/*" NewPatternCache fresh_world in
  let '(r2, _, w2) :=
    PatternCache_Get toy_Compile toy_Compile "*/test/*" (PatternCache_Clear c1) w1 in
  match r1, r2 with
  | inl p1, inl p2 => pat_addr p1 = 0%nat /\ pat_addr p2 = 1%nat
  | _, _ => False
  end /\
  compile_log w2 = ["*/test/*"; "*/test/*"].
Proof. vm_compute. repeat split; reflexivity. Qed.

(** ** Further properties of the engine *)

Lemma EvaluateAll_loop_spec c rs acc :
  Forall has_action rs ->
  EvaluateAll_loop (Some c) rs acc
  = Some (acc ++ omap matched_result (filter (fun x => Is_true (rule_matches c x)) rs)).
Proof.
  intros Hrs. revert acc.
  induction Hrs as [|x rs [a Ha] _ IH]; intros acc; cbn [EvaluateAll_loop].
  - rewrite filter_nil. cbn. now rewrite app_nil_r.
  - rewrite filter_bool_cons. unfold rule_matches at 1.
    destruct (Match_total (cr_Matcher x) c) as [[|] ->].
    + cbn [omap list_omap]. unfold matched_result at 1 2. rewrite Ha. rewrite IH.
      now rewrite <- app_assoc.
    + apply IH.
Qed.

(** X1.  On a well-formed registry and a non-nil context [EvaluateAll]
    returns the results of all enabled rules that match, in registry
    order, each carrying its rule's action, message and reference. *)
Theorem X1_evaluate_all (e : Evaluator) (c : MatchContext) (reg : Registry) :
  e_registry e = Some reg -> registry_wf reg ->
  EvaluateAll e (Some c)
  = Some (omap matched_result
            (filter (fun x => Is_true (rule_matches c x)) (GetEnabled reg))) /\
  (forall res, res ∈ omap matched_result
                       (filter (fun x => Is_true (rule_matches c x)) (GetEnabled reg)) <->
     exists x a, x ∈ rules reg /\ r_Enabled (cr_Rule x) = true /\
                 Match (cr_Matcher x) (Some c) = Some true /\
                 r_Action (cr_Rule x) = Some a /\
                 res = {| res_Matched := true; res_Rule := Some (cr_Rule x);
                          res_Action := ra_Type a; res_Message := ra_Message a;
                          res_Reference := ra_Reference a |}).
Proof.
  intros Hreg [_ Hact]. split.
  - unfold EvaluateAll. rewrite Hreg. cbv zeta.
    destruct (GetEnabled reg) as [|x rs] eqn:Hen; [reflexivity|].
    change (length (x :: rs) =? 0)%nat with false. cbv iota.
    rewrite EvaluateAll_loop_spec; [reflexivity|].
    rewrite <- Hen. now apply GetEnabled_has_action.
  - intros res. rewrite list_elem_of_omap. split.
    + intros (x & Hx & Hres). apply list_elem_of_filter in Hx as [Hm Hx].
      apply Is_true_true, rule_matches_true in Hm.
      apply GetEnabled_elem_of in Hx as [Hx Hen].
      unfold matched_result in Hres.
      destruct (r_Action (cr_Rule x)) as [a|] eqn:Ha; [|discriminate].
      injection Hres as <-. exists x, a. auto.
    + intros (x & a & Hx & Hen & Hm & Ha & ->). exists x. split.
      * apply list_elem_of_filter. split.
        -- now apply Is_true_true, rule_matches_true.
        -- now apply GetEnabled_elem_of.
      * unfold matched_result. now rewrite Ha.
Qed.

(** X1 on the end-to-end example: a push to origin is matched by both
    rules, [R1] first. *)
Lemma X1_evaluate_all_witness :
  EvaluateAll (evaluator_of [R2; R1]) (Some (remote_context "origin"))
  = Some [ {| res_Matched := true; res_Rule := Some R1; res_Action := ActionBlock;
              res_Message := "no origin push"; res_Reference := EmptyString |};
           {| res_Matched := true; res_Rule := Some R2; res_Action := ActionAllow;
              res_Message := EmptyString; res_Reference := EmptyString |} ].
Proof.
  assert (registry_wf (registry_of [R2; R1])) as Hwf.
  { apply registry_of_wf. intros err r' env'. vm_compute. discriminate. }
  rewrite (proj1 (X1_evaluate_all (evaluator_of [R2; R1]) (remote_context "origin")
                    (registry_of [R2; R1]) eq_refl Hwf)).
  vm_compute. reflexivity.
Defined.

Section CacheSize.

Variable glob_Compile : string -> (string -> bool) + error.
Variable regexp_Compile : string -> (string -> bool) + error.

(** X2.  [Size] counts the successfully compiled texts: a lookup raises it
    by one exactly when the text was in neither map and compiled, and
    leaves it as it is when the text was cached or failed to compile. *)
Theorem X2_cache_size (t : string) (c : PatternCache) (w : World)
    (r : Pattern + error) (c1 : PatternCache) (w1 : World) :
  PatternCache_Get glob_Compile regexp_Compile t c w = (r, c1, w1) ->
  PatternCache_Size c1
  = match patterns c !! t, errors c !! t, r with
    | None, None, inl _ => S (PatternCache_Size c)
    | _, _, _ => PatternCache_Size c
    end.
Proof.
  unfold PatternCache_Get, PatternCache_Size.
  destruct (patterns c !! t) as [p|] eqn:Hp.
  { now intros [= <- <- <-]. }
  destruct (errors c !! t) as [err|] eqn:He.
  { now intros [= <- <- <-]. }
  destruct (CompilePattern glob_Compile regexp_Compile t w) as [[p|err] w'];
    intros [= <- <- <-]; cbn; [|reflexivity].
  now apply map_size_insert_None.
Qed.

End CacheSize.

(** X2 on a new cache: two texts, the first one looked up again. *)
Lemma X2_cache_size_witness :
  PatternCache_Size
    (fst (get_all toy_Compile toy_Compile ["pattern1"; "pattern2"; "pattern1"]
            NewPatternCache fresh_world)) = 2%nat /\
  (let '(_, c1, _) :=
     PatternCache_Get toy_Compile toy_Compile "pattern1" NewPatternCache fresh_world in
   PatternCache_Size c1 = 1%nat).
Proof.
  split; [vm_compute; reflexivity|].
  destruct (PatternCache_Get toy_Compile toy_Compile "pattern1" NewPatternCache
              fresh_world) as [[r c1] w1] eqn:Hg.
  rewrite (X2_cache_size toy_Compile toy_Compile _ _ _ _ _ _ Hg).
  vm_compute in Hg. injection Hg as <- _ _. reflexivity.
Defined.

(** X3.  The semantics of the validator-type matcher on a non-nil context:
    it matches exactly when it is configured with ["*"], or the validator
    type of the context is non-empty and is the configured type, or the
    configured type is ["category.*"] and the validator type starts with
    ["category."]. *)
Theorem X3_validator_type_semantics (v : string) (c : MatchContext) :
  Match (NewValidatorTypeMatcher v) (Some c) = Some true <->
  v = "*" \/
  (mc_ValidatorType c <> EmptyString /\
   (mc_ValidatorType c = v \/
    exists category rest,
      v = String.append category ".*" /\
      mc_ValidatorType c = String.append (String.append category ".") rest)).
Proof. apply ValidatorTypeMatcher_semantics. Qed.

(** X3 on the file category. *)
Lemma X3_validator_type_semantics_witness :
  Match (NewValidatorTypeMatcher "file.*") (Some (validator_context "file.markdown"))
  = Some true.
Proof.
  apply X3_validator_type_semantics. right. split; [discriminate|]. right.
  exists "file", "markdown". split; reflexivity.
Defined.

(** In a list with unique names, the entries around [y] are the entries
    of another name. *)
Lemma elem_of_around l1 y l2 x :
  NoDup (rule_names (l1 ++ y :: l2)) ->
  x ∈ l1 ++ l2 <-> x ∈ l1 ++ y :: l2 /\ r_Name (cr_Rule x) <> r_Name (cr_Rule y).
Proof.
  intros Hnd. rewrite rule_names_app in Hnd. cbn in Hnd.
  apply NoDup_app in Hnd as (_ & Hdis & Hnd2). apply NoDup_cons in Hnd2 as [Hy2 _].
  assert (forall z l, z ∈ l -> r_Name (cr_Rule z) ∈ rule_names l) as Hin.
  { intros z l Hz. unfold rule_names. apply list_elem_of_fmap. eauto. }
  rewrite !elem_of_app, elem_of_cons. split.
  - intros [Hx|Hx]; (split; [tauto|]); intros Hn.
    + apply (Hdis _ (Hin _ _ Hx)). rewrite Hn. left.
    + apply Hy2. rewrite <- Hn. now apply Hin.
  - intros [[Hx|[->|Hx]] Hn]; [now left | congruence | now right].
Qed.

Lemma elem_of_overwrite l idx s x :
  NoDup (rule_names l) -> rule_names l !! idx = Some (r_Name (cr_Rule s)) ->
  x ∈ <[idx := s]> l <->
  x = s \/ (x ∈ l /\ r_Name (cr_Rule x) <> r_Name (cr_Rule s)).
Proof.
  intros Hnd Hidx. unfold rule_names in Hidx. rewrite list_lookup_fmap in Hidx.
  destruct (l !! idx) as [y|] eqn:Hy; [|discriminate]. cbn in Hidx.
  injection Hidx as Hname.
  pose proof (lookup_lt_Some _ _ _ Hy) as Hlt.
  rewrite insert_take_drop by assumption.
  rewrite <- (take_drop_middle l idx y Hy) in Hnd.
  pose proof (elem_of_around _ y _ x Hnd) as Har.
  rewrite (take_drop_middle l idx y Hy) in Har.
  rewrite elem_of_app in Har. rewrite elem_of_app, elem_of_cons.
  rewrite <- Hname. tauto.
Qed.

Lemma elem_of_delete_name l i y x :
  NoDup (rule_names l) -> l !! i = Some y ->
  x ∈ delete i l <-> x ∈ l /\ r_Name (cr_Rule x) <> r_Name (cr_Rule y).
Proof.
  intros Hnd Hy. rewrite delete_take_drop.
  rewrite <- (take_drop_middle l i y Hy) in Hnd.
  pose proof (elem_of_around _ y _ x Hnd) as Har.
  now rewrite (take_drop_middle l i y Hy) in Har.
Qed.

Lemma merge_loop_elem src rs existing x :
  NoDup (rule_names rs) -> index_ok rs existing -> NoDup (rule_names src) ->
  x ∈ merge_loop src rs existing <->
  x ∈ src \/ (x ∈ rs /\ r_Name (cr_Rule x) ∉ rule_names src).
Proof.
  revert rs existing. induction src as [|s rest IH]; intros rs existing Hnd Hok Hsrc; cbn.
  - split; [intros Hx; right; split; [assumption|]; intros H; inversion H|].
    intros [H|[H _]]; [inversion H | assumption].
  - cbn in Hsrc. apply NoDup_cons in Hsrc as [Hs Hrest].
    destruct (existing !! r_Name (cr_Rule s)) as [idx|] eqn:He.
    + pose proof (proj1 (Hok _ _) He) as Hidx.
      rewrite IH; [|now rewrite rule_names_overwrite
                   |intros n i; now rewrite rule_names_overwrite|assumption].
      rewrite (elem_of_overwrite _ _ _ _ Hnd Hidx), !elem_of_cons. split.
      * intros [Hx|[[->|[Hx Hn]] Hnr]]; [tauto | tauto |].
        right. split; [assumption|]. intros [Heq|Hin]; tauto.
      * intros [[->|Hx]|[Hx Hn]]; [right | left; assumption | right].
        -- split; [now left | assumption].
        -- split; [right; split; [assumption|]; intros Heq; apply Hn; now left|].
           intros Hin. apply Hn. now right.
    + assert (r_Name (cr_Rule s) ∉ rule_names rs) as Hfresh.
      { intros Hin. apply list_elem_of_lookup in Hin as [i Hi].
        apply Hok in Hi. congruence. }
      replace (length (rs ++ [s]) - 1)%nat with (length rs)
        by (rewrite length_app; cbn; lia).
      rewrite IH; [|now apply NoDup_rule_names_snoc|now apply index_ok_snoc|assumption].
      rewrite elem_of_app, list_elem_of_singleton, !elem_of_cons. split.
      * intros [Hx|[[Hx| ->] Hnr]]; [tauto | | tauto].
        right. split; [assumption|]. intros [Heq|Hin]; [|tauto].
        apply Hfresh. rewrite <- Heq. unfold rule_names. apply list_elem_of_fmap. eauto.
      * intros [[->|Hx]|[Hx Hn]]; [right; tauto | tauto |].
        right. split; [now left|]. intros Hin. apply Hn. now right.
Qed.

(** X4.  [Merge] with override by name: after merging a source whose
    names are unique into a registry whose names are unique, the registry
    holds every rule of the source, and of its own rules those whose name
    the source does not have. *)
Theorem X4_merge_overrides (src r : Registry) (x : CompiledRule) :
  NoDup (rule_names (rules r)) -> NoDup (rule_names (rules src)) ->
  x ∈ rules (Merge (Some src) r) <->
  x ∈ rules src \/
  (x ∈ rules r /\ r_Name (cr_Rule x) ∉ rule_names (rules src)).
Proof.
  intros Hr Hsrc. unfold Merge. rewrite sortRulesLocked_perm. cbn [rules].
  apply merge_loop_elem; [assumption| |assumption].
  apply (index_names_ok (rules r) [] ∅); [assumption | apply index_ok_nil].
Qed.

(** X4 on layered rules: the project's ["b"] replaces the global one, the
    global ["a"] stays, the project's ["c"] is added. *)
Lemma X4_merge_overrides_witness :
  rule_names (rules (Merge (Some (registry_of [rule_c; plain_rule "b" 30 true ActionWarn
                                                         EmptyString]))
                           (registry_of [rule_a; rule_b])))
    = ["b"; "c"; "a"] /\
  ({| cr_Rule := plain_rule "b" 30 true ActionWarn EmptyString;
      cr_Matcher := AlwaysMatcher |}
   ∈ rules (Merge (Some (registry_of [rule_c; plain_rule "b" 30 true ActionWarn
                                                 EmptyString]))
                  (registry_of [rule_a; rule_b]))).
Proof.
  split; [vm_compute; reflexivity|].
  apply X4_merge_overrides.
  - apply (bool_decide_unpack _). vm_compute. exact I.
  - apply (bool_decide_unpack _). vm_compute. exact I.
  - left. vm_compute. apply list_elem_of_In. cbn. auto.
Defined.

(** X5.  [Remove] on a registry with unique names reports whether the name
    was stored, and keeps exactly the rules of every other name. *)
Theorem X5_remove (name : string) (r : Registry) :
  NoDup (rule_names (rules r)) ->
  (fst (Remove name r) = true <-> name ∈ rule_names (rules r)) /\
  (forall x, x ∈ rules (snd (Remove name r)) <->
             x ∈ rules r /\ r_Name (cr_Rule x) <> name).
Proof.
  intros Hnd. unfold Remove.
  destruct (list_find _ (rules r)) as [[i y]|] eqn:Hf; cbn.
  - apply list_find_Some in Hf as (Hi & Hn & _). split.
    + split; [|reflexivity]. intros _. unfold rule_names.
      apply list_elem_of_fmap. exists y. split; [now rewrite Hn|].
      eapply list_elem_of_lookup_2. eassumption.
    + intros x. rewrite <- Hn. now apply elem_of_delete_name.
  - apply list_find_name_None in Hf. split.
    + split; [discriminate | contradiction].
    + intros x. split; [|tauto]. intros Hx. split; [assumption|].
      intros Hn. apply Hf. rewrite <- Hn. unfold rule_names.
      apply list_elem_of_fmap. eauto.
Qed.

(** X5 on the sort example: removing ["a"] leaves ["c"] and ["b"]. *)
Lemma X5_remove_witness :
  fst (Remove "a" (registry_of [rule_b; rule_a; rule_c])) = true /\
  rule_names (rules (snd (Remove "a" (registry_of [rule_b; rule_a; rule_c]))))
    = ["c"; "b"].
Proof.
  split; [|vm_compute; reflexivity].
  apply (X5_remove "a" (registry_of [rule_b; rule_a; rule_c])).
  - apply (bool_decide_unpack _). vm_compute. exact I.
  - vm_compute. apply list_elem_of_In. cbn. auto.
Defined.

(** ** Lookup by name *)

(** [Get] on a registry with unique names: the rule of that name, if it is
    stored. *)
Lemma Get_Some_iff r n x :
  NoDup (rule_names (rules r)) ->
  Get n r = Some x <-> x ∈ rules r /\ r_Name (cr_Rule x) = n.
Proof.
  intros Hnd. split.
  - unfold Get. destruct (list_find _ (rules r)) as [[i y]|] eqn:Hf; [|discriminate].
    cbn. intros [= <-]. apply list_find_Some in Hf as (Hi & Hn & _).
    split; [eapply list_elem_of_lookup_2; eassumption | assumption].
  - intros [Hx <-]. now apply Get_elem_of.
Qed.

Lemma Get_None_iff r n : Get n r = None <-> n ∉ rule_names (rules r).
Proof.
  unfold Get. destruct (list_find _ (rules r)) as [[i y]|] eqn:Hf; cbn.
  - split; [discriminate|]. intros Hn. elim Hn.
    apply list_find_name_Some in Hf as [_ Hf]. eapply list_elem_of_lookup_2. eassumption.
  - split; [|reflexivity]. intros _. now apply list_find_name_None.
Qed.

(** Two registries with unique names that hold the same rules answer
    [Get] alike. *)
Lemma Get_ext r1 r2 n :
  NoDup (rule_names (rules r1)) -> NoDup (rule_names (rules r2)) ->
  (forall x, r_Name (cr_Rule x) = n -> x ∈ rules r1 <-> x ∈ rules r2) ->
  Get n r1 = Get n r2.
Proof.
  intros H1 H2 Hsame. destruct (Get n r2) as [x|] eqn:Hg.
  - apply (Get_Some_iff _ _ _ H2) in Hg as [Hx Hn].
    apply (Get_Some_iff _ _ _ H1). split; [now apply Hsame | assumption].
  - destruct (Get n r1) as [y|] eqn:Hg1; [|reflexivity].
    apply (Get_Some_iff _ _ _ H1) in Hg1 as [Hy Hn].
    apply (Hsame y Hn) in Hy.
    assert (Get n r2 = Some y) as Hc by now apply Get_Some_iff.
    congruence.
Qed.

Section AddLookup.

Variable glob_Compile : string -> (string -> bool) + error.
Variable regexp_Compile : string -> (string -> bool) + error.

(** The rules of a registry after a successful [Add]. *)
Lemma Add_elem_of ru r env r' env' :
  NoDup (rule_names (rules r)) ->
  Add glob_Compile regexp_Compile (Some ru) r env = (None, r', env') ->
  exists m, forall x,
    x ∈ rules r' <->
    x = {| cr_Rule := ru; cr_Matcher := m |} \/
    (x ∈ rules r /\ r_Name (cr_Rule x) <> r_Name ru).
Proof.
  intros Hnd Ha.
  apply Add_success in Ha as (ru' & m & [= <-] & _ & _ & Hcase).
  exists m. intros x.
  destruct Hcase as [(i & y & Hf & ->)|(Hf & ->)]; rewrite sortRulesLocked_perm; cbn.
  - apply list_find_name_Some in Hf as [_ Hn].
    now rewrite (elem_of_overwrite _ _ {| cr_Rule := ru; cr_Matcher := m |} x Hnd Hn).
  - apply list_find_name_None in Hf.
    rewrite elem_of_app, list_elem_of_singleton. split.
    + intros [Hx| ->]; [|now left]. right. split; [assumption|].
      intros Hn. apply Hf. rewrite <- Hn. unfold rule_names.
      apply list_elem_of_fmap. eauto.
    + intros [->|[Hx _]]; [now right | now left].
Qed.

(** X6.  [Add] then [Get]: after a successful [Add] on a registry with
    unique names, [Get] under the rule's name returns the new rule, [Get]
    under any other name returns what it returned before, and the size
    grows by one exactly when the name was not stored. *)
Theorem X6_add_then_get (ru : Rule) (r : Registry) (env : Env)
    (r' : Registry) (env' : Env) :
  NoDup (rule_names (rules r)) ->
  Add glob_Compile regexp_Compile (Some ru) r env = (None, r', env') ->
  (exists m, Get (r_Name ru) r' = Some {| cr_Rule := ru; cr_Matcher := m |}) /\
  (forall n, n <> r_Name ru -> Get n r' = Get n r) /\
  Size r' = match Get (r_Name ru) r with
            | Some _ => Size r
            | None => S (Size r)
            end.
Proof.
  intros Hnd Ha.
  assert (NoDup (rule_names (rules r'))) as Hnd'.
  { pose proof (Add_success _ _ _ _ _ _ _ Ha)
      as (ru' & m & [= <-] & _ & _ & [(i & y & Hf & ->)|(Hf & ->)]).
    - rewrite (rule_names_perm _ _ (sortRulesLocked_perm _)). cbn.
      apply list_find_name_Some in Hf as [_ Hn]. now rewrite rule_names_overwrite.
    - rewrite (rule_names_perm _ _ (sortRulesLocked_perm _)). cbn.
      apply list_find_name_None in Hf. now apply NoDup_rule_names_snoc. }
  destruct (Add_elem_of _ _ _ _ _ Hnd Ha) as [m Hel].
  split; [|split].
  - exists m. apply (Get_Some_iff _ _ _ Hnd'). split; [|reflexivity].
    apply Hel. now left.
  - intros n Hn. apply Get_ext; [assumption..|].
    intros x Hx. rewrite Hel. split.
    + intros [->|[Hin _]]; [cbn in Hx; congruence | assumption].
    + intros Hin. right. split; [assumption | congruence].
  - apply Add_success in Ha as (ru' & m' & [= <-] & _ & _ & Hcase).
    unfold Get, Size.
    destruct Hcase as [(i & y & Hf & ->)|(Hf & ->)]; rewrite Hf; cbn;
      rewrite (Permutation_length (merge_sort_Permutation _ _)).
    + apply length_insert.
    + rewrite length_app. cbn. lia.
Qed.

(** [AddAll] over a list cut in two. *)
Lemma AddAll_app rs1 rs2 r env :
  AddAll glob_Compile regexp_Compile (rs1 ++ rs2) r env
  = match AddAll glob_Compile regexp_Compile rs1 r env with
    | (Some err, r1, env1) => (Some err, r1, env1)
    | (None, r1, env1) => AddAll glob_Compile regexp_Compile rs2 r1 env1
    end.
Proof.
  revert r env. induction rs1 as [|rule rs1 IH]; intros r env; cbn; [reflexivity|].
  destruct (Add glob_Compile regexp_Compile rule r env) as [[[err|] r1] env1];
    [reflexivity | apply IH].
Qed.

(** X7.  [AddAll] stops at the first rule that [Add] refuses: it returns
    that error, the rules before it stay registered, the rules behind it
    are not looked at, and the registry is the one the accepted rules
    built. *)
Theorem X7_add_all_stops (pre post : list (option Rule)) (bad : option Rule)
    (r r1 : Registry) (env env1 env2 : Env) (err : error) (r2 : Registry) :
  AddAll glob_Compile regexp_Compile pre r env = (None, r1, env1) ->
  Add glob_Compile regexp_Compile bad r1 env1 = (Some err, r2, env2) ->
  AddAll glob_Compile regexp_Compile (pre ++ bad :: post) r env = (Some err, r1, env2) /\
  r1 = fst (run_ops glob_Compile regexp_Compile (OpAdd <$> pre) (r, env)).
Proof.
  intros Hpre Hbad. split.
  - rewrite AddAll_app, Hpre. cbn. rewrite Hbad.
    now rewrite (Add_failure _ _ _ _ _ _ _ _ Hbad).
  - rewrite <- AddAll_as_ops; [now rewrite Hpre|].
    intros e r' env'. rewrite Hpre. discriminate.
Qed.

End AddLookup.

(** X6 on the end-to-end registry: adding a rule named ["R1"] again
    replaces it, and ["R2"] is found as before. *)
Lemma X6_add_then_get_witness :
  Get "R2" (snd (fst (Add toy_Compile toy_Compile
                        (Some (plain_rule "R1" 7 true ActionWarn EmptyString))
                        (registry_of [R2; R1]) fresh_env)))
  = Get "R2" (registry_of [R2; R1]).
Proof.
  destruct (Add toy_Compile toy_Compile
              (Some (plain_rule "R1" 7 true ActionWarn EmptyString))
              (registry_of [R2; R1]) fresh_env) as [[[err|] r'] env'] eqn:Ha.
  - vm_compute in Ha. discriminate Ha.
  - cbn.
    refine (proj1 (proj2 (X6_add_then_get toy_Compile toy_Compile _ _ _ _ _ _ Ha)) "R2" _).
    + apply (bool_decide_unpack _). vm_compute. exact I.
    + discriminate.
Defined.

(** X7 on three rules, the second without a name: ["a"] is registered,
    ["c"] is not. *)
Lemma X7_add_all_stops_witness :
  AddAll toy_Compile toy_Compile
    ([Some rule_a] ++ Some (plain_rule EmptyString 5 true ActionBlock EmptyString)
                   :: [Some rule_c])
    NewRegistry fresh_env
  = (Some "rule name cannot be empty", registry_of [rule_a], fresh_env).
Proof.
  refine (proj1 (X7_add_all_stops toy_Compile toy_Compile _ _ _ _ _ _ _ _ _ _ _ _)).
  - vm_compute. reflexivity.
  - vm_compute. reflexivity.
Defined.

(** ** What the evaluator returns *)

Lemma FindMatchingRules_loop_spec ctx rs (acc : list RuleResult) (matching : list Rule) :
  Forall has_action rs -> result_rules acc = matching ->
  result_rules <$> EvaluateAll_loop ctx rs acc = FindMatchingRules_loop ctx rs matching.
Proof.
  intros Hrs. revert acc matching.
  induction Hrs as [|x rs [a Ha] _ IH]; intros acc matching Hacc; cbn.
  - now rewrite Hacc.
  - destruct (Match (cr_Matcher x) ctx) as [[|]|]; [| |reflexivity].
    + unfold matched_result. rewrite Ha. apply IH.
      unfold result_rules in *. rewrite omap_app, Hacc. reflexivity.
    + now apply IH.
Qed.

(** X8.  [FindMatchingRules] returns the rules of the results of
    [EvaluateAll], in the same order, and panics when [EvaluateAll] does;
    this holds on every context, nil included. *)
Theorem X8_find_matching_rules (e : Evaluator) (ctx : option MatchContext) :
  (forall reg, e_registry e = Some reg -> Forall has_action (rules reg)) ->
  FindMatchingRules e ctx = result_rules <$> EvaluateAll e ctx.
Proof.
  intros Hwf. unfold FindMatchingRules, EvaluateAll.
  destruct (e_registry e) as [reg|] eqn:Hreg; [|reflexivity]. cbv zeta.
  destruct (length (GetEnabled reg) =? 0)%nat; [reflexivity|].
  symmetry. apply FindMatchingRules_loop_spec; [|reflexivity].
  apply GetEnabled_has_action. now apply Hwf.
Qed.

(** X8 on the end-to-end example. *)
Lemma X8_find_matching_rules_witness :
  FindMatchingRules (evaluator_of [R2; R1]) (Some (remote_context "origin"))
  = Some [R1; R2].
Proof.
  rewrite X8_find_matching_rules.
  - vm_compute. reflexivity.
  - intros reg [= <-]. apply registry_of_wf.
    intros err r' env'. vm_compute. discriminate.
Defined.

(** What [Evaluate_loop] returns, read backwards: a matched result comes
    from the first rule that matches, an unmatched one from a walk in which
    nothing matched. *)
Lemma Evaluate_loop_inv e c rs res :
  Forall has_action rs ->
  Evaluate_loop e (Some c) rs = Some res ->
  (res_Matched res = true /\
   exists pre first post,
     rs = pre ++ first :: post /\
     Forall (fun x => Match (cr_Matcher x) (Some c) = Some false) pre /\
     Match (cr_Matcher first) (Some c) = Some true /\
     matched_result first = Some res) \/
  (res = unmatched e /\
   Forall (fun x => Match (cr_Matcher x) (Some c) = Some false) rs).
Proof.
  intros Hrs. induction Hrs as [|x rs [a Ha] _ IH]; cbn.
  - intros [= <-]. right. split; [reflexivity | constructor].
  - destruct (Match (cr_Matcher x) (Some c)) as [[|]|] eqn:Hx; [| |discriminate].
    + intros Hres. left. split.
      * unfold matched_result in Hres. rewrite Ha in Hres. now injection Hres as <-.
      * exists [], x, rs. repeat split; [constructor | assumption..].
    + intros Hres. destruct (IH Hres) as [(Hm & pre & first & post & -> & Hpre & Hf & Hr)
                                         |(-> & Hnone)].
      * left. split; [assumption|]. exists (x :: pre), first, post.
        repeat split; [now constructor | assumption..].
      * right. split; [reflexivity | now constructor].
Qed.

(** X9.  The rule [Evaluate] answers with wins over every other enabled
    rule that matches: it has the higher priority, or the same priority
    and the smaller name.  And [Evaluate] answers matched=false only when
    no enabled rule of the registry matches. *)
Theorem X9_evaluate_highest_priority (e : Evaluator) (c : MatchContext)
    (reg : Registry) (res : RuleResult) :
  e_registry e = Some reg -> registry_wf reg ->
  Evaluate e (Some c) = Some res ->
  (res_Matched res = true ->
   exists first,
     first ∈ rules reg /\ r_Enabled (cr_Rule first) = true /\
     Match (cr_Matcher first) (Some c) = Some true /\
     res_Rule res = Some (cr_Rule first) /\
     forall y,
       y ∈ rules reg -> r_Enabled (cr_Rule y) = true ->
       Match (cr_Matcher y) (Some c) = Some true -> y <> first ->
       r_Priority (cr_Rule y) < r_Priority (cr_Rule first) \/
       (r_Priority (cr_Rule y) = r_Priority (cr_Rule first) /\
        String.compare (r_Name (cr_Rule first)) (r_Name (cr_Rule y)) = Lt)) /\
  (res_Matched res = false ->
   forall y,
     y ∈ rules reg -> r_Enabled (cr_Rule y) = true ->
     Match (cr_Matcher y) (Some c) = Some false).
Proof.
  intros Hreg [[Hnd Hsorted] Hact] Heval.
  rewrite (Evaluate_unfold _ _ _ Hreg) in Heval.
  apply Evaluate_loop_inv in Heval; [|now apply GetEnabled_has_action].
  pose proof (GetEnabled_sorted reg (conj Hnd Hsorted)) as Hs.
  destruct Heval as [(Hm & pre & first & post & Hen & Hpre & Hfirst & Hres)|(-> & Hnone)].
  - split; [|congruence]. intros _. exists first.
    assert (first ∈ GetEnabled reg) as Hin.
    { rewrite Hen. apply elem_of_app. right. left. }
    apply GetEnabled_elem_of in Hin as [Hin Hon].
    repeat split; [assumption..| |].
    + unfold matched_result in Hres.
      destruct (r_Action (cr_Rule first)); [|discriminate]. now injection Hres as <-.
    + intros y Hy Hyon Hym Hne.
      assert (y ∈ GetEnabled reg) as Hyen by now apply GetEnabled_elem_of.
      rewrite Hen in Hyen, Hs.
      apply elem_of_app in Hyen as [Hyp|Hyp].
      { rewrite Forall_forall in Hpre. specialize (Hpre y Hyp). congruence. }
      apply elem_of_cons in Hyp as [->|Hyp]; [congruence|].
      apply StronglySorted_app_1_r in Hs. apply StronglySorted_inv in Hs as [_ Hall].
      rewrite Forall_forall in Hall. specialize (Hall y Hyp).
      apply rule_le_iff in Hall as [Hlt|[Heq Hcmp]]; [now left|]. right.
      split; [congruence|].
      destruct (String.compare (r_Name (cr_Rule first)) (r_Name (cr_Rule y))) eqn:Hc;
        [|reflexivity|congruence].
      apply String.compare_eq_iff in Hc.
      apply list_elem_of_lookup in Hin as [i Hi]. apply list_elem_of_lookup in Hy as [j Hj].
      assert (i = j) as ->; [|congruence].
      eapply NoDup_lookup; [exact Hnd| |]; unfold rule_names;
        rewrite list_lookup_fmap; [rewrite Hi | rewrite Hj]; cbn; [reflexivity|].
      now rewrite Hc.
  - split; [discriminate|]. intros _ y Hy Hyon.
    rewrite Forall_forall in Hnone. apply Hnone. now apply GetEnabled_elem_of.
Qed.

(** X9 on the end-to-end example.  On a push to origin both rules match:
    [Evaluate] answers with [R1], and [R2], the other matching rule, has
    the lower priority.  With [R1] alone and a push to upstream,
    [Evaluate] answers matched=false, and [R1] does not match. *)
Lemma X9_evaluate_highest_priority_witness :
  (exists first other,
      cr_Rule first = R1 /\ cr_Rule other = R2 /\
      first ∈ rules (registry_of [R2; R1]) /\
      other ∈ rules (registry_of [R2; R1]) /\
      Match (cr_Matcher first) (Some (remote_context "origin")) = Some true /\
      Match (cr_Matcher other) (Some (remote_context "origin")) = Some true /\
      (r_Priority (cr_Rule other) < r_Priority (cr_Rule first) \/
       (r_Priority (cr_Rule other) = r_Priority (cr_Rule first) /\
        String.compare (r_Name (cr_Rule first)) (r_Name (cr_Rule other)) = Lt))) /\
  (res_Matched (unmatched (evaluator_of [R1])) = false /\
   Evaluate (evaluator_of [R1]) (Some (remote_context "upstream"))
   = Some (unmatched (evaluator_of [R1])) /\
   Match (cr_Matcher {| cr_Rule := R1; cr_Matcher := RemoteMatcher "origin" |})
         (Some (remote_context "upstream")) = Some false).
Proof.
  split.
  - assert (registry_wf (registry_of [R2; R1])) as Hwf.
    { apply registry_of_wf. intros err r' env'. vm_compute. discriminate. }
    destruct (X9_evaluate_highest_priority (evaluator_of [R2; R1])
                (remote_context "origin") (registry_of [R2; R1])
                {| res_Matched := true; res_Rule := Some R1; res_Action := ActionBlock;
                   res_Message := "no origin push"; res_Reference := EmptyString |}
                eq_refl Hwf) as [Hmatched _].
    + vm_compute. reflexivity.
    + destruct (Hmatched eq_refl) as (first & Hin & _ & Hm & Hrule & Hbest).
      injection Hrule as Hrule.
      assert ({| cr_Rule := R2; cr_Matcher := AlwaysMatcher |}
                ∈ rules (registry_of [R2; R1])) as Hother.
      { vm_compute. apply list_elem_of_further, list_elem_of_here. }
      exists first, {| cr_Rule := R2; cr_Matcher := AlwaysMatcher |}.
      split; [now symmetry|]. split; [reflexivity|]. split; [assumption|].
      split; [assumption|]. split; [assumption|]. split; [reflexivity|].
      apply Hbest; [assumption | reflexivity | reflexivity |].
      intros <-. cbn in Hrule. discriminate Hrule.
  - assert (registry_wf (registry_of [R1])) as Hwf.
    { apply registry_of_wf. intros err r' env'. vm_compute. discriminate. }
    destruct (X9_evaluate_highest_priority (evaluator_of [R1])
                (remote_context "upstream") (registry_of [R1])
                (unmatched (evaluator_of [R1])) eq_refl Hwf) as [_ Hnone].
    + vm_compute. reflexivity.
    + split; [reflexivity|]. split; [vm_compute; reflexivity|].
      apply (Hnone eq_refl); [|reflexivity].
      vm_compute. apply list_elem_of_here.
Defined.

(** ** Pattern type detection *)

Lemma append_assoc s t u :
  String.append (String.append s t) u = String.append s (String.append t u).
Proof.
  induction s as [|a s IH]; [reflexivity|].
  rewrite !append_cons. now rewrite IH.
Qed.

Lemma Contains_unfold s sub :
  GoStrings.Contains s sub
  = String.prefix sub s ||
    match s with
    | EmptyString => false
    | String _ s' => GoStrings.Contains s' sub
    end.
Proof. destruct s; reflexivity. Qed.

(** [strings.Contains]: the substring stands somewhere in the string. *)
Lemma Contains_true s sub :
  GoStrings.Contains s sub = true <->
  exists a b, s = String.append a (String.append sub b).
Proof.
  split.
  - induction s as [|c s IH]; cbn.
    + rewrite orb_false_r. intros H.
      apply (HasPrefix_true EmptyString sub) in H as [rest Hr].
      exists EmptyString, rest. exact Hr.
    + intros H. apply orb_true_iff in H as [H|H].
      * apply (HasPrefix_true (String c s) sub) in H as [rest Hr].
        exists EmptyString, rest. exact Hr.
      * destruct (IH H) as (a & b & ->). exists (String c a), b. reflexivity.
  - intros (a & b & ->). induction a as [|c a IH].
    + rewrite append_nil.
      assert (String.prefix sub (String.append sub b) = true) as Hp.
      { apply (HasPrefix_true (String.append sub b) sub). eauto. }
      now rewrite Contains_unfold, Hp.
    + rewrite append_cons, Contains_unfold, IH. apply orb_true_r.
Qed.

Lemma Contains_extend s sub a b :
  GoStrings.Contains s sub = true ->
  GoStrings.Contains (String.append a (String.append s b)) sub = true.
Proof.
  intros H. apply Contains_true in H as (x & y & ->). apply Contains_true.
  exists (String.append a x), (String.append y b).
  now rewrite !append_assoc.
Qed.

(** X10.  [DetectPatternType] answers regex exactly when one of the
    sixteen indicators stands somewhere in the text.  Hence text added in
    front or behind never turns a regex into a glob, while two texts that
    are globs can be a regex when put together. *)
Theorem X10_detect_pattern_type :
  (forall p,
      DetectPatternType p = PatternTypeRegex <->
      exists ind a b, ind ∈ regexIndicators /\
                      p = String.append a (String.append ind b)) /\
  (forall p a b,
      DetectPatternType p = PatternTypeRegex ->
      DetectPatternType (String.append a (String.append p b)) = PatternTypeRegex) /\
  (DetectPatternType "src." = PatternTypeGlob /\
   DetectPatternType "*" = PatternTypeGlob /\
   DetectPatternType (String.append "src." "*") = PatternTypeRegex).
Proof.
  assert (forall p, DetectPatternType p = PatternTypeRegex <->
                    exists ind, ind ∈ regexIndicators /\
                                GoStrings.Contains p ind = true) as Hdet.
  { intros p. unfold DetectPatternType.
    destruct (existsb (GoStrings.Contains p) regexIndicators) eqn:He.
    - split; [|reflexivity]. intros _. apply existsb_exists in He as (ind & Hin & Hc).
      exists ind. split; [now apply list_elem_of_In | assumption].
    - split; [discriminate|]. intros (ind & Hin & Hc).
      assert (existsb (GoStrings.Contains p) regexIndicators = true) as Ht.
      { apply existsb_exists. exists ind. split; [now apply list_elem_of_In | assumption]. }
      congruence. }
  split; [|split].
  - intros p. rewrite Hdet. split.
    + intros (ind & Hin & Hc). apply Contains_true in Hc as (a & b & ->). eauto.
    + intros (ind & a & b & Hin & ->). exists ind. split; [assumption|].
      apply Contains_true. eauto.
  - intros p a b Hp. apply Hdet in Hp as (ind & Hin & Hc). apply Hdet.
    exists ind. split; [assumption | now apply Contains_extend].
  - repeat split.
Qed.

(** X10 on a path with a parenthesis in it. *)
Lemma X10_detect_pattern_type_witness :
  DetectPatternType (String.append "docs/" (String.append "(" "draft)/*.md"))
  = PatternTypeRegex.
Proof.
  apply (proj1 X10_detect_pattern_type).
  exists "(", "docs/", "draft)/*.md". split; [|reflexivity].
  apply list_elem_of_In. cbn. tauto.
Defined.

(** ** The cache holds what the compilers answer *)

Section CacheCoherence.

Variable glob_Compile : string -> (string -> bool) + error.
Variable regexp_Compile : string -> (string -> bool) + error.

Local Abbreviation coherent := (cache_coherent glob_Compile regexp_Compile).
Local Abbreviation answer := (compiler_answer glob_Compile regexp_Compile).

(** What [CompilePattern] returns, against the compiler's answer. *)
Lemma CompilePattern_answer t w r w' :
  CompilePattern glob_Compile regexp_Compile t w = (r, w') ->
  match r with
  | inl p => pat_pattern p = t /\ pat_type p = DetectPatternType t /\
             answer t = inl (pat_compiled p) /\
             pat_addr p = next_addr w /\ next_addr w' = S (next_addr w)
  | inr err => answer t = inr err /\ next_addr w' = next_addr w
  end.
Proof.
  unfold CompilePattern, compiler_answer, NewRegexPattern, NewGlobPattern.
  destruct (DetectPatternType t);
    [destruct (glob_Compile t) | destruct (regexp_Compile t)];
    cbn; intros [= <- <-]; cbn; auto.
Qed.

Lemma NewPatternCache_coherent w : coherent NewPatternCache w.
Proof.
  split; [|split]; cbn.
  - intros t p H. rewrite lookup_empty in H. discriminate.
  - intros t err H. rewrite lookup_empty in H. discriminate.
  - intros t1 t2 p1 p2 H. rewrite lookup_empty in H. discriminate.
Qed.

Lemma Clear_coherent c w : coherent (PatternCache_Clear c) w.
Proof. apply NewPatternCache_coherent. Qed.

Lemma Get_coherent t c w r c1 w1 :
  coherent c w ->
  PatternCache_Get glob_Compile regexp_Compile t c w = (r, c1, w1) ->
  coherent c1 w1.
Proof.
  intros (Hp & He & Hinj). unfold PatternCache_Get.
  destruct (patterns c !! t) as [p|] eqn:Hpt.
  { intros [= <- <- <-]. exact (conj Hp (conj He Hinj)). }
  destruct (errors c !! t) as [err|] eqn:Het.
  { intros [= <- <- <-]. exact (conj Hp (conj He Hinj)). }
  destruct (CompilePattern glob_Compile regexp_Compile t w) as [[p|err] w'] eqn:Hc;
    apply CompilePattern_answer in Hc; intros [= <- <- <-]; cbn.
  - destruct Hc as (Htext & Htype & Hans & Haddr & Hnext).
    split; [|split]; cbn.
    + intros t0 p0. destruct (decide (t = t0)) as [<-|Hne].
      * rewrite lookup_insert_eq. intros [= <-]. repeat split; auto. lia.
      * rewrite lookup_insert_ne by assumption. intros H0.
        destruct (Hp _ _ H0) as (? & ? & ? & ? & ?). repeat split; auto. lia.
    + assumption.
    + intros t1 t2 p1 p2.
      destruct (decide (t = t1)) as [<-|Hne1]; destruct (decide (t = t2)) as [<-|Hne2];
        rewrite ?lookup_insert_eq, ?lookup_insert_ne by assumption; auto.
      * intros [= <-] H2 Ha. destruct (Hp _ _ H2) as (_ & _ & _ & Hlt & _). lia.
      * intros H1 [= <-] Ha. destruct (Hp _ _ H1) as (_ & _ & _ & Hlt & _). lia.
      * apply Hinj.
  - destruct Hc as [Hans Hnext]. split; [|split]; cbn.
    + intros t0 p0 H0. destruct (Hp _ _ H0) as (? & ? & ? & ? & ?).
      repeat split; auto; [lia|].
      destruct (decide (t = t0)) as [<-|Hne]; [congruence|].
      now rewrite lookup_insert_ne.
    + intros t0 e0. destruct (decide (t = t0)) as [<-|Hne].
      * rewrite lookup_insert_eq. now intros [= <-].
      * rewrite lookup_insert_ne by assumption. apply He.
    + assumption.
Qed.

Lemma run_cache_ops_coherent ops s :
  coherent (fst s) (snd s) ->
  coherent (fst (run_cache_ops glob_Compile regexp_Compile ops s))
           (snd (run_cache_ops glob_Compile regexp_Compile ops s)).
Proof.
  revert s. induction ops as [|op ops IH]; intros s Hs; cbn; [assumption|].
  apply IH. destruct op as [t|]; cbn.
  - destruct (PatternCache_Get glob_Compile regexp_Compile t (fst s) (snd s))
      as [[r c1] w1] eqn:Hg. cbn. eapply Get_coherent; eassumption.
  - apply Clear_coherent.
Qed.

(** X11.  The cache is a faithful memo of the compilers.  After any run of
    [Get] and [Clear] on a new cache, [Get t] returns a pattern exactly
    when the compiler picked for [t] succeeds, and then the pattern's
    [String()] is [t], its type is the detected one and it matches with
    the compiled function; it returns an error exactly when that compiler
    fails, and then that error.  Patterns returned for different texts are
    different instances. *)
Theorem X11_cache_is_memo (ops : list CacheOp) (w0 : World)
    (c : PatternCache) (w : World) :
  run_cache_ops glob_Compile regexp_Compile ops (NewPatternCache, w0) = (c, w) ->
  (forall t r c1 w1,
      PatternCache_Get glob_Compile regexp_Compile t c w = (r, c1, w1) ->
      match r with
      | inl p => Pattern_String p = t /\ pat_type p = DetectPatternType t /\
                 compiler_answer glob_Compile regexp_Compile t = inl (pat_compiled p)
      | inr err => compiler_answer glob_Compile regexp_Compile t = inr err
      end) /\
  (forall t1 t2 p1 p2 c1 w1 c2 w2,
      PatternCache_Get glob_Compile regexp_Compile t1 c w = (inl p1, c1, w1) ->
      PatternCache_Get glob_Compile regexp_Compile t2 c1 w1 = (inl p2, c2, w2) ->
      t1 <> t2 -> pat_addr p1 <> pat_addr p2).
Proof.
  intros Hrun.
  pose proof (run_cache_ops_coherent ops (NewPatternCache, w0)
                (NewPatternCache_coherent w0)) as Hcoh.
  rewrite Hrun in Hcoh. cbn in Hcoh. split.
  - intros t r c1 w1 Hg.
    pose proof (Get_coherent _ _ _ _ _ _ Hcoh Hg) as (Hp & He & _).
    apply Get_caches in Hg. destruct r as [p|err]; cbn in Hg.
    + destruct (Hp _ _ Hg) as (? & ? & ? & _). auto.
    + destruct Hg as [_ Hg]. now apply He.
  - intros t1 t2 p1 p2 c1 w1 c2 w2 Hg1 Hg2 Hne Haddr.
    pose proof (Get_coherent _ _ _ _ _ _ Hcoh Hg1) as Hcoh1.
    pose proof (Get_coherent _ _ _ _ _ _ Hcoh1 Hg2) as (_ & _ & Hinj).
    pose proof (Get_caches _ _ _ _ _ _ _ _ Hg1) as Hc1.
    pose proof (Get_keeps _ _ _ _ _ _ _ _ _ _ Hc1 Hg2) as Hc1'.
    pose proof (Get_caches _ _ _ _ _ _ _ _ Hg2) as Hc2.
    cbn in Hc1', Hc2. apply Hne. eapply Hinj; eassumption.
Qed.

End CacheCoherence.

(** X11 on a cache that was filled, cleared and filled again. *)
Lemma X11_cache_is_memo_witness :
  let '(c, w) :=
    run_cache_ops toy_Compile toy_Compile
      [CacheGet "*/test/*"; CacheGet "[invalid"; CacheClear; CacheGet "^start"]
      (NewPatternCache, fresh_world) in
  forall r c1 w1,
    PatternCache_Get toy_Compile toy_Compile "*/test/*" c w = (r, c1, w1) ->
    match r with
    | inl p => Pattern_String p = "*/test/*" /\ pat_type p = PatternTypeGlob
    | inr _ => False
    end.
Proof.
  destruct (run_cache_ops toy_Compile toy_Compile
              [CacheGet "*/test/*"; CacheGet "[invalid"; CacheClear; CacheGet "^start"]
              (NewPatternCache, fresh_world)) as [c w] eqn:Hrun.
  intros r c1 w1 Hg.
  pose proof (proj1 (X11_cache_is_memo toy_Compile toy_Compile _ _ _ _ Hrun) _ _ _ _ Hg)
    as Hmemo.
  destruct r as [p|err].
  - destruct Hmemo as (Hs & Ht & _). split; [exact Hs|]. rewrite Ht. reflexivity.
  - vm_compute in Hmemo. discriminate Hmemo.
Defined.

(** ** Building matchers *)

Section BuildMatcherProperties.

Variable glob_Compile : string -> (string -> bool) + error.
Variable regexp_Compile : string -> (string -> bool) + error.

Local Abbreviation fields_ := (pattern_fields glob_Compile regexp_Compile).
Local Abbreviation Build_ := (BuildMatcher glob_Compile regexp_Compile).

Lemma addSimple_ok b x : b_err b = None ->
  addSimple b x = {| b_matchers := b_matchers b ++ [x]; b_err := None |}.
Proof. intros H. unfold addSimple. now rewrite H. Qed.

(** [BuildMatcher] as the simple matchers followed by the five pattern
    steps. *)
Lemma BuildMatcher_steps m env :
  Build_ (Some m) env
  = let '(b, env') :=
      add_patterns (fields_ m) {| b_matchers := simple_matchers m; b_err := None |} env in
    (result b, env').
Proof.
  unfold BuildMatcher, simple_matchers, pattern_fields, add_patterns.
  destruct (String.eqb (rm_ValidatorType m) EmptyString);
    destruct (String.eqb (rm_Remote m) EmptyString);
    destruct (String.eqb (rm_ToolType m) EmptyString);
    destruct (String.eqb (rm_EventType m) EmptyString);
    cbn [negb]; rewrite ?addSimple_ok by reflexivity; cbn [b_matchers app];
    repeat match goal with
           | |- context [addPatternMatcher ?b ?t ?f ?e] =>
               destruct (addPatternMatcher b t f e) as [? ?]
           end;
    reflexivity.
Qed.

(** An error in the builder is kept, and nothing else happens. *)
Lemma add_patterns_error fields b env err :
  b_err b = Some err -> add_patterns fields b env = (b, env).
Proof.
  intros Hb. revert env. induction fields as [|[t f] rest IH]; intros env; cbn.
  - reflexivity.
  - unfold addPatternMatcher. rewrite Hb. apply IH.
Qed.

Lemma add_patterns_app fs1 fs2 b env :
  add_patterns (fs1 ++ fs2) b env
  = let '(b1, env1) := add_patterns fs1 b env in add_patterns fs2 b1 env1.
Proof.
  revert b env. induction fs1 as [|[t f] rest IH]; intros b env; cbn; [reflexivity|].
  destruct (addPatternMatcher b t f env) as [b' env']. apply IH.
Qed.

(** One step that leaves the builder without error. *)
Lemma addPatternMatcher_ok b t f env b' env' :
  addPatternMatcher b t f env = (b', env') -> b_err b' = None ->
  b_err b = None /\
  ((t = EmptyString /\ b' = b /\ env' = env) \/
   (t <> EmptyString /\
    exists x, f t env = (inl x, env') /\ b_matchers b' = b_matchers b ++ [x])).
Proof.
  unfold addPatternMatcher. destruct (b_err b) as [e|] eqn:Hb.
  { intros [= <- <-] He. congruence. }
  destruct (String.eqb_spec t EmptyString) as [->|Hne].
  { intros [= <- <-] _. auto. }
  destruct (f t env) as [[x|e] env1] eqn:Hf; intros [= <- <-]; cbn; [|discriminate].
  intros _. split; [reflexivity|]. right. split; [assumption|]. eauto.
Qed.

(** One step that sets the error. *)
Lemma addPatternMatcher_fails b t f env b' env' err :
  b_err b = None ->
  addPatternMatcher b t f env = (b', env') -> b_err b' = Some err ->
  t <> EmptyString /\ f t env = (inr err, env') /\ b_matchers b' = b_matchers b.
Proof.
  unfold addPatternMatcher. intros Hb. rewrite Hb.
  destruct (String.eqb_spec t EmptyString) as [->|Hne].
  { intros [= <- <-] He. congruence. }
  destruct (f t env) as [[x|e] env1] eqn:Hf; intros [= <- <-]; cbn; [discriminate|].
  intros [= ->]. auto.
Qed.

(** The first failing pattern decides: where the run of steps fails. *)
Lemma add_patterns_fails fields b env b' env' err :
  b_err b = None ->
  add_patterns fields b env = (b', env') -> b_err b' = Some err ->
  exists pre t f post b1 env1,
    fields = pre ++ (t, f) :: post /\
    add_patterns pre b env = (b1, env1) /\ b_err b1 = None /\
    t <> EmptyString /\ f t env1 = (inr err, env').
Proof.
  revert b env. induction fields as [|[t f] rest IH]; intros b env Hb; cbn.
  - intros [= <- <-] He. congruence.
  - destruct (addPatternMatcher b t f env) as [b1 env1] eqn:Hstep. intros Hrun He.
    destruct (b_err b1) as [e1|] eqn:Hb1.
    + rewrite (add_patterns_error rest b1 env1 e1 Hb1) in Hrun.
      injection Hrun as <- <-.
      destruct (addPatternMatcher_fails _ _ _ _ _ _ _ Hb Hstep Hb1) as (Hne & Hf & _).
      exists [], t, f, rest, b, env. cbn. repeat split; auto. congruence.
    + destruct (IH _ _ Hb1 Hrun He) as (pre & t' & f' & post & b2 & env2 & -> & Hpre & ?).
      exists ((t, f) :: pre), t', f', post, b2, env2. cbn. rewrite Hstep. auto.
Qed.

(** X12.  [BuildMatcher] fails fast.  It returns an error exactly when,
    going through the repository, branch, file, content and command
    patterns in this order, a non-empty pattern fails to compile after all
    patterns before it succeeded; the error is that first failure, and the
    state returned is the state right after it, so the patterns behind it
    are neither looked up nor compiled. *)
Theorem X12_build_matcher_fails_fast (m : RuleMatch) (env env' : Env) (err : error) :
  BuildMatcher glob_Compile regexp_Compile (Some m) env = (inr err, env') <->
  exists pre t f post b1 env1,
    pattern_fields glob_Compile regexp_Compile m = pre ++ (t, f) :: post /\
    add_patterns pre {| b_matchers := simple_matchers m; b_err := None |} env
      = (b1, env1) /\
    b_err b1 = None /\ t <> EmptyString /\ f t env1 = (inr err, env').
Proof.
  rewrite BuildMatcher_steps. split.
  - destruct (add_patterns (fields_ m) _ env) as [b env2] eqn:Hrun.
    unfold result. destruct (b_err b) as [e|] eqn:Hb.
    + intros [= -> ->]. eapply add_patterns_fails; [|eassumption..]. reflexivity.
    + destruct (b_matchers b) as [|x [|y l]]; discriminate.
  - intros (pre & t & f & post & b1 & env1 & Hfields & Hpre & Hb1 & Hne & Hf).
    rewrite Hfields, add_patterns_app, Hpre. cbn.
    unfold addPatternMatcher at 1. rewrite Hb1.
    destruct (String.eqb_spec t EmptyString) as [|_]; [contradiction|].
    rewrite Hf. rewrite (add_patterns_error post _ env' err) by reflexivity.
    reflexivity.
Qed.

End BuildMatcherProperties.

(** X12 on a match block whose repository pattern is refused: the content
    pattern behind it, refused as well, is never compiled. *)
Lemma X12_build_matcher_fails_fast_witness :
  BuildMatcher toy_Compile toy_Compile
    (Some (repo_content_match "[repo" "[content")) fresh_env
  = (inr "missing closing bracket",
     {| defaultCache := {| patterns := ∅;
                           errors := {[ "[repo" := "missing closing bracket" ]} |};
        world := {| next_addr := 0; compile_log := ["[repo"] |} |}).
Proof.
  apply X12_build_matcher_fails_fast.
  exists [], "[repo", (NewRepoPatternMatcher toy_Compile toy_Compile),
    (tail (pattern_fields toy_Compile toy_Compile
             (repo_content_match "[repo" "[content"))),
    {| b_matchers := []; b_err := None |}, fresh_env.
  split; [reflexivity|]. split; [reflexivity|]. split; [reflexivity|].
  split; [discriminate|]. vm_compute. reflexivity.
Defined.

(** ** What a built matcher decides *)

Lemma and_loop_true_iff run ms :
  and_loop run ms = Some true <-> Forall (fun x => run x = Some true) ms.
Proof.
  split; [|apply and_loop_true].
  induction ms as [|x ms IH]; cbn; [constructor|].
  destruct (run x) as [[|]|] eqn:Hx; cbn; try discriminate.
  intros H. constructor; auto.
Qed.

(** The matcher of a builder without error is the conjunction of the
    builder's matchers. *)
Lemma result_conjunction b om c :
  result b = inl om ->
  Match (or_always om) (Some c) = Some true <->
  Forall (fun x => Match x (Some c) = Some true) (b_matchers b).
Proof.
  unfold result. destruct (b_err b); [discriminate|].
  destruct (b_matchers b) as [|x [|y l]]; intros [= <-]; cbn [or_always].
  - split; [constructor | reflexivity].
  - rewrite Forall_cons, Forall_nil. tauto.
  - unfold NewAndMatcher. rewrite Match_composite_cons. apply and_loop_true_iff.
Qed.

Lemma Forall_if_empty (P : Matcher -> Prop) s x :
  Forall P (if String.eqb s EmptyString then [] else [x]) <-> (s <> EmptyString -> P x).
Proof.
  destruct (String.eqb_spec s EmptyString) as [->|Hne].
  - split; [intros _ H; contradiction | constructor].
  - rewrite Forall_cons, Forall_nil. tauto.
Qed.

Lemma Forall_simple_matchers (P : Matcher -> Prop) m :
  Forall P (simple_matchers m) <->
  (rm_ValidatorType m <> EmptyString -> P (ValidatorTypeMatcher (rm_ValidatorType m))) /\
  (rm_Remote m <> EmptyString -> P (RemoteMatcher (rm_Remote m))) /\
  (rm_ToolType m <> EmptyString -> P (ToolTypeMatcher (rm_ToolType m))) /\
  (rm_EventType m <> EmptyString -> P (EventTypeMatcher (rm_EventType m))).
Proof.
  unfold simple_matchers. rewrite !Forall_app, !Forall_if_empty. reflexivity.
Qed.

Lemma Forall_omap_id (P : Matcher -> Prop) (os : list (option Matcher)) :
  Forall P (omap id os) <-> Forall (fun o => forall x, o = Some x -> P x) os.
Proof.
  induction os as [|[x|] os IH]; cbn.
  - split; constructor.
  - rewrite !Forall_cons, IH. split; intros [H ?]; split; auto.
    intros y [= <-]. exact H.
  - rewrite Forall_cons, IH. split; [intros ?; split; [discriminate|assumption]|tauto].
Qed.

Lemma cache_le_trans env1 env2 env3 :
  cache_le env1 env2 -> cache_le env2 env3 -> cache_le env1 env3.
Proof. unfold cache_le. auto. Qed.

Section BuiltMatcher.

Variable glob_Compile : string -> (string -> bool) + error.
Variable regexp_Compile : string -> (string -> bool) + error.

Lemma cached_matcher_keeps mk :
  keeps_cache (cached_matcher glob_Compile regexp_Compile mk).
Proof.
  intros t env r env'. unfold cached_matcher, GetCachedPattern.
  destruct (PatternCache_Get _ _ t _ _) as [[r0 c1] w1] eqn:HG.
  intros Heq t0 p Hp.
  assert (env' = {| defaultCache := c1; world := w1 |}) as ->
    by (destruct r0; congruence).
  exact (Get_keeps _ _ t0 (inl p) t _ _ _ _ _ Hp HG).
Qed.

Lemma NewContentPatternMatcher_keeps :
  keeps_cache (NewContentPatternMatcher regexp_Compile).
Proof.
  intros t env r env'. unfold NewContentPatternMatcher.
  destruct (NewRegexPattern _ t _) as [[p|e] w1]; intros [= <- <-] t0 p0 Hp; exact Hp.
Qed.

Lemma cached_matcher_ok mk t env x env' :
  cached_matcher glob_Compile regexp_Compile mk t env = (inl x, env') ->
  exists p, x = mk p /\ patterns (defaultCache env') !! t = Some p.
Proof.
  unfold cached_matcher, GetCachedPattern.
  destruct (PatternCache_Get _ _ t _ _) as [[[p|e] c1] w1] eqn:HG; intros [= <- <-].
  exists p. split; [reflexivity|]. exact (Get_caches _ _ _ _ _ _ _ _ HG).
Qed.

Lemma NewContentPatternMatcher_ok t env x env' :
  NewContentPatternMatcher regexp_Compile t env = (inl x, env') ->
  exists p, x = ContentPatternMatcher p /\ regexp_Compile t = inl (pat_compiled p).
Proof.
  unfold NewContentPatternMatcher, NewRegexPattern.
  destruct (regexp_Compile t) as [f|e]; cbn; intros [= <- <-].
  eexists. split; reflexivity.
Qed.

Lemma pattern_fields_keep m :
  Forall (fun step => keeps_cache step.2) (pattern_fields glob_Compile regexp_Compile m).
Proof.
  unfold pattern_fields.
  repeat constructor; cbn;
    first [apply cached_matcher_keeps | apply NewContentPatternMatcher_keeps].
Qed.

(** A run of steps that ends without error added, for every non-empty
    text, the matcher of its factory, in order. *)
Lemma add_patterns_ok fields :
  Forall (fun step => keeps_cache step.2) fields ->
  forall b env b' env',
    add_patterns fields b env = (b', env') -> b_err b' = None ->
    b_err b = None /\ cache_le env env' /\
    exists os, b_matchers b' = b_matchers b ++ omap id os /\
               Forall2 (step_done env') fields os.
Proof.
  induction 1 as [|[t f] rest Hkeep _ IH]; intros b env b' env'; cbn.
  - intros [= <- <-] He. split; [assumption|]. split; [intros ? ? ?; assumption|].
    exists []. cbn. rewrite app_nil_r. split; [reflexivity|constructor].
  - destruct (addPatternMatcher b t f env) as [b1 env1] eqn:Hstep. intros Hrun He.
    destruct (IH _ _ _ _ Hrun He) as (Hb1 & Hle & os & Hms & HF).
    destruct (addPatternMatcher_ok _ _ _ _ _ _ Hstep Hb1)
      as (Hb & [(-> & -> & ->) | (Hne & x & Hf & Hmsx)]).
    + split; [assumption|]. split; [assumption|].
      exists (None :: os). split; [exact Hms|]. constructor; [|assumption].
      left. split; reflexivity.
    + split; [assumption|]. split.
      { eapply cache_le_trans; [exact (Hkeep _ _ _ _ Hf) | exact Hle]. }
      exists (Some x :: os). split.
      * rewrite Hms, Hmsx, <- app_assoc. reflexivity.
      * constructor; [|assumption]. right. split; [assumption|].
        exists x, env, env1. auto.
Qed.

Lemma step_cached (P : Matcher -> Prop) mk t o env' :
  step_done env' (t, cached_matcher glob_Compile regexp_Compile mk) o ->
  (forall x, o = Some x -> P x) <->
  (t <> EmptyString ->
   exists p, patterns (defaultCache env') !! t = Some p /\ P (mk p)).
Proof.
  intros [[Ht ->] | (Hne & x & ea & eb & -> & Hf & Hle)]; cbn in *.
  - split; [intros _ Hc; contradiction | intros _ x [=]].
  - destruct (cached_matcher_ok _ _ _ _ _ Hf) as (p & -> & Hp).
    apply Hle in Hp. split.
    + intros H _. exists p. split; [assumption|]. now apply H.
    + intros H y [= <-]. destruct (H Hne) as (p' & Hp' & HP).
      rewrite Hp in Hp'. injection Hp' as <-. exact HP.
Qed.

Lemma step_content c t o env' :
  step_done env' (t, NewContentPatternMatcher regexp_Compile) o ->
  (forall x, o = Some x -> Match x (Some c) = Some true) <->
  (t <> EmptyString ->
   exists p, regexp_Compile t = inl (pat_compiled p) /\
             Match (ContentPatternMatcher p) (Some c) = Some true).
Proof.
  intros [[Ht ->] | (Hne & x & ea & eb & -> & Hf & Hle)]; cbn [fst snd] in *.
  - split; [intros _ Hc; contradiction | intros _ x [=]].
  - destruct (NewContentPatternMatcher_ok _ _ _ _ Hf) as (p & -> & Hp). split.
    + intros H _. exists p. split; [assumption|]. now apply H.
    + intros H y [= <-]. destruct (H Hne) as (p' & Hp' & HP).
      rewrite Hp in Hp'. injection Hp' as Hfun.
      cbn [Match] in *. unfold ContentPatternMatcher_Match, Pattern_Match in *.
      rewrite Hfun. exact HP.
Qed.

(** The matchers a successful [BuildMatcher] collects: the simple ones,
    then one for every non-empty pattern; the returned matcher is their
    conjunction. *)
Lemma BuildMatcher_matchers m env matcher env' :
  BuildMatcher glob_Compile regexp_Compile (Some m) env = (inl matcher, env') ->
  exists os,
    Forall2 (step_done env') (pattern_fields glob_Compile regexp_Compile m) os /\
    forall c, Match (or_always matcher) (Some c) = Some true <->
              Forall (fun x => Match x (Some c) = Some true)
                     (simple_matchers m ++ omap id os).
Proof.
  intros H. rewrite BuildMatcher_steps in H.
  destruct (add_patterns _ _ env) as [b env1] eqn:Hrun.
  injection H as Hres <-.
  assert (b_err b = None) as Hb.
  { unfold result in Hres. destruct (b_err b); [discriminate|reflexivity]. }
  destruct (add_patterns_ok _ (pattern_fields_keep m) _ _ _ _ Hrun Hb)
    as (_ & _ & os & Hms & HF).
  exists os. split; [assumption|]. intros c.
  now rewrite (result_conjunction _ _ c Hres), Hms.
Qed.

(** X13.  A matcher that [BuildMatcher] returns is the conjunction of the
    conditions the match block fills in, and of nothing else: on a non-nil
    context the matcher the registry stores for it ([AlwaysMatcher] when
    [BuildMatcher] returns nil) matches exactly when every non-empty field
    matches, where the validator type, remote, tool type and event type are
    matched by their leaf matchers, the repository, branch, file and command
    patterns by the pattern the package cache holds for their text after the
    call, and the content pattern by what regexp.Compile made of it.  An
    empty field puts no condition. *)
Theorem X13_build_matcher_conjunction
    (m : RuleMatch) (env env' : Env) (matcher : option Matcher) (c : MatchContext) :
  BuildMatcher glob_Compile regexp_Compile (Some m) env = (inl matcher, env') ->
  let holds x := Match x (Some c) = Some true in
  let cached t := patterns (defaultCache env') !! t in
  holds (or_always matcher) <->
  ((rm_ValidatorType m <> EmptyString -> holds (ValidatorTypeMatcher (rm_ValidatorType m))) /\
   (rm_Remote m <> EmptyString -> holds (RemoteMatcher (rm_Remote m))) /\
   (rm_ToolType m <> EmptyString -> holds (ToolTypeMatcher (rm_ToolType m))) /\
   (rm_EventType m <> EmptyString -> holds (EventTypeMatcher (rm_EventType m)))) /\
  (rm_RepoPattern m <> EmptyString ->
   exists p, cached (rm_RepoPattern m) = Some p /\ holds (RepoPatternMatcher p)) /\
  (rm_BranchPattern m <> EmptyString ->
   exists p, cached (rm_BranchPattern m) = Some p /\ holds (BranchPatternMatcher p)) /\
  (rm_FilePattern m <> EmptyString ->
   exists p, cached (rm_FilePattern m) = Some p /\ holds (FilePatternMatcher p)) /\
  (rm_ContentPattern m <> EmptyString ->
   exists p, regexp_Compile (rm_ContentPattern m) = inl (pat_compiled p) /\
             holds (ContentPatternMatcher p)) /\
  (rm_CommandPattern m <> EmptyString ->
   exists p, cached (rm_CommandPattern m) = Some p /\ holds (CommandPatternMatcher p)).
Proof.
  intros H holds cached. subst holds cached. cbv beta.
  destruct (BuildMatcher_matchers _ _ _ _ H) as (os & HF & ->).
  rewrite Forall_app, Forall_simple_matchers, Forall_omap_id.
  unfold pattern_fields in HF.
  repeat match goal with
         | HF : Forall2 _ (_ :: _) _ |- _ =>
             apply Forall2_cons_inv_l in HF as (? & ? & ? & HF & ->)
         end.
  apply Forall2_nil_inv_l in HF as ->.
  rewrite !Forall_cons, Forall_nil.
  repeat match goal with
         | Hs : step_done _ (_, NewContentPatternMatcher _) _ |- _ =>
             rewrite (step_content c _ _ _ Hs); clear Hs
         | Hs : step_done _ (_, _) _ |- _ =>
             rewrite (step_cached _ _ _ _ _ Hs); clear Hs
         end.
  tauto.
Qed.

End BuiltMatcher.

(** X13 on a match block with the repository pattern [acme] and the
    content pattern [TODO], both without metacharacters, so that the glob
    matches the repository root [acme] only and the regexp matches every
    content that contains [TODO].  The built matcher matches when both
    conditions hold, and the conditions can be read back from the match;
    it does not match the root [/src/acme/app], nor a content without
    [TODO]. *)
Lemma X13_build_matcher_conjunction_witness :
  exists matcher env',
    BuildMatcher literal_glob_Compile literal_regexp_Compile
      (Some (repo_content_match "acme" "TODO")) fresh_env
    = (inl matcher, env') /\
    Match (or_always matcher) (Some (repo_content_context "acme" "TODO: later"))
    = Some true /\
    (exists p, patterns (defaultCache env') !! "acme" = Some p /\
               Match (RepoPatternMatcher p)
                     (Some (repo_content_context "acme" "TODO: later")) = Some true) /\
    Match (or_always matcher) (Some (repo_content_context "/src/acme/app" "TODO: later"))
    = Some false /\
    Match (or_always matcher) (Some (repo_content_context "acme" "done"))
    = Some false.
Proof.
  destruct (BuildMatcher literal_glob_Compile literal_regexp_Compile
              (Some (repo_content_match "acme" "TODO")) fresh_env)
    as [[matcher|e] env'] eqn:Hb.
  2: { vm_compute in Hb. discriminate Hb. }
  exists matcher, env'. split; [reflexivity|].
  pose proof (X13_build_matcher_conjunction literal_glob_Compile literal_regexp_Compile
                _ _ _ _ (repo_content_context "acme" "TODO: later") Hb) as H.
  cbn [repo_content_match rm_ValidatorType rm_Remote rm_ToolType rm_EventType
       rm_RepoPattern rm_BranchPattern rm_FilePattern rm_ContentPattern
       rm_CommandPattern] in H.
  assert (Match (or_always matcher) (Some (repo_content_context "acme" "TODO: later"))
          = Some true) as Hyes.
  { apply H. vm_compute in Hb. injection Hb as <- <-.
    repeat split; try (intros Hc; exfalso; apply Hc; reflexivity).
    - intros _. eexists. split; [reflexivity|]. reflexivity.
    - intros _.
      exists {| pat_addr := 1; pat_type := PatternTypeRegex; pat_pattern := "TODO";
                pat_compiled := fun s => GoStrings.Contains s "TODO" |}.
      split; vm_compute; reflexivity. }
  split; [exact Hyes|]. split.
  - apply H in Hyes. destruct Hyes as (_ & Hrepo & _). apply Hrepo. discriminate.
  - vm_compute in Hb. injection Hb as <- <-. split; reflexivity.
Defined.

(** ** Merging rule slices *)

Lemma MergeRules_le_compiled a b :
  MergeRules_le a b <->
  rule_le {| cr_Rule := a; cr_Matcher := AlwaysMatcher |}
          {| cr_Rule := b; cr_Matcher := AlwaysMatcher |}.
Proof. reflexivity. Qed.

#[global] Instance MergeRules_le_trans : Transitive MergeRules_le.
Proof.
  intros a b c. rewrite !MergeRules_le_compiled. apply rule_le_trans.
Qed.

#[global] Instance MergeRules_le_total : Total MergeRules_le.
Proof.
  intros a b. rewrite !MergeRules_le_compiled. apply rule_le_total.
Qed.

Lemma MergeRules_le_antisym_name a b :
  MergeRules_le a b -> MergeRules_le b a -> r_Name a = r_Name b.
Proof.
  rewrite !MergeRules_le_compiled. intros H1 H2.
  exact (rule_le_antisym_name _ _ H1 H2).
Qed.

Lemma store_rules_app rs1 rs2 m :
  store_rules (rs1 ++ rs2) m
  = match store_rules rs1 m with
    | None => None
    | Some m1 => store_rules rs2 m1
    end.
Proof.
  revert m. induction rs1 as [|[r|] rs1 IH]; intros m; cbn; auto.
Qed.

Lemma store_rules_None rs m : store_rules rs m = None <-> None ∈ rs.
Proof.
  revert m. induction rs as [|[r|] rs IH]; intros m; cbn.
  - split; [discriminate|]. intros H. inversion H.
  - rewrite IH, elem_of_cons. split; [auto|]. intros [[=]|H]; exact H.
  - split; [intros _; left|reflexivity].
Qed.

(** What the map holds after the loop: for every name the last rule of
    that name, or what it held before when the slice has none. *)
Lemma store_rules_lookup rs : forall m m',
  store_rules rs m = Some m' ->
  forall n rule,
    m' !! n = Some rule <->
    (r_Name rule = n /\ last_of_name rule rs) \/
    (m !! n = Some rule /\ no_rule_named n rs).
Proof.
  unfold last_of_name, no_rule_named.
  induction rs as [|[r|] rs IH]; intros m m'; cbn; [| |discriminate].
  - intros [= <-] n rule. split.
    + intros H. right. split; [assumption|constructor].
    + intros [(_ & pre & post & Heq & _)|[H _]]; [|assumption].
      destruct pre; discriminate.
  - intros Hs n rule. rewrite (IH _ _ Hs n rule). split.
    + intros [(Hn & pre & post & -> & Hpost)|[Hl Hno]].
      * left. split; [assumption|]. exists (Some r :: pre), post. auto.
      * destruct (decide (r_Name r = n)) as [Heq|Hne].
        -- rewrite Heq, lookup_insert_eq in Hl. injection Hl as ->.
           left. split; [assumption|]. exists [], rs. rewrite Heq. auto.
        -- rewrite lookup_insert_ne in Hl by assumption.
           right. split; [assumption|]. constructor; [|assumption].
           intros r' [= <-]. assumption.
    + intros [(Hn & pre & post & Heq & Hpost)|[Hl Hno]].
      * destruct pre as [|o pre]; cbn in Heq; injection Heq as H1 H2; subst.
        -- right. rewrite lookup_insert_eq. auto.
        -- left. split; [reflexivity|]. exists pre, post. auto.
      * apply Forall_cons in Hno as [Hr Hno]. right.
        rewrite lookup_insert_ne by (apply Hr; reflexivity). auto.
Qed.

(** [MergeRules] as one loop over [base] followed by [override]. *)
Lemma MergeRules_unfold range base override :
  MergeRules range base override
  = (fun merged => merge_sort MergeRules_le (range merged))
      <$> store_rules (base ++ override) ∅.
Proof.
  unfold MergeRules. rewrite store_rules_app.
  destruct (store_rules base ∅) as [m1|]; [|reflexivity].
  destruct (store_rules override m1); reflexivity.
Qed.

(** The values of the filled map have pairwise distinct names. *)
Lemma store_rules_names rs m :
  store_rules rs ∅ = Some m -> NoDup (r_Name <$> map_values m).
Proof.
  intros Hs. unfold map_values.
  assert (r_Name <$> (map_to_list m).*2 = (map_to_list m).*1) as ->.
  { rewrite <- list_fmap_compose. apply Forall_fmap_ext, Forall_forall.
    intros [n rule] Hin. cbn.
    apply elem_of_map_to_list in Hin.
    apply (store_rules_lookup _ _ _ Hs) in Hin as [[Hn _]|[He _]]; [assumption|].
    rewrite lookup_empty in He. discriminate. }
  apply NoDup_fst_map_to_list.
Qed.

Lemma elem_of_map_values (m : gmap string Rule) rule :
  rule ∈ map_values m <-> exists n, m !! n = Some rule.
Proof.
  unfold map_values. rewrite list_elem_of_fmap. split.
  - intros ([n r] & -> & Hin). exists n. now apply elem_of_map_to_list.
  - intros [n Hn]. exists (n, rule). split; [reflexivity|].
    now apply elem_of_map_to_list.
Qed.

(** X14.  [MergeRules] merges with override semantics, whatever order the
    map is visited in.  It panics exactly when one of the two slices has a
    nil entry.  Otherwise the result holds exactly the rules that are the
    last of their name in [base] followed by [override], so a rule of
    [override] replaces every rule of that name in [base]; the names of the
    result are pairwise distinct, it is sorted by priority (descending) and
    then by name, and it is the same slice for every order in which the
    range loop may visit the map. *)
Theorem X14_merge_rules
    (range : gmap string Rule -> list Rule) (base override : list (option Rule)) :
  range_ok range ->
  (MergeRules range base override = None <-> None ∈ base ++ override) /\
  (forall result, MergeRules range base override = Some result ->
     (forall rule, rule ∈ result <-> last_of_name rule (base ++ override)) /\
     NoDup (r_Name <$> result) /\
     StronglySorted MergeRules_le result /\
     forall range', range_ok range' ->
                    MergeRules range' base override = Some result).
Proof.
  intros Hrange. rewrite MergeRules_unfold. split.
  { rewrite <- (store_rules_None (base ++ override) ∅).
    destruct (store_rules _ ∅); cbn; split; congruence. }
  intros result. destruct (store_rules (base ++ override) ∅) as [m|] eqn:Hs;
    [|discriminate].
  cbn. intros [= <-].
  pose proof (store_rules_names _ _ Hs) as Hnd.
  split; [|split; [|split]].
  - intros rule. rewrite merge_sort_Permutation, (Hrange m), elem_of_map_values.
    split.
    + intros [n Hn].
      apply (store_rules_lookup _ _ _ Hs) in Hn as [[_ H]|[He _]]; [assumption|].
      rewrite lookup_empty in He. discriminate.
    + intros H. exists (r_Name rule).
      apply (store_rules_lookup _ _ _ Hs). left. auto.
  - now rewrite merge_sort_Permutation, (Hrange m).
  - apply StronglySorted_merge_sort; apply _.
  - intros range' Hrange'. rewrite MergeRules_unfold, Hs. cbn. f_equal.
    apply (StronglySorted_unique_strong MergeRules_le);
      [|apply StronglySorted_merge_sort; apply _
       |apply StronglySorted_merge_sort; apply _
       |now rewrite !merge_sort_Permutation, (Hrange m), (Hrange' m)].
    intros x1 x2 Hx1 Hx2 H12 H21.
    pose proof (MergeRules_le_antisym_name _ _ H12 H21) as Hname.
    rewrite merge_sort_Permutation, (Hrange' m) in Hx1.
    rewrite merge_sort_Permutation, (Hrange m) in Hx2.
    apply list_elem_of_lookup in Hx1 as [i Hi].
    apply list_elem_of_lookup in Hx2 as [j Hj].
    assert (i = j) as ->.
    { eapply NoDup_lookup; [exact Hnd| |];
        rewrite list_lookup_fmap; [rewrite Hi | rewrite Hj]; cbn; [reflexivity|].
      now rewrite Hname. }
    congruence.
Qed.

(** X14 on a base of ["a"] and ["b"] overridden by a ["b"] of priority 30
    and ["c"], with the map visited in reverse order. *)
Lemma X14_merge_rules_witness :
  MergeRules (fun m => reverse (map_values m))
    [Some rule_a; Some rule_b]
    [Some (plain_rule "b" 30 true ActionWarn EmptyString); Some rule_c]
  = Some [plain_rule "b" 30 true ActionWarn EmptyString; rule_c; rule_a] /\
  MergeRules map_values
    [Some rule_a; Some rule_b]
    [Some (plain_rule "b" 30 true ActionWarn EmptyString); Some rule_c]
  = Some [plain_rule "b" 30 true ActionWarn EmptyString; rule_c; rule_a].
Proof.
  assert (range_ok (fun m => reverse (map_values m))) as Hrev.
  { intros m. apply reverse_Permutation. }
  split; [vm_compute; reflexivity|].
  refine (proj2 (proj2 (proj2 (proj2 (X14_merge_rules _ _ _ Hrev) _ _))) map_values _).
  - vm_compute. reflexivity.
  - intros m. reflexivity.
Defined.

(** ** Filtering before matching *)

Lemma FindMatchingRules_loop_filter c rs acc :
  FindMatchingRules_loop (Some c) rs acc
  = Some (acc ++ (cr_Rule <$> filter (fun x => Is_true (rule_matches c x)) rs)).
Proof.
  revert acc. induction rs as [|x rs IH]; intros acc; cbn [FindMatchingRules_loop].
  - rewrite filter_nil. cbn. now rewrite app_nil_r.
  - rewrite filter_bool_cons. unfold rule_matches at 1.
    destruct (Match_total (cr_Matcher x) c) as [[|] ->].
    + rewrite IH, fmap_cons, <- app_assoc. reflexivity.
    + apply IH.
Qed.

Lemma filter_filter_implied {A} (P Q : A -> Prop)
    `{!forall x, Decision (P x)} `{!forall x, Decision (Q x)} (l : list A) :
  Forall (fun x => P x -> Q x) l -> filter P (filter Q l) = filter P l.
Proof.
  induction 1 as [|x l Hx _ IH]; [reflexivity|].
  rewrite !(filter_cons _ x). destruct (decide (P x)) as [HP|HP].
  - rewrite (decide_True (P := Q x)) by auto.
    rewrite filter_cons, decide_True by assumption. now rewrite IH.
  - destruct (decide (Q x)); [rewrite filter_cons, decide_False by assumption|];
      exact IH.
Qed.

Section FilterThenMatch.

Variable glob_Compile : string -> (string -> bool) + error.
Variable regexp_Compile : string -> (string -> bool) + error.

Local Abbreviation built := (built_by glob_Compile regexp_Compile).

(** A rule whose built matcher matches a context passes the validator
    filter for the validator type of that context. *)
Lemma built_matches_applies c x :
  built x -> rule_matches c x = true -> validator_applies (mc_ValidatorType c) x = true.
Proof.
  intros (matcher & env & env' & Hb & Hm). rewrite rule_matches_true, Hm.
  unfold validator_applies. destruct (r_Match (cr_Rule x)) as [m|]; [|reflexivity].
  destruct (BuildMatcher_matchers _ _ _ _ _ _ Hb) as (os & _ & Hall).
  rewrite Hall, Forall_app, Forall_simple_matchers.
  intros [(Hv & _) _].
  destruct (String.eqb_spec (rm_ValidatorType m) EmptyString) as [|Hne]; [reflexivity|].
  cbn [orb]. specialize (Hv Hne).
  change (Match (NewValidatorTypeMatcher (rm_ValidatorType m))
            (Some (validator_context (mc_ValidatorType c))))
    with (Match (ValidatorTypeMatcher (rm_ValidatorType m)) (Some c)).
  now rewrite Hv.
Qed.

Lemma Add_built rule r env err r' env' :
  Add glob_Compile regexp_Compile rule r env = (err, r', env') ->
  Forall built (rules r) -> Forall built (rules r').
Proof.
  unfold Add. destruct rule as [ru|]; [|now intros [= _ <- _]].
  destruct (String.eqb (r_Name ru) EmptyString); [now intros [= _ <- _]|].
  destruct (r_Action ru); [|now intros [= _ <- _]].
  destruct (BuildMatcher _ _ (r_Match ru) env) as [[m|e] env1] eqn:Hb;
    [|now intros [= _ <- _]].
  assert (built {| cr_Rule := ru; cr_Matcher := or_always m |}) as Hnew.
  { exists m, env, env1. split; [exact Hb|reflexivity]. }
  destruct (list_find _ (rules r)) as [[i x]|]; intros [= _ <- _] Hr;
    apply Forall_sort; cbn [rules].
  - now apply Forall_insert.
  - apply Forall_app. split; [assumption|]. now constructor.
Qed.

(** X15.  The validator filter never hides a rule that would match.  In a
    registry whose compiled rules are as [Add] makes them (which [Add],
    [Remove] and [Merge] from such a registry keep), for every non-nil
    context: finding the matching rules among the rules that
    [FilterByValidator] returns for the validator type of the context gives
    exactly the rules [FindMatchingRules] returns, in the same order. *)
Theorem X15_filter_keeps_matching_rules :
  (forall rule r env err r' env',
      Add glob_Compile regexp_Compile rule r env = (err, r', env') ->
      Forall (built_by glob_Compile regexp_Compile) (rules r) ->
      Forall (built_by glob_Compile regexp_Compile) (rules r')) /\
  (forall name r,
      Forall (built_by glob_Compile regexp_Compile) (rules r) ->
      Forall (built_by glob_Compile regexp_Compile) (rules (snd (Remove name r)))) /\
  (forall source r,
      Forall (built_by glob_Compile regexp_Compile) (rules source) ->
      Forall (built_by glob_Compile regexp_Compile) (rules r) ->
      Forall (built_by glob_Compile regexp_Compile) (rules (Merge (Some source) r))) /\
  (forall e reg c,
      e_registry e = Some reg ->
      Forall (built_by glob_Compile regexp_Compile) (rules reg) ->
      exists filtered,
        FilterByValidator e (mc_ValidatorType c) = Some filtered /\
        FindMatchingRules e (Some c)
        = Some (cr_Rule <$> filter (fun x => Is_true (rule_matches c x)) filtered)).
Proof.
  split; [exact Add_built|]. split; [|split].
  - intros name r Hr. rewrite Forall_forall in *. intros x Hx. apply Hr.
    eapply elem_of_sublist; [exact Hx | apply Remove_sublist].
  - intros source r Hs Hr. unfold Merge. apply Forall_sort. cbn [rules].
    now apply merge_loop_Forall.
  - intros e reg c Hreg Hbuilt.
    exists (filter (fun x => Is_true (validator_applies (mc_ValidatorType c) x))
              (GetEnabled reg)).
    unfold FilterByValidator, FindMatchingRules. rewrite Hreg. cbv zeta.
    destruct (length (GetEnabled reg) =? 0)%nat eqn:Hlen.
    + apply Nat.eqb_eq, nil_length_inv in Hlen. rewrite Hlen. split; reflexivity.
    + rewrite FilterByValidator_loop_spec, FindMatchingRules_loop_filter.
      split; [reflexivity|]. cbn [app]. do 2 f_equal. symmetry.
      apply filter_filter_implied.
      apply Forall_forall. intros x Hx Hmatch.
      apply GetEnabled_elem_of in Hx as [Hx _].
      apply Is_true_true. apply Is_true_true in Hmatch.
      apply built_matches_applies; [|assumption].
      rewrite Forall_forall in Hbuilt. now apply Hbuilt.
Qed.

End FilterThenMatch.

(** X15 on the three rules of the filter example and a context of
    validator type ["git.push"]: the rule for markdown files is filtered
    out, and it does not match either. *)
Lemma X15_filter_keeps_matching_rules_witness :
  exists filtered,
    FilterByValidator (evaluator_of [rule_any; rule_git; rule_markdown]) "git.push"
    = Some filtered /\
    FindMatchingRules (evaluator_of [rule_any; rule_git; rule_markdown])
      (Some (validator_context "git.push"))
    = Some (cr_Rule <$> filter
              (fun x => Is_true (rule_matches (validator_context "git.push") x))
              filtered).
Proof.
  refine (proj2 (proj2 (proj2 (X15_filter_keeps_matching_rules toy_Compile toy_Compile)))
            (evaluator_of [rule_any; rule_git; rule_markdown])
            (registry_of [rule_any; rule_git; rule_markdown])
            (validator_context "git.push") eq_refl _).
  repeat constructor; eexists _, fresh_env, _; split; vm_compute; reflexivity.
Defined.

(** ** Disabled rules *)

(** Two sorted slices with the same rules, of pairwise distinct names, are
    the same slice. *)
Lemma sorted_perm_eq l1 l2 :
  NoDup (rule_names l2) -> l1 ≡ₚ l2 ->
  StronglySorted rule_le l1 -> StronglySorted rule_le l2 -> l1 = l2.
Proof.
  intros Hnd Hperm H1 H2.
  rewrite (sorted_permutation_unique {| rules := l2 |} l1 Hnd Hperm H1).
  symmetry. now apply (sorted_permutation_unique {| rules := l2 |} l2 Hnd).
Qed.

Lemma NoDup_rule_names_sublist l1 l2 :
  l1 `sublist_of` l2 -> NoDup (rule_names l2) -> NoDup (rule_names l1).
Proof.
  intros Hsub Hnd. eapply sublist_NoDup; [exact Hnd|].
  unfold rule_names. now apply fmap_sublist.
Qed.

Lemma Evaluate_loop_default e1 e2 ctx rs :
  e_defaultAction e1 = e_defaultAction e2 ->
  Evaluate_loop e1 ctx rs = Evaluate_loop e2 ctx rs.
Proof.
  intros Hd. induction rs as [|x rs IH]; cbn.
  - unfold unmatched. now rewrite Hd.
  - destruct (Match (cr_Matcher x) ctx) as [[|]|]; auto.
Qed.

Section DisabledRules.

Variable glob_Compile : string -> (string -> bool) + error.
Variable regexp_Compile : string -> (string -> bool) + error.

(** Storing a disabled rule leaves the enabled rules that [Remove] of its
    name leaves. *)
Lemma Add_disabled_enabled ru r env r' env' :
  registry_sorted r -> r_Enabled ru = false ->
  Add glob_Compile regexp_Compile (Some ru) r env = (None, r', env') ->
  GetEnabled r' = GetEnabled (snd (Remove (r_Name ru) r)).
Proof.
  intros [Hnd Hsorted] Hoff Ha.
  pose proof (Remove_sublist (r_Name ru) r) as Hsub.
  assert (StronglySorted rule_le (GetEnabled (snd (Remove (r_Name ru) r)))) as Hs2.
  { eapply StronglySorted_sublist; [apply sublist_filter; apply _|].
    eapply StronglySorted_sublist; eassumption. }
  assert (NoDup (rule_names (GetEnabled (snd (Remove (r_Name ru) r))))) as Hnd2.
  { eapply NoDup_rule_names_sublist; [apply sublist_filter; apply _|].
    eapply NoDup_rule_names_sublist; eassumption. }
  apply sorted_perm_eq; [assumption| |
    eapply StronglySorted_sublist; [apply sublist_filter; apply _|] |assumption].
  - apply Add_success in Ha as (ru' & m & [= <-] & _ & _ & Hcase).
    unfold GetEnabled, Remove.
    destruct Hcase as [(i & y & Hf & ->)|(Hf & ->)]; rewrite Hf;
      cbn [snd rules sortRulesLocked]; rewrite merge_sort_Permutation.
    + apply list_find_Some in Hf as (Hi & _ & _).
      apply lookup_lt_Some in Hi.
      rewrite insert_take_drop by assumption. rewrite delete_take_drop.
      rewrite !filter_app, filter_bool_cons. cbn [cr_Rule]. rewrite Hoff. reflexivity.
    + rewrite filter_app, filter_bool_cons. cbn [cr_Rule]. rewrite Hoff.
      rewrite filter_nil, app_nil_r. reflexivity.
  - apply Add_success in Ha as (ru' & m & _ & _ & _ & [(i & y & _ & ->)|(_ & ->)]);
      apply sortRulesLocked_sorted.
Qed.

(** X16.  A disabled rule is invisible to evaluation: when a registry that
    is sorted and has unique names takes a rule with [Enabled] false (which
    overwrites the rule of that name, if there is one), an evaluator on it
    answers every call of [Evaluate], [EvaluateAll], [FindMatchingRules] and
    [FilterByValidator] as it would had the rule of that name been removed
    instead. *)
Theorem X16_disabled_rule_is_invisible
    (ru : Rule) (r r' : Registry) (env env' : Env) (e : Evaluator) :
  registry_sorted r -> r_Enabled ru = false ->
  Add glob_Compile regexp_Compile (Some ru) r env = (None, r', env') ->
  let removed := snd (Remove (r_Name ru) r) in
  GetEnabled r' = GetEnabled removed /\
  (forall ctx, Evaluate (with_registry r' e) ctx
               = Evaluate (with_registry removed e) ctx) /\
  (forall ctx, EvaluateAll (with_registry r' e) ctx
               = EvaluateAll (with_registry removed e) ctx) /\
  (forall ctx, FindMatchingRules (with_registry r' e) ctx
               = FindMatchingRules (with_registry removed e) ctx) /\
  (forall v, FilterByValidator (with_registry r' e) v
             = FilterByValidator (with_registry removed e) v).
Proof.
  intros Hr Hoff Ha removed.
  pose proof (Add_disabled_enabled _ _ _ _ _ Hr Hoff Ha) as Hen.
  fold removed in Hen. split; [exact Hen|].
  unfold Evaluate, EvaluateAll, FindMatchingRules, FilterByValidator.
  cbn [with_registry e_registry]. rewrite Hen.
  repeat split; try reflexivity.
  intros ctx. destruct (length (GetEnabled removed) =? 0)%nat; [reflexivity|].
  now apply Evaluate_loop_default.
Qed.

End DisabledRules.

(** X16 on the end-to-end registry: with a disabled rule stored under the
    name ["R1"], a push to origin is allowed by ["R2"], as it is after
    removing ["R1"]. *)
Lemma X16_disabled_rule_is_invisible_witness :
  Evaluate
    (with_registry
       (snd (fst (Add toy_Compile toy_Compile
                    (Some (plain_rule "R1" 100 false ActionBlock EmptyString))
                    (registry_of [R2; R1]) fresh_env)))
       (NewEvaluator None []))
    (Some (remote_context "origin"))
  = Evaluate
      (with_registry (snd (Remove "R1" (registry_of [R2; R1]))) (NewEvaluator None []))
      (Some (remote_context "origin")).
Proof.
  destruct (Add toy_Compile toy_Compile
              (Some (plain_rule "R1" 100 false ActionBlock EmptyString))
              (registry_of [R2; R1]) fresh_env) as [[[err|] r'] env'] eqn:Ha.
  - vm_compute in Ha. discriminate Ha.
  - cbn [fst snd].
    refine (proj1 (proj2 (X16_disabled_rule_is_invisible toy_Compile toy_Compile
                            (plain_rule "R1" 100 false ActionBlock EmptyString)
                            (registry_of [R2; R1]) r' fresh_env env'
                            (NewEvaluator None []) _ eq_refl Ha)) _).
    split.
    + apply (bool_decide_unpack _). vm_compute. exact I.
    + repeat constructor; vm_compute; discriminate.
Defined.
